(** * POSIX message queues and named semaphores of winsup/cygwin/posix_ipc.cc

    A shallow embedding of the message-queue core ([mq_open]'s creation path,
    [mq_getattr], [mq_setattr], [_mq_send], [_mq_receive]), of the timed
    condition wait [ipc_cond_timedwait] and of [_sem_close], followed by the
    properties the design document states about them.

    The shared segment is a header ([mq_hdr]) followed by message slots
    ([msg_hdr] plus payload area) addressed by their byte offset from the start
    of the mapping ([mptr]); the free list and the list of pending messages are
    threaded through the slots by [msg_next], offset 0 ending a list. *)

From Stdlib Require Import ZArith Lia Strings.Byte.
From stdpp Require Import gmap list.

Open Scope Z_scope.

(** ** Platform constants

    Constants, sizes and helpers that posix_ipc.cc takes from headers which are
    not part of the sources at hand.  Everything below is parametric in them. *)

Record timespec := { tv_sec : Z; tv_nsec : Z }.

Class Platform := {
  MQI_MAGIC : Z;                      (* stamp of an mqueue header / mq_info *)
  MQ_PRIO_MAX : Z;                    (* exclusive bound on priorities *)
  O_NONBLOCK : Z;                     (* open flag bits *)
  O_CREAT : Z;
  O_EXCL : Z;
  sizeof_mq_hdr : Z;                  (* sizeof (struct mq_hdr) *)
  sizeof_long : Z;                    (* sizeof (long) *)
  valid_timespec : timespec → bool    (* well-formedness of a deadline *)
}.

(** ** Machine integers *)

(** Conversion to [int32_t], the type of [msg_next] and [msg_len]. *)
Definition to_int32 (z : Z) : Z := (z + 2 ^ 31) mod 2 ^ 32 - 2 ^ 31.

Definition in_int32 (z : Z) : Prop := - 2 ^ 31 ≤ z < 2 ^ 31.

(** sys/param.h [roundup]. *)
Definition roundup (x y : Z) : Z := ((x + (y - 1)) / y) * y.

(** ** Error numbers *)

Inductive errno :=
| EBADF | EINVAL | EMSGSIZE | EAGAIN | EINTR | ETIMEDOUT | EBUSY | EEXIST
| EFAULT
| ERAW (n : Z).   (* an int stored into errno as is, or a translated OS status *)

(** ** Data model *)

(** struct msg_hdr, with the payload area that follows it in the slot. *)
Record msg_hdr := {
  msg_next : Z;            (* int32_t: offset of next on linked list *)
  msg_len : Z;             (* int32_t: actual length *)
  msg_prio : Z;            (* unsigned int: priority *)
  msg_data : list byte     (* the bytes after the header *)
}.

Definition sizeof_msg_hdr : Z := 12.

Record mq_attr := {
  mq_flags : Z;
  mq_maxmsg : Z;
  mq_msgsize : Z;
  mq_curmsgs : Z
}.

(** struct mq_attr defattr = { 0, 10, 8192, 0 } *)
Definition defattr : mq_attr :=
  {| mq_flags := 0; mq_maxmsg := 10; mq_msgsize := 8192; mq_curmsgs := 0 |}.

Inductive sigev_notify_t :=
| SIGEV_SIGNAL | SIGEV_NONE | SIGEV_THREAD
| SIGEV_other (n : Z).    (* any other content of the field *)

Record sigevent := {
  sigev_notify : sigev_notify_t;
  sigev_signo : Z;
  sigev_value : Z
}.

(** struct mq_hdr: the fields posix_ipc.cc uses. *)
Record mq_hdr := {
  mqh_attr : mq_attr;      (* the queue's attributes *)
  mqh_head : Z;            (* offset of first message *)
  mqh_free : Z;            (* offset of first free slot *)
  mqh_nwait : Z;           (* #threads blocked in mq_receive *)
  mqh_pid : Z;             (* nonzero pid if mqh_event set *)
  mqh_event : sigevent;    (* for mq_notify *)
  mqh_magic : Z
}.

(** The mapped file: header and slots. *)
Record segment := {
  seg_hdr : mq_hdr;
  seg_msgs : gmap Z msg_hdr
}.

(** struct mq_info, the per-open side: the fields posix_ipc.cc uses (the
    handles of the lock and of the two events are left implicit). *)
Record mq_info := {
  mqi_flags : Z;
  mqi_magic : Z
}.

Inductive cond := mqi_waitsend | mqi_waitrecv.

(** What a call does to the world outside the segment. *)
Inductive event :=
| EvLock                                   (* mutex acquired *)
| EvReleaseMutex                           (* ReleaseMutex on mqi_lock *)
| EvResetEvent (c : cond)
| EvSetEvent (c : cond)                    (* ipc_cond_signal *)
| EvWait (c : option cond)                 (* WaitForMultipleObjects, on the
                                              event or (None) on the mutex *)
| EvCreateTimer | EvSetTimer | EvCancelTimer | EvCloseTimer
| EvSigqueue (pid signo value : Z).

Record world := {
  w_seg : segment;
  w_info : mq_info;
  w_trace : list event      (* oldest first *)
}.

(** ** A state monad with the exits of the code *)

Inductive res (A : Type) : Type :=
| Ok (a : A) (w : world)
| Leave (e : errno) (w : world)   (* __leave with errno = e; at the end of a
                                     call: returned -1 with errno = e *)
| Fatal (w : world)               (* api_fatal: the process is terminated *)
| Fault                           (* access outside the slots of the mapping *)
| Blocked (w : world)             (* nobody ever wakes the caller *)
| Cancelled (w : world)           (* the thread was cancelled *)
| Diverge.                        (* a loop that does not end *)

Arguments Ok {A} a w.
Arguments Leave {A} e w.
Arguments Fatal {A} w.
Arguments Fault {A}.
Arguments Blocked {A} w.
Arguments Cancelled {A} w.
Arguments Diverge {A}.

Definition M (A : Type) : Type := world → res A.

Definition ret {A} (a : A) : M A := λ w, Ok a w.

Definition bind {A B} (m : M A) (k : A → M B) : M B :=
  λ w, match m w with
       | Ok a w' => k a w'
       | Leave e w' => Leave e w'
       | Fatal w' => Fatal w'
       | Fault => Fault
       | Blocked w' => Blocked w'
       | Cancelled w' => Cancelled w'
       | Diverge => Diverge
       end.

Declare Scope mq_scope.
Delimit Scope mq_scope with mq.
Notation "x <- m ;; k" := (bind m (λ x, k))
  (at level 100, m at next level, right associativity) : mq_scope.
Notation "m ;;; k" := (bind m (λ _, k))
  (at level 100, right associativity) : mq_scope.
Open Scope mq_scope.

Definition leave {A} (e : errno) : M A := λ w, Leave e w.
Definition api_fatal {A} : M A := λ w, Fatal w.

Definition get_hdr : M mq_hdr := λ w, Ok (seg_hdr (w_seg w)) w.
Definition get_info : M mq_info := λ w, Ok (w_info w) w.

Definition put_hdr (h : mq_hdr) : M unit := λ w,
  Ok tt {| w_seg := {| seg_hdr := h; seg_msgs := seg_msgs (w_seg w) |};
           w_info := w_info w; w_trace := w_trace w |}.

Definition put_info (i : mq_info) : M unit := λ w,
  Ok tt {| w_seg := w_seg w; w_info := i; w_trace := w_trace w |}.

Definition put_seg (s : segment) : M unit := λ w,
  Ok tt {| w_seg := s; w_info := w_info w; w_trace := w_trace w |}.

Definition emit (ev : event) : M unit := λ w,
  Ok tt {| w_seg := w_seg w; w_info := w_info w; w_trace := w_trace w ++ [ev] |}.

(** [(struct msg_hdr * ) &mptr[index]], read. *)
Definition load (index : Z) : M msg_hdr := λ w,
  match seg_msgs (w_seg w) !! index with
  | Some m => Ok m w
  | None => Fault
  end.

(** Update of the slot at [index]. *)
Definition modify (index : Z) (f : msg_hdr → msg_hdr) : M unit := λ w,
  match seg_msgs (w_seg w) !! index with
  | Some m =>
      Ok tt {| w_seg := {| seg_hdr := seg_hdr (w_seg w);
                           seg_msgs := <[index := f m]> (seg_msgs (w_seg w)) |};
               w_info := w_info w; w_trace := w_trace w |}
  | None => Fault
  end.

(** Field updates. *)
Definition with_next (v : Z) (m : msg_hdr) : msg_hdr :=
  {| msg_next := to_int32 v; msg_len := msg_len m;
     msg_prio := msg_prio m; msg_data := msg_data m |}.

Definition with_prio (v : Z) (m : msg_hdr) : msg_hdr :=
  {| msg_next := msg_next m; msg_len := msg_len m;
     msg_prio := v; msg_data := msg_data m |}.

Definition with_len (v : Z) (m : msg_hdr) : msg_hdr :=
  {| msg_next := msg_next m; msg_len := to_int32 v;
     msg_prio := msg_prio m; msg_data := msg_data m |}.

(** [memcpy (nmsghdr + 1, ptr, len)] *)
Definition with_data (ptr : list byte) (m : msg_hdr) : msg_hdr :=
  {| msg_next := msg_next m; msg_len := msg_len m; msg_prio := msg_prio m;
     msg_data := ptr ++ drop (length ptr) (msg_data m) |}.

Definition set_attr (a : mq_attr) (h : mq_hdr) : mq_hdr :=
  {| mqh_attr := a; mqh_head := mqh_head h; mqh_free := mqh_free h;
     mqh_nwait := mqh_nwait h; mqh_pid := mqh_pid h;
     mqh_event := mqh_event h; mqh_magic := mqh_magic h |}.

Definition set_curmsgs (n : Z) (h : mq_hdr) : mq_hdr :=
  set_attr {| mq_flags := mq_flags (mqh_attr h);
              mq_maxmsg := mq_maxmsg (mqh_attr h);
              mq_msgsize := mq_msgsize (mqh_attr h);
              mq_curmsgs := n |} h.

Definition set_head (v : Z) (h : mq_hdr) : mq_hdr :=
  {| mqh_attr := mqh_attr h; mqh_head := v; mqh_free := mqh_free h;
     mqh_nwait := mqh_nwait h; mqh_pid := mqh_pid h;
     mqh_event := mqh_event h; mqh_magic := mqh_magic h |}.

Definition set_free (v : Z) (h : mq_hdr) : mq_hdr :=
  {| mqh_attr := mqh_attr h; mqh_head := mqh_head h; mqh_free := v;
     mqh_nwait := mqh_nwait h; mqh_pid := mqh_pid h;
     mqh_event := mqh_event h; mqh_magic := mqh_magic h |}.

Definition set_nwait (v : Z) (h : mq_hdr) : mq_hdr :=
  {| mqh_attr := mqh_attr h; mqh_head := mqh_head h; mqh_free := mqh_free h;
     mqh_nwait := v; mqh_pid := mqh_pid h;
     mqh_event := mqh_event h; mqh_magic := mqh_magic h |}.

Definition set_pid (v : Z) (h : mq_hdr) : mq_hdr :=
  {| mqh_attr := mqh_attr h; mqh_head := mqh_head h; mqh_free := mqh_free h;
     mqh_nwait := mqh_nwait h; mqh_pid := v;
     mqh_event := mqh_event h; mqh_magic := mqh_magic h |}.

Definition modify_hdr (f : mq_hdr → mq_hdr) : M unit :=
  h <- get_hdr ;; put_hdr (f h).

Section Mqueue.
Context `{P : Platform}.

(** ** Mutex and condition *)

(** What [cygwait] on the mutex reports. *)
Inductive cygwait_t :=
| WAIT_OBJECT_0 | WAIT_ABANDONED_0 | WAIT_SIGNALED
| WAIT_CANCELED                 (* cw_cancel_self: the thread is gone *)
| WAIT_FAILED (e : errno).      (* e = geterrno_from_win_error () *)

(** [ipc_mutex_lock]: 0 on success, 1 after [set_errno (EINTR)], else the
    translated error.  [None] stands for 0. *)
Definition ipc_mutex_lock (r : cygwait_t) : M (option errno) :=
  match r with
  | WAIT_OBJECT_0 | WAIT_ABANDONED_0 => emit EvLock ;;; ret None
  | WAIT_SIGNALED => ret (Some (ERAW 1))
  | WAIT_CANCELED => λ w, Cancelled w
  | WAIT_FAILED e => ret (Some e)
  end.

(** [ipc_mutex_unlock]: ReleaseMutex, [r] its translated failure if any. *)
Definition ipc_mutex_unlock (r : option errno) : M (option errno) :=
  emit EvReleaseMutex ;;; ret r.

Definition ipc_cond_signal (c : cond) : M unit := emit (EvSetEvent c).

(** What WaitForMultipleObjects reports: the index of the signalled handle
    (w4[0] the event or mutex, w4[1] signal arrived, then the cancel event
    and the timer), an abandoned mutex, or a failure. *)
Inductive wfmo_t :=
| WFMO_0
| WFMO_1 (restart : bool)       (* restart = _my_tls.call_signal_handler () *)
| WFMO_2
| WFMO_3
| WFMO_ABANDONED_0 (e : errno)   (* e as for WFMO_FAILED, where it is used *)
| WFMO_FAILED (e : errno).       (* e = geterrno_from_win_error () *)

(** Everything one call of [ipc_cond_timedwait] gets from outside. *)
Record wait_oracle := {
  wo_cancel_event : bool;            (* pthread::get_cancel_event () != NULL *)
  wo_create_timer : option errno;    (* failure of NtCreateTimer *)
  wo_set_timer : option errno;       (* failure of NtSetTimer *)
  wo_unlock : option errno;          (* failure of ReleaseMutex *)
  wo_wait1 : list wfmo_t;            (* the waits on the event *)
  wo_wait2 : list wfmo_t;            (* the waits on the mutex *)
  wo_testcancel_returns : bool;      (* pthread_testcancel comes back *)
  wo_env : segment → segment         (* what the other openers do to the
                                        segment while the mutex is free *)
}.

(** restart1: wait for the event. *)
Fixpoint restart1 (c : cond) (timer_idx : Z) (rs : list wfmo_t)
  : M (option errno) :=
  match rs with
  | [] => λ w, Blocked w
  | r :: rs' =>
      emit (EvWait (Some c)) ;;;
      match r with
      | WFMO_0 => ret None
      | WFMO_1 true => restart1 c timer_idx rs'
      | WFMO_1 false => ret (Some EINTR)
      | WFMO_2 =>
          if negb (timer_idx =? 2) then (λ w, Cancelled w)
          else ret (Some ETIMEDOUT)
      | WFMO_3 => ret (Some ETIMEDOUT)
      | WFMO_ABANDONED_0 e => ret (Some e)
      | WFMO_FAILED e => ret (Some e)
      end
  end.

(** restart2: wait for the mutex. *)
Fixpoint restart2 (timer_idx : Z) (testcancel_returns : bool)
    (rs : list wfmo_t) : M (option errno) :=
  match rs with
  | [] => λ w, Blocked w
  | r :: rs' =>
      emit (EvWait None) ;;;
      match r with
      | WFMO_0 | WFMO_ABANDONED_0 _ => emit EvLock ;;; ret None
      | WFMO_1 true => restart2 timer_idx testcancel_returns rs'
      | WFMO_1 false => ret (Some EINTR)
      | WFMO_2 =>
          if negb (timer_idx =? 2) && negb testcancel_returns
          then (λ w, Cancelled w)
          else ret (Some ETIMEDOUT)
      | WFMO_3 => ret (Some ETIMEDOUT)
      | WFMO_FAILED e => ret (Some e)
      end
  end.

Definition errno_eqb_ETIMEDOUT (r : option errno) : bool :=
  match r with Some ETIMEDOUT => true | _ => false end.

(** The [if (abstime)] block of [ipc_cond_timedwait]: either the function
    returns from inside it ([inl]), or it leaves [timer_idx] set.  What comes
    before it in the function only fills the caller's own array of handles
    ([w4]) and is in [cnt]. *)
Definition arm_timer (cnt : Z) (abstime : option timespec) (o : wait_oracle)
  : M (errno + Z) :=
  match abstime with
  | Some ts =>
      if negb (valid_timespec ts) then ret (inl EINVAL) else
      emit EvCreateTimer ;;;
      match wo_create_timer o with
      | Some e => ret (inl e)
      | None =>
          emit EvSetTimer ;;;
          match wo_set_timer o with
          | Some e => emit EvCloseTimer ;;; ret (inl e)
          | None => ret (inr cnt)
          end
      end
  | None => ret (inr 0)
  end.

(** [ipc_cond_timedwait (evt, mtx, abstime)]; [None] is the return value 0. *)
Definition ipc_cond_timedwait (evt : cond) (abstime : option timespec)
    (o : wait_oracle) : M (option errno) :=
  let cnt := if wo_cancel_event o then 3 else 2 in
  t <- arm_timer cnt abstime o ;;
  match t with
  | inl e => ret (Some e)
  | inr timer_idx =>
      emit (EvResetEvent evt) ;;;
      u <- ipc_mutex_unlock (wo_unlock o) ;;
      match u with
      | Some e => ret (Some e)
      | None =>
          (λ w, put_seg (wo_env o (w_seg w)) w) ;;;
          r1 <- restart1 evt timer_idx (wo_wait1 o) ;;
          r <- match r1 with
               | None => restart2 timer_idx (wo_testcancel_returns o)
                           (wo_wait2 o)
               | Some e => ret (Some e)
               end ;;
          (if negb (timer_idx =? 0) then
             (if errno_eqb_ETIMEDOUT r then ret tt else emit EvCancelTimer) ;;;
             emit EvCloseTimer
           else ret tt) ;;;
          ret r
      end
  end.

(** [while (pred) { ret = ipc_cond_timedwait (...); if (ret != 0) { set_errno
    (ret); __leave; } }], one oracle per turn of the loop. *)
Fixpoint wait_while (pred : mq_hdr → bool) (evt : cond)
    (abstime : option timespec) (waits : list wait_oracle) : M unit :=
  λ w,
    if pred (seg_hdr (w_seg w)) then
      match waits with
      | [] => Blocked w
      | o :: waits' =>
          (r <- ipc_cond_timedwait evt abstime o ;;
           match r with
           | Some e => leave e
           | None => wait_while pred evt abstime waits'
           end) w
      end
    else Ok tt w.

(** The code after __endtry of [_mq_send] and [_mq_receive]:
    [if (ipc_mutex_locked) ipc_mutex_unlock (mqinfo->mqi_lock)], reached by
    falling out of the __try block and by __leave. *)
Definition unlock_after {A} (m : M A) : M A :=
  λ w, match m w with
       | Ok a w' => (ipc_mutex_unlock None ;;; ret a) w'
       | Leave e w' => (ipc_mutex_unlock None ;;; leave e) w'
       | r => r
       end.

(** ** Sending *)

(** [pmsghdr]: either [&mqhdr->mqh_head] viewed as a [msg_hdr] (whose
    [msg_next] is then [mqh_head] itself) or a slot. *)
Inductive pmsghdr_t := P_head | P_msg (index : Z).

(** [pmsghdr->msg_next = v] *)
Definition set_pnext (p : pmsghdr_t) (v : Z) : M unit :=
  match p with
  | P_head => modify_hdr (set_head v)
  | P_msg index => modify index (with_next v)
  end.

(** The loop that finds the place of the new message, with the [if (index ==
    0)] that follows it.  [fuel] bounds the number of slots visited. *)
Fixpoint link_msg (fuel : nat) (prio freeindex index : Z) (pmsghdr : pmsghdr_t)
  : M unit :=
  match fuel with
  | O => λ _, Diverge
  | S fuel' =>
      if index =? 0 then
        (* Queue was empty or new goes at end of list *)
        set_pnext pmsghdr freeindex ;;;
        modify freeindex (with_next 0)
      else
        msghdr <- load index ;;
        if prio >? msg_prio msghdr then
          modify freeindex (with_next index) ;;;
          set_pnext pmsghdr freeindex
        else link_msg fuel' prio freeindex (msg_next msghdr) (P_msg index)
  end.

(** A walk over more slots than the mapping holds visits one twice and so
    never ends. *)
Definition walk_fuel : M nat := λ w, Ok (S (size (seg_msgs (w_seg w)))) w.

Definition is_nonblock (i : mq_info) : bool :=
  negb (Z.land (mqi_flags i) O_NONBLOCK =? 0).

Definition queue_full (h : mq_hdr) : bool :=
  mq_curmsgs (mqh_attr h) >=? mq_maxmsg (mqh_attr h).

Definition queue_empty (h : mq_hdr) : bool :=
  mq_curmsgs (mqh_attr h) =? 0.

(** The notification of [_mq_send], taken when it finds the queue empty. *)
Definition notify_registered : M unit :=
  h <- get_hdr ;;
  if negb (mqh_pid h =? 0) && (mqh_nwait h =? 0) then
    let sigev := mqh_event h in
    match sigev_notify sigev with
    | SIGEV_SIGNAL =>
        emit (EvSigqueue (mqh_pid h) (sigev_signo sigev) (sigev_value sigev))
    | _ => ret tt
    end ;;;
    modify_hdr (set_pid 0)             (* unregister *)
  else ret tt.

(** [_mq_send], the part that decides whether the message can go in: the
    [if (attr->mq_curmsgs == 0) ... else if (attr->mq_curmsgs >=
    attr->mq_maxmsg) ...]. *)
Definition send_admit (abstime : option timespec) (waits : list wait_oracle)
  : M unit :=
  h <- get_hdr ;;
  if queue_empty h then notify_registered
  else if queue_full h then
    (* Queue is full *)
    info <- get_info ;;
    if is_nonblock info then leave EAGAIN
    else
      (* Wait for room for one message on the queue *)
      wait_while queue_full mqi_waitsend abstime waits
  else ret tt.

(** [_mq_send], the part that takes a free slot, fills it and links it. *)
Definition send_enqueue (ptr : list byte) (prio : Z) : M Z :=
  let len := Z.of_nat (length ptr) in
  (* nmsghdr will point to new message *)
  h <- get_hdr ;;
  let freeindex := mqh_free h in
  if freeindex =? 0 then api_fatal else
  modify freeindex (with_prio prio) ;;;
  modify freeindex (with_len len) ;;;
  modify freeindex (with_data ptr) ;;;
  nmsghdr <- load freeindex ;;
  modify_hdr (set_free (msg_next nmsghdr)) ;;;   (* new freelist head *)
  (* Find right place for message in linked list *)
  h <- get_hdr ;;
  fuel <- walk_fuel ;;
  link_msg fuel prio freeindex (mqh_head h) P_head ;;;
  (* Wake up anyone blocked in mq_receive waiting for a message *)
  h <- get_hdr ;;
  (if queue_empty h then ipc_cond_signal mqi_waitrecv else ret tt) ;;;
  modify_hdr (set_curmsgs (mq_curmsgs (mqh_attr h) + 1)) ;;;
  ret 0.

(** [_mq_send] from the acquisition of the lock to the end of the __try
    block. *)
Definition mq_send_locked (ptr : list byte) (prio : Z)
    (abstime : option timespec) (waits : list wait_oracle) : M Z :=
  h <- get_hdr ;;
  if Z.of_nat (length ptr) >? mq_msgsize (mqh_attr h) then leave EMSGSIZE else
  send_admit abstime waits ;;;
  send_enqueue ptr prio.

(** [_mq_send (mqd, ptr, len, prio, abstime)] on an open message queue
    descriptor, for a caller with no cancellation pending on entry; [lock] is
    what the wait for the mutex reports.  [len] is the length of [ptr]. *)
Definition _mq_send (ptr : list byte) (prio : Z) (abstime : option timespec)
    (lock : cygwait_t) (waits : list wait_oracle) : M Z :=
  info <- get_info ;;
  if negb (mqi_magic info =? MQI_MAGIC) then leave EBADF else
  if prio >=? MQ_PRIO_MAX then leave EINVAL else
  n <- ipc_mutex_lock lock ;;
  match n with
  | Some e => leave e
  | None => unlock_after (mq_send_locked ptr prio abstime waits)
  end.

Definition mq_send (ptr : list byte) (prio : Z) := _mq_send ptr prio None.

Definition mq_timedsend (ptr : list byte) (prio : Z) (abstime : timespec) :=
  _mq_send ptr prio (Some abstime).

(** ** Receiving *)

(** What [_mq_receive] hands back: its return value, the bytes copied to
    [ptr] and the priority stored through [priop]. *)
Record received := {
  rcv_len : Z;
  rcv_data : list byte;
  rcv_prio : Z
}.

(** [_mq_receive], the part that waits for a message. *)
Definition receive_admit (abstime : option timespec)
    (waits : list wait_oracle) : M unit :=
  h <- get_hdr ;;
  if queue_empty h then
    (* queue is empty *)
    info <- get_info ;;
    if is_nonblock info then leave EAGAIN else
    (* Wait for a message to be placed onto queue *)
    modify_hdr (λ h, set_nwait (mqh_nwait h + 1) h) ;;;
    wait_while queue_empty mqi_waitrecv abstime waits ;;;
    modify_hdr (λ h, set_nwait (mqh_nwait h - 1) h)
  else ret tt.

(** [_mq_receive], the part that takes the first message off the list. *)
Definition receive_dequeue : M received :=
  h <- get_hdr ;;
  let index := mqh_head h in
  if index =? 0 then api_fatal else
  msghdr <- load index ;;
  modify_hdr (set_head (msg_next msghdr)) ;;;    (* new head of list *)
  let len := msg_len msghdr in
  let out := {| rcv_len := len;
                rcv_data := take (Z.to_nat len) (msg_data msghdr);
                rcv_prio := msg_prio msghdr |} in
  (* Just-read message goes to front of free list *)
  h <- get_hdr ;;
  modify index (with_next (mqh_free h)) ;;;
  modify_hdr (set_free index) ;;;
  (* Wake up anyone blocked in mq_send waiting for room *)
  h <- get_hdr ;;
  (if mq_curmsgs (mqh_attr h) =? mq_maxmsg (mqh_attr h)
   then ipc_cond_signal mqi_waitsend else ret tt) ;;;
  modify_hdr (set_curmsgs (mq_curmsgs (mqh_attr h) - 1)) ;;;
  ret out.

Definition mq_receive_locked (maxlen : Z) (abstime : option timespec)
    (waits : list wait_oracle) : M received :=
  h <- get_hdr ;;
  if maxlen <? mq_msgsize (mqh_attr h) then leave EMSGSIZE else
  receive_admit abstime waits ;;;
  receive_dequeue.

(** [_mq_receive (mqd, ptr, maxlen, priop, abstime)], under the same
    conditions. *)
Definition _mq_receive (maxlen : Z) (abstime : option timespec)
    (lock : cygwait_t) (waits : list wait_oracle) : M received :=
  info <- get_info ;;
  if negb (mqi_magic info =? MQI_MAGIC) then leave EBADF else
  n <- ipc_mutex_lock lock ;;
  match n with
  | Some e => leave e
  | None => unlock_after (mq_receive_locked maxlen abstime waits)
  end.

Definition mq_receive (maxlen : Z) := _mq_receive maxlen None.

Definition mq_timedreceive (maxlen : Z) (abstime : timespec) :=
  _mq_receive maxlen (Some abstime).

(** ** Attributes and notification *)

(** [mq_getattr]: the value stored through [mqstat]. *)
Definition mq_getattr (lock : cygwait_t) : M mq_attr :=
  info <- get_info ;;
  if negb (mqi_magic info =? MQI_MAGIC) then leave EBADF else
  n <- ipc_mutex_lock lock ;;
  match n with
  | Some e => leave e
  | None =>
      h <- get_hdr ;;
      let attr := mqh_attr h in
      let mqstat := {| mq_flags := mqi_flags info;        (* per-open *)
                       mq_maxmsg := mq_maxmsg attr;  (* remaining three per-queue *)
                       mq_msgsize := mq_msgsize attr;
                       mq_curmsgs := mq_curmsgs attr |} in
      ipc_mutex_unlock None ;;;
      ret mqstat
  end.

(** [mq_setattr]: [omqstat] tells whether the caller passed a place for the
    previous attributes; the result is what is stored there. *)
Definition mq_setattr (mqstat : mq_attr) (omqstat : bool) (lock : cygwait_t)
  : M (option mq_attr) :=
  info <- get_info ;;
  if negb (mqi_magic info =? MQI_MAGIC) then leave EBADF else
  n <- ipc_mutex_lock lock ;;
  match n with
  | Some e => leave e
  | None =>
      h <- get_hdr ;;
      let attr := mqh_attr h in
      let old :=
        if omqstat then
          Some {| mq_flags := mqi_flags info;         (* previous attributes *)
                  mq_maxmsg := mq_maxmsg attr;
                  mq_msgsize := mq_msgsize attr;
                  mq_curmsgs := mq_curmsgs attr |}    (* and current status *)
        else None in
      put_info
        {| mqi_flags :=
             if negb (Z.land (mq_flags mqstat) O_NONBLOCK =? 0)
             then Z.lor (mqi_flags info) O_NONBLOCK
             else Z.land (mqi_flags info) (Z.lnot O_NONBLOCK);
           mqi_magic := mqi_magic info |} ;;;
      ipc_mutex_unlock None ;;;
      ret old
  end.

Definition set_event (ev : sigevent) (h : mq_hdr) : mq_hdr :=
  {| mqh_attr := mqh_attr h; mqh_head := mqh_head h; mqh_free := mqh_free h;
     mqh_nwait := mqh_nwait h; mqh_pid := mqh_pid h;
     mqh_event := ev; mqh_magic := mqh_magic h |}.

(** [mq_notify]: [pid] is getpid (), [owner_gone] tells whether the probe
    [kill (mqh_pid, 0)] fails with ESRCH. *)
Definition mq_notify (notification : option sigevent) (pid : Z)
    (owner_gone : bool) (lock : cygwait_t) : M Z :=
  info <- get_info ;;
  if negb (mqi_magic info =? MQI_MAGIC) then leave EBADF else
  n <- ipc_mutex_lock lock ;;
  match n with
  | Some e => leave e
  | None =>
      h <- get_hdr ;;
      match notification with
      | None =>
          (if mqh_pid h =? pid
           then modify_hdr (set_pid 0)     (* unregister calling process *)
           else ret tt) ;;;
          ipc_mutex_unlock None ;;;
          ret 0
      | Some ev =>
          if negb (mqh_pid h =? 0) && negb owner_gone then
            ipc_mutex_unlock None ;;;
            leave EBUSY
          else
            modify_hdr (set_pid pid) ;;;
            modify_hdr (set_event ev) ;;;
            ipc_mutex_unlock None ;;;
            ret 0
      end
  end.

(** ** Creation *)

(** [MSGSIZE (i)] *)
Definition MSGSIZE (i : Z) : Z := roundup i sizeof_long.

(** Distance between two slots of a queue of these attributes. *)
Definition slot_size (attr : mq_attr) : Z :=
  sizeof_msg_hdr + MSGSIZE (mq_msgsize attr).

Definition file_size (attr : mq_attr) : Z :=
  sizeof_mq_hdr + mq_maxmsg attr * slot_size attr.

Definition zero_msg (msgsize : Z) : msg_hdr :=
  {| msg_next := 0; msg_len := 0; msg_prio := 0;
     msg_data := replicate (Z.to_nat msgsize) "000"%byte |}.

(** The slots of the freshly truncated, zero-filled file, as the mapping
    shows them: [n] slots from offset [index] on. *)
Fixpoint zero_slots (n : nat) (index stride : Z) (blank : msg_hdr)
  : gmap Z msg_hdr :=
  match n with
  | O => ∅
  | S n' => <[index := blank]> (zero_slots n' (index + stride) stride blank)
  end.

Definition zero_hdr : mq_hdr :=
  {| mqh_attr := {| mq_flags := 0; mq_maxmsg := 0; mq_msgsize := 0;
                    mq_curmsgs := 0 |};
     mqh_head := 0; mqh_free := 0; mqh_nwait := 0; mqh_pid := 0;
     mqh_event := {| sigev_notify := SIGEV_other 0; sigev_signo := 0;
                     sigev_value := 0 |};
     mqh_magic := 0 |}.

(** Modelled from the spec: fhandler_mqueue::mqinfo_create, which is not in
    the sources at hand.  It maps the file ("size storage to header+slots; map
    it") and hands out the per-open record, stamped and carrying the blocking
    mode the opener asked for. *)
Definition mqinfo_create (attr : mq_attr) (nonblock : Z) : world :=
  {| w_seg := {| seg_hdr := zero_hdr;
                 seg_msgs := zero_slots (Z.to_nat (mq_maxmsg attr))
                               sizeof_mq_hdr (slot_size attr)
                               (zero_msg (MSGSIZE (mq_msgsize attr))) |};
     w_info := {| mqi_flags := nonblock; mqi_magic := MQI_MAGIC |};
     w_trace := [] |}.

(** [for (i = 0; i < attr->mq_maxmsg - 1; i++) { msghdr = &mptr[index];
    index += sizeof (struct msg_hdr) + msgsize; msghdr->msg_next = index; }],
    [n] turns; the result is the final [index]. *)
Fixpoint link_free (n : nat) (index stride : Z) : M Z :=
  match n with
  | O => ret index
  | S n' =>
      modify index (with_next (index + stride)) ;;;
      link_free n' (index + stride) stride
  end.

(** "Initialize header at beginning of file" and "Create free list with all
    messages on it". *)
Definition init_queue (attr : mq_attr) : M unit :=
  let msgsize := MSGSIZE (mq_msgsize attr) in
  put_hdr {| mqh_attr := {| mq_flags := 0;
                            mq_maxmsg := mq_maxmsg attr;
                            mq_msgsize := mq_msgsize attr;
                            mq_curmsgs := 0 |};
             mqh_head := 0;
             mqh_free := sizeof_mq_hdr;
             mqh_nwait := 0;
             mqh_pid := 0;
             mqh_event := mqh_event zero_hdr;
             mqh_magic := MQI_MAGIC |} ;;;
  index <- link_free (Z.to_nat (mq_maxmsg attr - 1)) sizeof_mq_hdr
             (sizeof_msg_hdr + msgsize) ;;
  modify index (with_next 0).          (* end of free list *)

(** What the system calls of the creating branch of [mq_open] report. *)
Inductive open_t := FD_OK | FD_ERR (e : errno).

Record open_oracle := {
  oo_open : open_t;                 (* open (..., oflag | O_EXCL | ...) *)
  oo_ftruncate : option errno;
  oo_fdnew : option errno;          (* cygheap_fdnew *)
  oo_build_fh : option errno;       (* build_fh_dev *)
  oo_mqinfo_create : option errno;
  oo_fchmod : option errno
}.

Inductive mq_open_t :=
| Opened (w : world)           (* the descriptor of the initialized queue *)
| Exists                       (* goto exists: attach to the existing queue *)
| Failed (e : errno) (unlinked : bool).
                               (* -1, and whether the file made here is removed *)

(** [mq_open] with O_CREAT in [oflag]: the branch [if (oflag & O_CREAT)].
    [attr] is [None] for a null pointer; [dflt] is what the global [defattr]
    holds at the time of the call. *)
Definition mq_open_create (dflt : mq_attr) (oflag : Z) (attr : option mq_attr)
    (o : open_oracle) : mq_open_t :=
  let oflag := Z.land oflag (Z.lor O_CREAT (Z.lor O_EXCL O_NONBLOCK)) in
  let nonblock := Z.land oflag O_NONBLOCK in
  let oflag := Z.land oflag (Z.lnot O_NONBLOCK) in
  match oo_open o with
  | FD_ERR EEXIST =>
      if Z.land oflag O_EXCL =? 0 then Exists       (* already exists, OK *)
      else Failed EEXIST false
  | FD_ERR e => Failed e false
  | FD_OK =>
      (* First one to create the file initializes it *)
      let checked :=
        match attr with
        | None => Some dflt             (* attr = &defattr *)
        | Some a =>
            if (mq_maxmsg a <=? 0) || (mq_maxmsg a >? 32768)
               || (mq_msgsize a <=? 0) || (mq_msgsize a >? 1048576)
            then None else Some a
        end in
      match checked with
      | None => Failed EINVAL true
      | Some attr =>
          match oo_ftruncate o, oo_fdnew o, oo_build_fh o, oo_mqinfo_create o
          with
          | Some e, _, _, _ | None, Some e, _, _ | None, None, Some e, _
          | None, None, None, Some e => Failed e true
          | None, None, None, None =>
              match init_queue attr (mqinfo_create attr nonblock) with
              | Ok _ w =>
                  (* Initialization complete, turn off user-execute bit *)
                  match oo_fchmod o with
                  | Some e => Failed e true
                  | None => Opened w
                  end
              | _ => Failed EFAULT true    (* __except (EFAULT) *)
              end
          end
      end
  end.

End Mqueue.

(** ** Closing a named semaphore *)

Module Sem.

(** struct sem_finfo *)
Record sem_finfo := {
  value : Z;               (* unsigned int *)
  hash : Z;                (* unsigned long long *)
  luid : Z                 (* LUID *)
}.

(** class ipc_flock: the [l_len] of its [struct flock]. *)
Record ipc_flock := { l_len : Z }.

Inductive sem_event :=
| EvFlock (size : Z)             (* fcntl64 (fd, F_SETLKW, F_WRLCK) *)
| EvFunlock                      (* fcntl64 (fd, F_SETLKW, F_UNLCK) *)
| EvLseek
| EvWrite (sf : sem_finfo)
| EvSemaphoreClose               (* semaphore::close (sem) *)
| EvCloseFd.

Definition sizeof_sf : Z := 24.

(** What the calls made by [_sem_close] report. *)
Record close_oracle := {
  co_getinternal : option sem_finfo;  (* semaphore::getinternal, None for -1 *)
  co_lock : Z;                        (* fcntl64 for the lock *)
  co_lseek : Z;                       (* lseek64 *)
  co_write : Z;                       (* write *)
  co_semaphore_close : Z              (* semaphore::close *)
}.

Definition flock_lock (size : Z) (r : Z) (tr : list sem_event)
  : Z * ipc_flock * list sem_event :=
  (r, {| l_len := size |}, tr ++ [EvFlock size]).

Definition flock_unlock (file : ipc_flock) (tr : list sem_event)
  : list sem_event :=
  if l_len file =? 0 then tr else tr ++ [EvFunlock].

(** [_sem_close (sem, do_close)]: return value and what was done, in order. *)
Definition _sem_close (do_close : bool) (o : close_oracle)
  : Z * list sem_event :=
  let file := {| l_len := 0 |} in
  match co_getinternal o with
  | None => (-1, [])
  | Some sf =>
      let '(locked, file, tr) := flock_lock sizeof_sf (co_lock o) [] in
      let '(ret, tr) :=
        if negb (locked =? 0) then (-1, tr) else
        let tr := tr ++ [EvLseek] in
        if co_lseek o =? -1 then (-1, tr) else
        let tr := tr ++ [EvWrite sf] in
        if negb (co_write o =? sizeof_sf) then (-1, tr) else
        if do_close then (co_semaphore_close o, tr ++ [EvSemaphoreClose])
        else (0, tr) in
      let tr := flock_unlock file tr in
      (ret, tr ++ [EvCloseFd])
  end.

Definition sem_close (o : close_oracle) := _sem_close true o.

End Sem.

(** ** The lists threaded through the slots *)

(** [chain msgs index l]: following [msg_next] from [index] visits exactly the
    slots [l] and then reaches offset 0. *)
Fixpoint chain (msgs : gmap Z msg_hdr) (index : Z) (l : list Z) : Prop :=
  match l with
  | [] => index = 0
  | i :: l' =>
      index = i ∧ i ≠ 0 ∧
      ∃ m, msgs !! i = Some m ∧ chain msgs (msg_next m) l'
  end.

(** The same, computed: the slots met from [index] on, if the walk ends
    within [fuel] slots. *)
Fixpoint walk (fuel : nat) (msgs : gmap Z msg_hdr) (index : Z)
  : option (list Z) :=
  if index =? 0 then Some [] else
  match fuel with
  | O => None
  | S fuel' =>
      match msgs !! index with
      | Some m => cons index <$> walk fuel' msgs (msg_next m)
      | None => None
      end
  end.

Definition prio_of (msgs : gmap Z msg_hdr) (i : Z) : Z :=
  default 0 (msg_prio <$> msgs !! i).

(** Where a message of priority [prio] in slot [f] goes in a list of pending
    messages: before the first one of strictly lower priority. *)
Fixpoint enqueue (prio_of : Z → Z) (prio f : Z) (l : list Z) : list Z :=
  match l with
  | [] => [f]
  | i :: l' =>
      if prio >? prio_of i then f :: i :: l'
      else i :: enqueue prio_of prio f l'
  end.

Definition active_head (s : segment) : Z := mqh_head (seg_hdr s).
Definition free_head (s : segment) : Z := mqh_free (seg_hdr s).
Definition curmsgs (s : segment) : Z := mq_curmsgs (mqh_attr (seg_hdr s)).
Definition maxmsg (s : segment) : Z := mq_maxmsg (mqh_attr (seg_hdr s)).
Definition msgsize (s : segment) : Z := mq_msgsize (mqh_attr (seg_hdr s)).

(** [act] are the pending messages of [s], first to be received first, and
    [fr] its free slots. *)
Record msg_lists (s : segment) (act fr : list Z) : Prop := {
  ml_active : chain (seg_msgs s) (active_head s) act;
  ml_free : chain (seg_msgs s) (free_head s) fr;
  ml_nodup : NoDup (act ++ fr);               (* a slot is on one list, once *)
  ml_range : Forall in_int32 (act ++ fr)      (* offsets fit [msg_next] *)
}.

(** The message a slot holds: priority and payload. *)
Abbreviation message := (Z * list byte)%type.

Definition message_at (msgs : gmap Z msg_hdr) (i : Z) : message :=
  match msgs !! i with
  | Some m => (msg_prio m, take (Z.to_nat (msg_len m)) (msg_data m))
  | None => (0, [])
  end.

(** The queue as its users see it: a message goes before the first one of
    strictly lower priority. *)
Fixpoint put (x : message) (q : list message) : list message :=
  match q with
  | [] => [x]
  | y :: q' => if x.1 >? y.1 then x :: y :: q' else y :: put x q'
  end.

(** [mq_rep s q]: the segment [s] is a well-formed queue and holds the
    messages [q], first to be received first. *)
Definition mq_rep (s : segment) (q : list message) : Prop :=
  ∃ act fr,
    msg_lists s act fr ∧
    0 < maxmsg s ∧
    Z.of_nat (length act + length fr) = maxmsg s ∧
    curmsgs s = Z.of_nat (length act) ∧
    msgsize s < 2 ^ 31 ∧
    q = message_at (seg_msgs s) <$> act.

(** The invariant of a queue as the code maintains it. *)
Definition mq_inv (s : segment) : Prop := ∃ q, mq_rep s q.

(** The invariant of the header as the design document words it. *)
Definition header_invariant (s : segment) : Prop :=
  ∃ act fr,
    chain (seg_msgs s) (active_head s) act ∧
    chain (seg_msgs s) (free_head s) fr ∧
    0 ≤ curmsgs s ≤ maxmsg s ∧
    Z.of_nat (length fr + length act) = maxmsg s.

(** A decision procedure for [mq_inv]. *)
Definition mq_invb (s : segment) : bool :=
  let fuel := size (seg_msgs s) in
  match walk fuel (seg_msgs s) (active_head s),
        walk fuel (seg_msgs s) (free_head s) with
  | Some act, Some fr =>
      bool_decide (NoDup (act ++ fr))
      && forallb (λ i, (- 2 ^ 31 <=? i) && (i <? 2 ^ 31)) (act ++ fr)
      && (0 <? maxmsg s)
      && (Z.of_nat (length act + length fr) =? maxmsg s)
      && (curmsgs s =? Z.of_nat (length act))
      && (msgsize s <? 2 ^ 31)
  | _, _ => false
  end.

(** The link [pmsghdr->msg_next] as the world has it. *)
Definition pnext (p : pmsghdr_t) (w : world) : option Z :=
  match p with
  | P_head => Some (active_head (w_seg w))
  | P_msg j => msg_next <$> seg_msgs (w_seg w) !! j
  end.

(** Two mappings that differ in the links only. *)
Definition same_messages (msgs msgs' : gmap Z msg_hdr) : Prop :=
  ∀ k, with_next 0 <$> msgs !! k = with_next 0 <$> msgs' !! k.

(** The world a computation ends in, where there is one. *)
Definition res_world {A} (r : res A) : option world :=
  match r with
  | Ok _ w | Leave _ w | Fatal w | Blocked w | Cancelled w => Some w
  | Fault | Diverge => None
  end.

(** The computation ended by a return of the call or with the caller blocked
    or cancelled, in a world that satisfies [R] on a normal end of the
    computation and [Q] otherwise; it did not hit [api_fatal], leave the
    mapping or loop. *)
Definition ends_in {A} (Q : world → Prop) (R : A → world → Prop)
    (r : res A) : Prop :=
  match r with
  | Ok a w => R a w
  | Leave _ w | Blocked w | Cancelled w => Q w
  | Fatal _ | Fault | Diverge => False
  end.

(** The fields of the header that sending and receiving leave alone. *)
Definition same_queue_hdr (h h' : mq_hdr) : Prop :=
  mq_maxmsg (mqh_attr h') = mq_maxmsg (mqh_attr h) ∧
  mq_msgsize (mqh_attr h') = mq_msgsize (mqh_attr h) ∧
  mq_flags (mqh_attr h') = mq_flags (mqh_attr h) ∧
  mqh_nwait h' = mqh_nwait h ∧ mqh_pid h' = mqh_pid h ∧
  mqh_event h' = mqh_event h ∧ mqh_magic h' = mqh_magic h.



(** Whether a send that finds header [h] takes the notification branch, and
    the signal it then queues. *)
Definition notified (h : mq_hdr) : bool :=
  queue_empty h && negb (mqh_pid h =? 0) && (mqh_nwait h =? 0).

Definition notify_events (h : mq_hdr) : list event :=
  if notified h then
    match sigev_notify (mqh_event h) with
    | SIGEV_SIGNAL =>
        [EvSigqueue (mqh_pid h) (sigev_signo (mqh_event h))
           (sigev_value (mqh_event h))]
    | _ => []
    end
  else [].

Definition is_sigqueue (ev : event) : bool :=
  match ev with EvSigqueue _ _ _ => true | _ => false end.

(** The notifications a trace delivers. *)
Definition notifications (tr : list event) : list event :=
  List.filter is_sigqueue tr.

(** An environment that leaves the segment alone, and the oracle of a wait
    that is woken at once by the event and gets the mutex back. *)
Definition woken (env : segment → segment) : wait_oracle :=
  {| wo_cancel_event := false; wo_create_timer := None; wo_set_timer := None;
     wo_unlock := None; wo_wait1 := [WFMO_0]; wo_wait2 := [WFMO_0];
     wo_testcancel_returns := true; wo_env := env |}.

(** The oracle of a wait that ends with the timer. *)
Definition timed_out : wait_oracle :=
  {| wo_cancel_event := false; wo_create_timer := None; wo_set_timer := None;
     wo_unlock := None; wo_wait1 := [WFMO_2]; wo_wait2 := [];
     wo_testcancel_returns := true; wo_env := id |}.

(** ** Runs of sends and receives *)

Inductive op :=
| Send (ptr : list byte) (prio : Z)
| Receive (maxlen : Z).

(** One call that does not have to wait. *)
Definition run_op `{P : Platform} (o : op) : M unit :=
  match o with
  | Send ptr prio => mq_send ptr prio WAIT_OBJECT_0 [] ;;; ret tt
  | Receive maxlen => mq_receive maxlen WAIT_OBJECT_0 [] ;;; ret tt
  end.

Fixpoint run `{P : Platform} (ops : list op) : M unit :=
  match ops with
  | [] => ret tt
  | o :: ops' => run_op o ;;; run ops'
  end.

(** The number of sends and of receives in a run. *)
Fixpoint sends (ops : list op) : nat :=
  match ops with
  | [] => 0
  | Send _ _ :: ops' => S (sends ops')
  | Receive _ :: ops' => sends ops'
  end.

Fixpoint receives (ops : list op) : nat :=
  match ops with
  | [] => 0
  | Send _ _ :: ops' => receives ops'
  | Receive _ :: ops' => S (receives ops')
  end.

(** ** A platform to run the model on

    The values of 64-bit Cygwin; [sizeof_mq_hdr] is a stand-in, the model
    only needs it positive. *)
Definition cygwin64 : Platform :=
  {| MQI_MAGIC := 0x98765432;
     MQ_PRIO_MAX := 2147483647;
     O_NONBLOCK := 0x4000;
     O_CREAT := 0x200;
     O_EXCL := 0x800;
     sizeof_mq_hdr := 128;
     sizeof_long := 8;
     valid_timespec := λ ts,
       (0 <=? tv_sec ts) && (0 <=? tv_nsec ts) && (tv_nsec ts <? 1000000000) |}.

Definition all_ok : open_oracle :=
  {| oo_open := FD_OK; oo_ftruncate := None; oo_fdnew := None;
     oo_build_fh := None; oo_mqinfo_create := None; oo_fchmod := None |}.

(** The world after [mq_open (name, oflag | O_CREAT, mode, attr)] made the
    queue; the blank one where it did not. *)
Definition opened `{P : Platform} (oflag : Z) (attr : option mq_attr) : world :=
  match mq_open_create defattr oflag attr all_ok with
  | Opened w => w
  | _ => {| w_seg := {| seg_hdr := zero_hdr; seg_msgs := ∅ |};
            w_info := {| mqi_flags := 0; mqi_magic := 0 |}; w_trace := [] |}
  end.

(** ** Further definitions used by the properties *)

(** The world of a call that so far only talked to the operating system. *)
Definition quiet (w w' : world) : Prop :=
  w_seg w' = w_seg w ∧ w_info w' = w_info w.

(** The world after the notification branch of a send was passed. *)
Definition after_notify (w : world) : world :=
  let h := seg_hdr (w_seg w) in
  {| w_seg := {| seg_hdr := if notified h then set_pid 0 h else h;
                 seg_msgs := seg_msgs (w_seg w) |};
     w_info := w_info w;
     w_trace := w_trace w ++ notify_events h |}.

(** The world once the lock is held. *)
Definition locked (w : world) : world :=
  {| w_seg := w_seg w; w_info := w_info w; w_trace := w_trace w ++ [EvLock] |}.

(** The offsets of [n] slots from [index] on. *)
Fixpoint slot_offsets (n : nat) (index stride : Z) : list Z :=
  match n with
  | O => []
  | S n' => index :: slot_offsets n' (index + stride) stride
  end.

(** The attributes pass the check of [mq_open]. *)
Definition attr_ok (a : mq_attr) : Prop :=
  0 < mq_maxmsg a ≤ 32768 ∧ 0 < mq_msgsize a ≤ 1048576.

(** ** Scenarios *)

(** send (A, 1); send (B, 5); send (C, 1) and three receives. *)
Definition send3_receive3 `{P : Platform} (maxlen : Z) : M (list received) :=
  mq_send ["A"%byte] 1 WAIT_OBJECT_0 [] ;;;
  mq_send ["B"%byte] 5 WAIT_OBJECT_0 [] ;;;
  mq_send ["C"%byte] 1 WAIT_OBJECT_0 [] ;;;
  a <- mq_receive maxlen WAIT_OBJECT_0 [] ;;
  b <- mq_receive maxlen WAIT_OBJECT_0 [] ;;
  c <- mq_receive maxlen WAIT_OBJECT_0 [] ;;
  ret [a; b; c].

Definition attr3 : mq_attr :=
  {| mq_flags := 0; mq_maxmsg := 3; mq_msgsize := 4; mq_curmsgs := 0 |}.

(** A queue of three short messages, opened blocking and non-blocking. *)
Definition blocking_queue : world :=
  opened (P := cygwin64) (@O_CREAT cygwin64) (Some attr3).

Definition nonblocking_queue : world :=
  opened (P := cygwin64) (Z.lor (@O_CREAT cygwin64) (@O_NONBLOCK cygwin64))
    (Some attr3).

(** Attributes that pass the check of [mq_open] and need more than 2 GiB. *)
Definition big_attr : mq_attr :=
  {| mq_flags := 0; mq_maxmsg := 2049; mq_msgsize := 1048576;
     mq_curmsgs := 0 |}.

Definition with_hdr (h : mq_hdr) (w : world) : world :=
  {| w_seg := {| seg_hdr := h; seg_msgs := seg_msgs (w_seg w) |};
     w_info := w_info w; w_trace := w_trace w |}.

(** The empty queue with a registration for a signal and one receiver
    counted as waiting. *)
Definition registered_hdr (nwait : Z) (notify : sigev_notify_t) (h : mq_hdr)
  : mq_hdr :=
  set_event {| sigev_notify := notify; sigev_signo := 10; sigev_value := 7 |}
    (set_pid 42 (set_nwait nwait h)).


(** A header that counts a message where the list of messages is empty. *)
Definition miscounted_queue : world :=
  with_hdr (set_curmsgs 1 (seg_hdr (w_seg blocking_queue))) blocking_queue.

(** A deadline with a negative nanosecond part. *)
Definition bad_deadline : timespec := {| tv_sec := 0; tv_nsec := -1 |}.
Definition good_deadline : timespec := {| tv_sec := 1; tv_nsec := 0 |}.

Module SemSpec.
Import Sem.

(** The flush of [_sem_close] went through. *)
Definition flush_ok (o : close_oracle) : Prop :=
  co_lock o = 0 ∧ co_lseek o ≠ -1 ∧ co_write o = sizeof_sf.

Definition sample_sf : sem_finfo := {| value := 3; hash := 77; luid := 5 |}.

(** The lock on the file cannot be taken. *)
Definition lock_fails : close_oracle :=
  {| co_getinternal := Some sample_sf; co_lock := -1; co_lseek := 0;
     co_write := sizeof_sf; co_semaphore_close := 0 |}.

Definition flush_goes : close_oracle :=
  {| co_getinternal := Some sample_sf; co_lock := 0; co_lseek := 0;
     co_write := sizeof_sf; co_semaphore_close := 0 |}.

End SemSpec.

(** The same queue with no receiver waiting. *)
Definition registered_queue : world :=
  with_hdr (registered_hdr 0 SIGEV_SIGNAL (seg_hdr (w_seg blocking_queue)))
    blocking_queue.

(** What another opener does to the segment while the receiver waits: it
    sends one message. *)
Definition sender_env (s : segment) : segment :=
  match mq_send (P := cygwin64) ["A"%byte] 1 WAIT_OBJECT_0 []
          {| w_seg := s; w_info := w_info blocking_queue; w_trace := [] |}
  with
  | Ok _ w => w_seg w
  | _ => s
  end.

(** The queue after three sends. *)
Definition full_queue : world :=
  match run (P := cygwin64)
          [Send ["A"%byte] 1; Send ["B"%byte] 5; Send ["C"%byte] 1]
          nonblocking_queue
  with
  | Ok _ w => w
  | _ => nonblocking_queue
  end.

(** A decision procedure for [header_invariant]. *)
Definition header_invb (s : segment) : bool :=
  let fuel := size (seg_msgs s) in
  match walk fuel (seg_msgs s) (active_head s),
        walk fuel (seg_msgs s) (free_head s) with
  | Some act, Some fr =>
      (0 <=? curmsgs s) && (curmsgs s <=? maxmsg s)
      && (Z.of_nat (length fr + length act) =? maxmsg s)
  | _, _ => false
  end.

(** The attributes fail the check of [mq_open]. *)
Definition attr_rejected (a : mq_attr) : Prop :=
  mq_maxmsg a ≤ 0 ∨ 32768 < mq_maxmsg a ∨
  mq_msgsize a ≤ 0 ∨ 1048576 < mq_msgsize a.

(** Every call [mq_open] relies on goes through. *)
Definition calls_ok (o : open_oracle) : Prop :=
  oo_open o = FD_OK ∧ oo_ftruncate o = None ∧ oo_fdnew o = None ∧
  oo_build_fh o = None ∧ oo_mqinfo_create o = None ∧ oo_fchmod o = None.

(** A value of the global [defattr] outside the checked ranges. *)
Definition wide_attr : mq_attr :=
  {| mq_flags := 0; mq_maxmsg := 40000; mq_msgsize := 8; mq_curmsgs := 0 |}.

(** The attributes [mq_setattr] is asked to set. *)
Definition want_nonblock : mq_attr :=
  {| mq_flags := @O_NONBLOCK cygwin64; mq_maxmsg := 99; mq_msgsize := 99;
     mq_curmsgs := 99 |}.

(** The invariant of the header with the live count tied to the list of
    pending messages and a capacity of at least 1. *)
Definition counted_invariant (s : segment) : Prop :=
  ∃ act fr,
    chain (seg_msgs s) (active_head s) act ∧
    chain (seg_msgs s) (free_head s) fr ∧
    0 < maxmsg s ∧
    Z.of_nat (length fr + length act) = maxmsg s ∧
    curmsgs s = Z.of_nat (length act).

(** The other openers keep it. *)
Definition env_counted (o : wait_oracle) : Prop :=
  ∀ s, counted_invariant s → counted_invariant (wo_env o s).

(** The computation did not end in [api_fatal]. *)
Definition not_fatal {A} (r : res A) : Prop := ∀ w, r ≠ Fatal w.

(** * The rest of posix_ipc.cc

    The names of the objects ([check_path] and the functions that only resolve
    a name and hand it to one system call), the descriptors of a process with
    [get_mqinfo] and [mq_close], and what is needed to
    state properties of whole calls: runs that keep what they receive, and
    counts over the trace of a call. *)

(** ** Constants of the file system

    Again from headers that are not part of the sources at hand. *)

Class Files := {
  NAME_MAX : Z;                     (* limits.h *)
  NAME_MAX_sem : 4 ≤ NAME_MAX;      (* NAME_MAX - strlen ("sem."), computed
                                       in size_t, does not wrap *)
  ENOENT : errno;
  EACCES : errno;
  ENAMETOOLONG : errno;
  O_ACCMODE : Z;                    (* fcntl.h *)
  O_RDONLY : Z;
  O_RDWR : Z;
  O_TRUNC : Z;
  O_CLOEXEC : Z
}.

(** ** Names

    A C string is given by its bytes before the terminating NUL. *)

Inductive ipc_type_t := shmem | mqueue | semaphore.

(** An entry of [ipc_names]; the description only feeds the messages. *)
Record ipc_name := {
  prefix : list byte;
  prefix_len : Z
}.

Definition dev_shm : list byte :=
  ["/"; "d"; "e"; "v"; "/"; "s"; "h"; "m"]%byte.

Definition dev_mqueue : list byte :=
  ["/"; "d"; "e"; "v"; "/"; "m"; "q"; "u"; "e"; "u"; "e"]%byte.

Definition ipc_names (type : ipc_type_t) : ipc_name :=
  match type with
  | shmem => {| prefix := dev_shm; prefix_len := 10 |}
  | mqueue => {| prefix := dev_mqueue; prefix_len := 13 |}
  | semaphore => {| prefix := dev_shm; prefix_len := 14 |}
  end.

(** "sem." *)
Definition sem_dot : list byte := ["s"; "e"; "m"; "."]%byte.

(** What [path_conv path (ipc_names[type].prefix, PC_SYM_NOFOLLOW)] finds. *)
Record path_conv := {
  pc_error : Z;
  pc_exists : bool;
  pc_isdir : bool
}.

(** [strchr ("/\\", c) != NULL], for a [c] other than NUL. *)
Definition is_slash (c : byte) : bool :=
  Byte.eqb c "/"%byte || Byte.eqb c "\"%byte.

Inductive check_t :=
| Checked (res_name : list byte)   (* true, and what [res_name] holds *)
| Refused (e : errno)              (* false, with errno = e *)
| Overread.                        (* [name[1]] is read behind the NUL *)

Section Names.
Context `{P : Platform} `{F : Files}.

(** [check_path (res_name, type, name, len)]; [name] is [None] for a null
    pointer.  For the empty string [name[0]] is the NUL, which [strchr] finds
    at the end of "/\\": the first test lets it through, and the next one
    reads [name[1]]. *)
Definition check_path (path : path_conv) (type : ipc_type_t)
    (name : option (list byte)) (len : Z) : check_t :=
  if negb (pc_error path =? 0) || negb (pc_exists path)
     || negb (pc_isdir path)
  then Refused EINVAL else
  (* Name must not be empty and has to start with a slash (or backslash) *)
  match name with
  | None => Refused EINVAL
  | Some [] => Overread
  | Some (c :: rest) =>
      if negb (is_slash c) then Refused EINVAL else
      (* Name must not consist of just a single slash (or backslash) *)
      match rest with
      | [] => Refused ENOENT
      | _ :: _ =>
          (* Name must not contain slashes after the leading one *)
          if existsb is_slash rest then Refused EACCES else
          (* Length must be less than or equal to NAME_MAX, or NAME_MAX - 4
             in case of semaphores, due to the leading "sem." prefix *)
          if len >? NAME_MAX - (match type with
                                | semaphore => Z.of_nat (length sem_dot)
                                | _ => 0
                                end)
          then Refused ENAMETOOLONG else
          Checked (prefix (ipc_names type) ++ ["/"%byte]
                   ++ (match type with semaphore => sem_dot | _ => [] end)
                   ++ rest)
      end
  end.

(** The size of the array the callers of [check_path] pass for [res_name]:
    [char shmname[ipc_names[shmem].prefix_len + len]] and the like. *)
Definition name_buffer (type : ipc_type_t) (len : Z) : Z :=
  prefix_len (ipc_names type) + len.

(** The system call a function ends with. *)
Inductive syscall :=
| SYS_open (path : list byte) (oflag mode : Z)
| SYS_unlink (path : list byte).

(** What a function does that resolves a name and hands it to one system
    call. *)
Inductive named_t :=
| Fails (e : errno)                 (* -1 with errno = e, no call made *)
| Calls (c : syscall) (ret : Z)     (* the call made and the value returned *)
| Undefined.                        (* [check_path] read behind the name *)

Definition with_path (path : path_conv) (type : ipc_type_t) (name : list byte)
    (k : list byte → named_t) : named_t :=
  match check_path path type (Some name) (Z.of_nat (length name)) with
  | Checked res_name => k res_name
  | Refused e => Fails e
  | Overread => Undefined
  end.

(** [shm_open (name, oflag, mode)]; [r] is what [open] returns. *)
Definition shm_open (path : path_conv) (name : list byte) (oflag mode : Z)
    (r : Z) : named_t :=
  with_path path shmem name (λ shmname,
    (* Check for valid flags. *)
    if (negb (Z.land oflag O_ACCMODE =? O_RDONLY)
        && negb (Z.land oflag O_ACCMODE =? O_RDWR))
       || negb (Z.land oflag
                  (Z.lnot (Z.lor O_ACCMODE
                             (Z.lor O_CREAT (Z.lor O_EXCL O_TRUNC)))) =? 0)
    then Fails EINVAL
    else Calls (SYS_open shmname (Z.lor oflag O_CLOEXEC) (Z.land mode 511)) r).

(** [shm_unlink (name)]; [r] is what [unlink] returns. *)
Definition shm_unlink (path : path_conv) (name : list byte) (r : Z)
  : named_t :=
  with_path path shmem name (λ shmname, Calls (SYS_unlink shmname) r).

Definition mq_unlink (path : path_conv) (name : list byte) (r : Z)
  : named_t :=
  with_path path mqueue name (λ mqname,
    Calls (SYS_unlink mqname) (if r =? -1 then -1 else 0)).

Definition sem_unlink (path : path_conv) (name : list byte) (r : Z)
  : named_t :=
  with_path path semaphore name (λ semname,
    Calls (SYS_unlink semname) (if r =? -1 then -1 else 0)).

End Names.

(** The values of 64-bit Cygwin. *)
Definition cygwin_files : Files :=
  {| NAME_MAX := 255;
     NAME_MAX_sem := ltac:(lia);
     ENOENT := ERAW 2;
     EACCES := ERAW 13;
     ENAMETOOLONG := ERAW 91;
     O_ACCMODE := 3;
     O_RDONLY := 0;
     O_RDWR := 2;
     O_TRUNC := 0x400;
     O_CLOEXEC := 0x40000 |}.

Definition dir_there : path_conv :=
  {| pc_error := 0; pc_exists := true; pc_isdir := true |}.

(** "/q" *)
Definition slash_q : list byte := ["/"; "q"]%byte.

(** "\q" and "/sem.q" *)
Definition backslash_q : list byte := ["\"; "q"]%byte.

Definition slash_sem_q : list byte := "/"%byte :: sem_dot ++ ["q"%byte].

(** ** Descriptors and closing a queue *)

(** What an open descriptor of the process stands for: a message queue, with
    the [mq_info] that its [fhandler_mqueue] holds, or a file of another
    kind. *)
Inductive fhandler :=
| fh_mqueue (info : mq_info)
| fh_other.

(** A process that has the queue mapped: its table of descriptors, the
    segment, and the trace. *)
Record process := {
  p_fds : gmap Z fhandler;
  p_seg : segment;
  p_trace : list event      (* oldest first *)
}.

(** [cygheap_fdget fd ((int) mqd)]: the entry of [mqd], where it is open;
    [fd >= 0] is [Some]. *)
Definition cygheap_fdget (mqd : Z) (p : process) : option fhandler :=
  p_fds p !! mqd.

(** [get_mqinfo (fd)]: NULL for a descriptor that is not open and, after
    [set_errno (EINVAL)], for one that [is_mqueue ()] does not know. *)
Definition get_mqinfo (fd : option fhandler) : option mq_info :=
  match fd with
  | Some (fh_mqueue info) => Some info      (* fh->mqinfo () *)
  | Some fh_other => None
  | None => None
  end.

(** The exits of a call on a descriptor, as those of [res], with the process
    as the call leaves it. *)
Inductive pres (A : Type) : Type :=
| POk (a : A) (p : process)
| PLeave (e : errno) (p : process)
| PFatal (p : process)
| PFault
| PBlocked (p : process)
| PCancelled (p : process)
| PDiverge.

Arguments POk {A} a p.
Arguments PLeave {A} e p.
Arguments PFatal {A} p.
Arguments PFault {A}.
Arguments PBlocked {A} p.
Arguments PCancelled {A} p.
Arguments PDiverge {A}.

(** The world a call finds through a descriptor that holds [info]. *)
Definition world_of (p : process) (info : mq_info) : world :=
  {| w_seg := p_seg p; w_info := info; w_trace := p_trace p |}.

(** The process after a call through [mqd] that ended in the world [w]: the
    [mq_info] lives in the [fhandler] of the descriptor. *)
Definition process_of (mqd : Z) (p : process) (w : world) : process :=
  {| p_fds := <[mqd := fh_mqueue (w_info w)]> (p_fds p);
     p_seg := w_seg w;
     p_trace := w_trace w |}.

(** Modelled from the spec: [fd->isclosed (true); fd->close ();
    fd.release ()], whose code is not in the sources at hand.  They give the
    descriptor up ("release this descriptor's references to the mapped
    segment and primitives; does not remove the storage or invalidate other
    descriptors"): its entry leaves the table, the segment stays. *)
Definition release (mqd : Z) (p : process) : process :=
  {| p_fds := delete mqd (p_fds p);
     p_seg := p_seg p;
     p_trace := p_trace p |}.

Section Close.
Context `{P : Platform}.

(** A call that starts with [cygheap_fdget fd ((int) mqd); mqinfo =
    get_mqinfo (fd);] and goes on as [m] does, which begins by reading
    [mqinfo->mqi_magic]: with [mqinfo] NULL that read faults, and [__except
    (EBADF)] makes the call return -1 with errno EBADF. *)
Definition through {A} (mqd : Z) (m : M A) (p : process) : pres A :=
  match get_mqinfo (cygheap_fdget mqd p) with
  | None => PLeave EBADF p
  | Some info =>
      match m (world_of p info) with
      | Ok a w => POk a (process_of mqd p w)
      | Leave e w => PLeave e (process_of mqd p w)
      | Fatal w => PFatal (process_of mqd p w)
      | Fault => PFault
      | Blocked w => PBlocked (process_of mqd p w)
      | Cancelled w => PCancelled (process_of mqd p w)
      | Diverge => PDiverge
      end
  end.

(** [mq_close (mqd)] by the process [pid]; [lock] is what the wait for the
    mutex in [mq_notify] reports.  [mq_notify (mqd, NULL)] looks the
    descriptor up again; it returns 0 or leaves with its errno, which is then
    that of [mq_close]. *)
Definition mq_close (mqd pid : Z) (lock : cygwait_t) (p : process) : pres Z :=
  match get_mqinfo (cygheap_fdget mqd p) with
  | None => PLeave EBADF p
  | Some info =>
      if negb (mqi_magic info =? MQI_MAGIC) then PLeave EBADF p else
      match through mqd (mq_notify None pid false lock) p with
      | POk _ p' =>                       (* unregister calling process *)
          POk 0 (release mqd p')
      | r => r
      end
  end.

End Close.


(** A process whose one descriptor [mqd] is open on the queue of [w]. *)
Definition process_with (mqd : Z) (w : world) : process :=
  {| p_fds := {[ mqd := fh_mqueue (w_info w) ]};
     p_seg := w_seg w;
     p_trace := w_trace w |}.

(** The lock of the queue was acquired. *)
Definition acquired (lock : cygwait_t) : Prop :=
  lock = WAIT_OBJECT_0 ∨ lock = WAIT_ABANDONED_0.

(** A registration for a signal. *)
Definition signal_10 : sigevent :=
  {| sigev_notify := SIGEV_SIGNAL; sigev_signo := 10; sigev_value := 7 |}.

(** ** Runs that keep what they receive *)

Section Drain.
Context `{P : Platform}.

(** The messages of [xs] sent one after the other, each by a [mq_send] that
    gets the lock at once and has nobody to wake it. *)
Fixpoint send_all (xs : list message) : M unit :=
  match xs with
  | [] => ret tt
  | x :: xs' => mq_send x.2 x.1 WAIT_OBJECT_0 [] ;;; send_all xs'
  end.

(** [n] calls of [mq_receive] like that, and what they hand back. *)
Fixpoint receive_n (n : nat) (maxlen : Z) : M (list received) :=
  match n with
  | O => ret []
  | S n' =>
      out <- mq_receive maxlen WAIT_OBJECT_0 [] ;;
      outs <- receive_n n' maxlen ;;
      ret (out :: outs)
  end.

End Drain.

Definition message_of (out : received) : message :=
  (rcv_prio out, rcv_data out).

(** Highest priority first. *)
Fixpoint by_priority (q : list message) : Prop :=
  match q with
  | [] => True
  | x :: q' => Forall (λ y, y.1 ≤ x.1) q' ∧ by_priority q'
  end.

(** The queue after the messages of [xs] were put into [q] in turn. *)
Definition puts (q xs : list message) : list message :=
  foldl (λ q x, put x q) q xs.

(** The messages of priority [p], in the order of the list. *)
Definition of_priority (p : Z) (q : list message) : list message :=
  filter (λ y, y.1 = p) q.

(** A message that [_mq_send] takes on a queue of message size [size]. *)
Definition sendable `{P : Platform} (size : Z) (x : message) : Prop :=
  0 ≤ x.1 < MQ_PRIO_MAX ∧ Z.of_nat (length x.2) ≤ size.

(** A, B and C as the design document sends them, and a fourth one. *)
Definition abc : list message :=
  [(1, ["A"%byte]); (5, ["B"%byte]); (1, ["C"%byte])].

(** A deadline the wait accepts, or none. *)
Definition deadline_ok `{P : Platform} (abstime : option timespec) : Prop :=
  from_option (λ ts, valid_timespec ts = true) True abstime.

(** The segment a receive that has to wait leaves to the other openers: one
    more receiver is counted as waiting. *)
Definition waiting (s : segment) : segment :=
  {| seg_hdr := set_nwait (mqh_nwait (seg_hdr s) + 1) (seg_hdr s);
     seg_msgs := seg_msgs s |}.

(** What [mq_open] is asked to make: the attributes of the caller are in the
    checked range, the default ones are at least usable. *)
Definition creatable (dflt : mq_attr) (attr : option mq_attr) : Prop :=
  match attr with
  | Some a => attr_ok a
  | None => 0 < mq_maxmsg dflt ∧ 0 ≤ mq_msgsize dflt < 2 ^ 31
  end.

(** The wake-ups in a trace. *)
Definition is_setevent (ev : event) : bool :=
  match ev with EvSetEvent _ => true | _ => false end.

Definition wakeups (tr : list event) : list event :=
  List.filter is_setevent tr.

(** ** Counts over the trace of a call *)

Definition count_events (μ : event → Z) (tr : list event) : Z :=
  foldr (λ ev n, μ ev + n) 0 tr.

(** Acquisitions of the mutex less calls of ReleaseMutex. *)
Definition lock_delta (ev : event) : Z :=
  match ev with EvLock => 1 | EvReleaseMutex => -1 | _ => 0 end.

Definition lock_depth (tr : list event) : Z := count_events lock_delta tr.

(** Timers made less timers closed.  The trace shows the call of
    NtCreateTimer, not whether it made a timer; NtSetTimer is called on every
    timer that was made, at once, and on nothing else, so it is counted. *)
Definition timer_delta (ev : event) : Z :=
  match ev with EvSetTimer => 1 | EvCloseTimer => -1 | _ => 0 end.

Definition timers_open (tr : list event) : Z := count_events timer_delta tr.

(** How far a computation that starts at the count [d0] moves the count, by
    the way it returns: [S (inl a)] holds of the count where it ends
    normally with [a], [S (inr e)] where it leaves with [e]. *)
Definition moves_from {A} (μ : event → Z) (d0 : Z)
    (S : A + errno → Z → Prop) (m : M A) : Prop :=
  ∀ w, match m w with
       | Ok a w' =>
           S (inl a)
             (d0 + count_events μ (w_trace w') - count_events μ (w_trace w))
       | Leave e w' =>
           S (inr e)
             (d0 + count_events μ (w_trace w') - count_events μ (w_trace w))
       | _ => True
       end.

(** A computation that adds nothing to the trace and does not leave. *)
Definition silent {A} (m : M A) : Prop :=
  ∀ w, match m w with
       | Ok _ w' => w_trace w' = w_trace w
       | Leave _ _ => False
       | _ => True
       end.

(** The wait gets as far as its timer set. *)
Definition timer_armed `{P : Platform} (abstime : option timespec)
    (o : wait_oracle) : bool :=
  match abstime with
  | Some ts =>
      valid_timespec ts && bool_decide (wo_create_timer o = None)
      && bool_decide (wo_set_timer o = None)
  | None => false
  end.

(** ReleaseMutex does not fail. *)
Definition unlocks (o : wait_oracle) : Prop := wo_unlock o = None.

(** ** The length a slot records *)





(** ** More scenarios *)

(** The queue of three messages after A, B and C were sent to it. *)
Definition abc_queue : world :=
  match send_all (P := cygwin64) abc blocking_queue with
  | Ok _ w => w
  | _ => blocking_queue
  end.

(** What the other openers do while a sender waits on [abc_queue]: one of
    them receives a message; or they receive all three. *)
Definition receiver_takes (n : nat) (s : segment) : segment :=
  match receive_n (P := cygwin64) n 4
          {| w_seg := s; w_info := w_info blocking_queue; w_trace := [] |}
  with
  | Ok _ w => w_seg w
  | _ => s
  end.

(** [abc_queue], full, after process 42 has registered for [signal_10]. *)
Definition registered_full_queue : world :=
  match mq_notify (P := cygwin64) (Some signal_10) 42 false WAIT_OBJECT_0
          abc_queue
  with
  | Ok _ w => w
  | _ => abc_queue
  end.

(** A deadline in good order, as an option. *)
Definition some_deadline : option timespec := Some good_deadline.

(** * Properties *)

#[local] Arguments insert : simpl never.

Tactic Notation "proj" :=
  cbv beta iota zeta delta [w_seg w_info w_trace seg_hdr seg_msgs].
Tactic Notation "proj" "in" hyp(H) :=
  cbv beta iota zeta delta [w_seg w_info w_trace seg_hdr seg_msgs] in H.

Ltac mrun :=
  unfold modify_hdr, ipc_cond_signal, walk_fuel;
  unfold bind, ret, leave, api_fatal, get_hdr, get_info, put_hdr, put_info,
    put_seg, emit, load, modify;
  proj.

(** ** Machine integers *)

Lemma to_int32_id z : in_int32 z → to_int32 z = z.
Proof.
  unfold in_int32, to_int32. intros Hz.
  rewrite Z.mod_small by lia. lia.
Qed.

Lemma in_int32_0 : in_int32 0.
Proof. unfold in_int32. lia. Qed.

(** ** Chains *)

Lemma chain_unique msgs l1 : ∀ i l2, chain msgs i l1 → chain msgs i l2 → l1 = l2.
Proof.
  induction l1 as [|a l1 IH]; intros i [|b l2]; simpl; try done.
  - intros -> (? & ? & _). congruence.
  - intros (? & ? & _) ->. congruence.
  - intros (-> & _ & m & Hm & Hc) (<- & _ & m' & Hm' & Hc').
    rewrite Hm in Hm'. injection Hm' as <-. f_equal. eauto.
Qed.

Lemma chain_frame msgs msgs' l :
  ∀ i, (∀ k, k ∈ l → msgs' !! k = msgs !! k) → chain msgs i l → chain msgs' i l.
Proof.
  induction l as [|a l IH]; simpl; intros i Hsame; [done|].
  intros (-> & Ha & m & Hm & Hc). split_and!; [done..|].
  exists m. split.
  - rewrite Hsame; [done|]. left.
  - apply IH; [|done]. intros k Hk. apply Hsame. by right.
Qed.

Lemma chain_insert msgs l k m i :
  k ∉ l → chain msgs i l → chain (<[k := m]> msgs) i l.
Proof.
  intros Hk. apply chain_frame. intros j Hj.
  apply lookup_insert_ne. intros ->. done.
Qed.

Lemma chain_lookup msgs l i k :
  chain msgs i l → k ∈ l → k ≠ 0 ∧ is_Some (msgs !! k).
Proof.
  revert i. induction l as [|a l IH]; simpl; intros i Hc Hk.
  - by apply elem_of_nil in Hk.
  - destruct Hc as (-> & Ha & m & Hm & Hc).
    apply elem_of_cons in Hk as [->|Hk]; eauto.
Qed.

Lemma chain_length msgs l i :
  chain msgs i l → NoDup l → (length l ≤ size msgs)%nat.
Proof.
  intros Hc Hnd.
  rewrite <- (size_list_to_set (C := gset Z) l Hnd), <- (size_dom (D := gset Z) msgs).
  apply subseteq_size. intros k Hk. apply elem_of_list_to_set in Hk.
  apply elem_of_dom. by eapply chain_lookup.
Qed.

Lemma walk_chain fuel : ∀ msgs i l, walk fuel msgs i = Some l → chain msgs i l.
Proof.
  induction fuel as [|fuel IH]; intros msgs i l; simpl.
  - destruct (Z.eqb_spec i 0); [|done]. by intros [= <-].
  - destruct (Z.eqb_spec i 0) as [->|Hi]; [by intros [= <-]|].
    destruct (msgs !! i) as [m|] eqn:Hm; [|done].
    destruct (walk fuel msgs (msg_next m)) as [l'|] eqn:Hw; [|done].
    intros [= <-]. simpl. split_and!; [done..|]. exists m. eauto.
Qed.

Lemma chain_walk msgs l : ∀ fuel i,
  chain msgs i l → (length l ≤ fuel)%nat → walk fuel msgs i = Some l.
Proof.
  induction l as [|a l IH]; intros fuel i; simpl.
  - intros -> _. by destruct fuel.
  - intros (-> & Ha & m & Hm & Hc) Hlen.
    destruct fuel as [|fuel]; [lia|]. simpl.
    destruct (Z.eqb_spec a 0); [done|]. rewrite Hm.
    rewrite (IH fuel (msg_next m)); [done|done|lia].
Qed.

Lemma mq_invb_sound s : mq_invb s = true → mq_inv s.
Proof.
  unfold mq_invb.
  destruct (walk _ _ (active_head s)) as [act|] eqn:Ha; [|done].
  destruct (walk _ _ (free_head s)) as [fr|] eqn:Hf; [|done].
  rewrite !andb_true_iff. intros [[[[[Hnd Hr] Hm] Hl] Hc] Hs].
  exists (message_at (seg_msgs s) <$> act), act, fr.
  apply bool_decide_eq_true in Hnd.
  assert (Forall in_int32 (act ++ fr)) as Hrange.
  { apply Forall_forall. intros x Hx.
    rewrite forallb_forall in Hr. specialize (Hr x).
    rewrite <- list_elem_of_In in Hr. specialize (Hr Hx).
    apply andb_true_iff in Hr as [?%Z.leb_le ?%Z.ltb_lt].
    unfold in_int32. lia. }
  apply Z.ltb_lt in Hm, Hs. apply Z.eqb_eq in Hl, Hc.
  split; [split; eauto using walk_chain|].
  repeat split; lia.
Qed.

Lemma mq_inv_header_invariant s : mq_inv s → header_invariant s.
Proof.
  intros (q & act & fr & [Ha Hf _ _] & Hm & Hl & Hc & _).
  exists act, fr. split_and!; try done; lia.
Qed.

Section LinkMsg.
Context `{P : Platform}.

#[local] Arguments lookup : simpl never.

Lemma same_messages_refl msgs : same_messages msgs msgs.
Proof. done. Qed.

Lemma same_messages_trans m1 m2 m3 :
  same_messages m1 m2 → same_messages m2 m3 → same_messages m1 m3.
Proof. intros H1 H2 k. by rewrite H1. Qed.

Lemma same_messages_relink msgs k m v :
  msgs !! k = Some m → same_messages msgs (<[k := with_next v m]> msgs).
Proof.
  intros Hm j. destruct (decide (k = j)) as [<-|Hne].
  - by rewrite lookup_insert_eq, Hm.
  - by rewrite lookup_insert_ne.
Qed.

Lemma same_messages_message_at msgs msgs' k :
  same_messages msgs msgs' → message_at msgs' k = message_at msgs k.
Proof.
  intros Hs. specialize (Hs k). unfold message_at.
  destruct (msgs !! k) as [m|], (msgs' !! k) as [m'|]; simpl in Hs; try done.
  injection Hs as H1 H2 H3. by rewrite H1, H2, H3.
Qed.

Lemma same_messages_prio_of msgs msgs' k :
  same_messages msgs msgs' → prio_of msgs' k = prio_of msgs k.
Proof.
  intros Hs. specialize (Hs k). unfold prio_of.
  destruct (msgs !! k) as [m|], (msgs' !! k) as [m'|]; simpl in Hs; try done.
  injection Hs as H1 H2 H3. done.
Qed.

Lemma link_msg_ok prio f :
  ∀ rest fuel index p w,
    chain (seg_msgs (w_seg w)) index rest →
    NoDup rest → f ∉ rest → f ≠ 0 → in_int32 f → Forall in_int32 rest →
    is_Some (seg_msgs (w_seg w) !! f) →
    (length rest < fuel)%nat →
    pnext p w = Some index →
    (∀ j, p = P_msg j → (j ∉ rest) ∧ j ≠ f) →
    ∃ w' idx',
      link_msg fuel prio f index p w = Ok tt w' ∧
      w_info w' = w_info w ∧ w_trace w' = w_trace w ∧
      pnext p w' = Some idx' ∧
      chain (seg_msgs (w_seg w')) idx'
        (enqueue (prio_of (seg_msgs (w_seg w))) prio f rest) ∧
      (∀ k, k ≠ f → k ∉ rest → p ≠ P_msg k →
            seg_msgs (w_seg w') !! k = seg_msgs (w_seg w) !! k) ∧
      same_messages (seg_msgs (w_seg w)) (seg_msgs (w_seg w')) ∧
      seg_hdr (w_seg w') =
        match p with
        | P_head => set_head idx' (seg_hdr (w_seg w))
        | P_msg _ => seg_hdr (w_seg w)
        end.
Proof.
  induction rest as [|i rest IH];
    intros fuel index p [[h msgs] info tr]; simpl;
    intros Hc Hnd Hf Hf0 Hfr Hr [mf Hmf] Hfuel Hp Hpj.
  - (* the end of the list *)
    subst index. destruct fuel as [|fuel]; [lia|]. simpl.
    destruct p as [|j]; simpl in *.
    + unfold bind, modify_hdr, get_hdr, put_hdr, modify; simpl. rewrite Hmf.
      eexists _, f. split_and!; try done; simpl.
      * eexists. rewrite lookup_insert_eq. split; [done|].
        simpl. by rewrite to_int32_id by apply in_int32_0.
      * intros k Hk _ _. by rewrite lookup_insert_ne.
      * by apply same_messages_relink.
    + destruct (Hpj j eq_refl) as [_ Hjf].
      destruct (msgs !! j) as [mj|] eqn:Hmj; [|done].
      unfold bind, modify; simpl. rewrite Hmj. simpl.
      rewrite lookup_insert_ne by done. rewrite Hmf.
      eexists _, f. split_and!; try done; simpl.
      * rewrite lookup_insert_ne by done. rewrite lookup_insert_eq. simpl.
        by rewrite to_int32_id.
      * eexists. rewrite lookup_insert_eq. split; [done|].
        simpl. by rewrite to_int32_id by apply in_int32_0.
      * intros k Hk _ Hkj. rewrite !lookup_insert_ne; try done; congruence.
      * eapply same_messages_trans; [by apply same_messages_relink|].
        apply same_messages_relink. by rewrite lookup_insert_ne.
  - destruct Hc as (-> & Hi0 & mi & Hmi & Hc).
    apply NoDup_cons in Hnd as [Hi Hnd].
    apply not_elem_of_cons in Hf as [Hfi Hf].
    apply Forall_cons in Hr as [Hir Hr].
    destruct fuel as [|fuel]; [simpl in Hfuel; lia|]. simpl in Hfuel. simpl.
    destruct (Z.eqb_spec i 0); [done|].
    unfold bind at 1, load at 1; simpl. rewrite Hmi.
    unfold prio_of at 1. rewrite Hmi. simpl.
    destruct (prio >? msg_prio mi) eqn:Hprio.
    + (* the new message goes before slot i *)
      destruct p as [|j]; simpl in *.
      * unfold bind, modify_hdr, get_hdr, put_hdr, modify; simpl. rewrite Hmf.
        eexists _, f. split_and!; try done; simpl.
        -- eexists. rewrite lookup_insert_eq.
           split; [done|]. simpl. rewrite to_int32_id by done.
           split_and!; [done..|]. exists mi.
           rewrite lookup_insert_ne by done. split; [done|].
           by apply chain_insert.
        -- intros k Hk _ _. by rewrite lookup_insert_ne.
        -- by apply same_messages_relink.
      * destruct (Hpj j eq_refl) as [Hjr Hjf].
        apply not_elem_of_cons in Hjr as [Hji Hjr].
        destruct (msgs !! j) as [mj|] eqn:Hmj; [|done].
        unfold bind, modify; simpl. rewrite Hmf. simpl.
        rewrite lookup_insert_ne by done. rewrite Hmj.
        eexists _, f. split_and!; try done; simpl.
        -- rewrite lookup_insert_eq. simpl. by rewrite to_int32_id.
        -- eexists.
           rewrite lookup_insert_ne by done. rewrite lookup_insert_eq.
           split; [done|]. simpl. rewrite to_int32_id by done.
           split_and!; [done..|]. exists mi.
           rewrite !lookup_insert_ne by done. split; [done|].
           apply chain_insert; [done|]. by apply chain_insert.
        -- intros k Hk _ Hkj. rewrite !lookup_insert_ne; try done; congruence.
        -- eapply same_messages_trans;
             [by apply (same_messages_relink _ f)|].
           apply same_messages_relink. by rewrite lookup_insert_ne.
    + (* go on behind slot i *)
      destruct (IH fuel (msg_next mi) (P_msg i)
                  {| w_seg := {| seg_hdr := h; seg_msgs := msgs |};
                     w_info := info; w_trace := tr |})
        as (w' & idx' & Hrun & Hinfo & Htr & Hnext & Hch & Hfrm & Hsame & Hhdr);
        simpl; eauto; try lia.
      { by rewrite Hmi. }
      { intros j [= <-]. done. }
      simpl in *. rewrite Hrun.
      destruct (seg_msgs (w_seg w') !! i) as [mi'|] eqn:Hmi'; [|done].
      simpl in Hnext. injection Hnext as Hnext.
      assert (pnext p w' = Some i) as Hp'.
      { destruct p as [|j]; simpl in *.
        - unfold active_head. rewrite Hhdr. done.
        - destruct (Hpj j eq_refl) as [Hjr Hjf].
          apply not_elem_of_cons in Hjr as [Hji Hjr].
          rewrite Hfrm; [done|done|done|congruence]. }
      exists w', i. split_and!; try done.
      * exists mi'. split; [done|]. by rewrite Hnext.
      * intros k Hk Hkr Hkp. apply not_elem_of_cons in Hkr as [Hki Hkr].
        apply Hfrm; [done|done|congruence].
      * rewrite Hhdr. destruct p; [|done].
        simpl in Hp. injection Hp as Hp. unfold active_head in Hp. simpl in Hp.
        destruct h; simpl in *. unfold set_head. simpl. by rewrite Hp.
Qed.

End LinkMsg.

Lemma enqueue_perm pf prio f l : enqueue pf prio f l ≡ₚ f :: l.
Proof.
  induction l as [|i l IH]; simpl; [done|].
  destruct (prio >? pf i); [done|]. rewrite IH. apply Permutation_swap.
Qed.

Lemma enqueue_put (at' : Z → message) pf prio f x l :
  at' f = x → x.1 = prio → (∀ i, i ∈ l → pf i = (at' i).1) →
  at' <$> enqueue pf prio f l = put x (at' <$> l).
Proof.
  intros Hf Hx. induction l as [|i l IH]; intros Hpf; simpl.
  - by rewrite Hf.
  - rewrite (Hpf i) by left. rewrite Hx.
    destruct (prio >? (at' i).1); simpl; [by rewrite Hf|].
    f_equal. apply IH. intros j Hj. apply Hpf. by right.
Qed.

(** A message is put behind the messages of higher or equal priority and
    before the first one of lower priority. *)
Lemma put_spec x q :
  ∃ pre post,
    q = pre ++ post ∧ put x q = pre ++ x :: post ∧
    Forall (λ y, x.1 ≤ y.1) pre ∧
    match post with [] => True | y :: _ => y.1 < x.1 end.
Proof.
  induction q as [|y q (pre & post & -> & Hput & Hpre & Hpost)]; simpl.
  - by exists [], [].
  - destruct (x.1 >? y.1) eqn:Hxy.
    + exists [], (y :: pre ++ post). split_and!; try done. simpl. lia.
    + exists (y :: pre), post. split_and!; try done.
      * simpl. by rewrite Hput.
      * constructor; [lia|done].
Qed.

Lemma put_length x q : length (put x q) = S (length q).
Proof.
  induction q as [|y q IH]; simpl; [done|].
  destruct (x.1 >? y.1); simpl; by rewrite ?IH.
Qed.

Section Enqueue.
Context `{P : Platform}.

Lemma mq_rep_length s q : mq_rep s q → curmsgs s = Z.of_nat (length q).
Proof.
  intros (act & fr & _ & _ & _ & Hc & _ & ->). by rewrite length_fmap.
Qed.

Lemma send_enqueue_ok ptr prio w q :
  mq_rep (w_seg w) q →
  curmsgs (w_seg w) < maxmsg (w_seg w) →
  Z.of_nat (length ptr) ≤ msgsize (w_seg w) →
  ∃ w',
    send_enqueue ptr prio w = Ok 0 w' ∧
    mq_rep (w_seg w') (put (prio, ptr) q) ∧
    w_info w' = w_info w ∧
    w_trace w' = w_trace w ++
      (if curmsgs (w_seg w) =? 0 then [EvSetEvent mqi_waitrecv] else []) ∧
    same_queue_hdr (seg_hdr (w_seg w)) (seg_hdr (w_seg w')).
Proof.
  destruct w as [[h msgs] info tr]. unfold curmsgs, maxmsg, msgsize. simpl.
  intros (act & fr & [Ha Hf Hnd Hr] & Hmax & Hlen & Hcur & Hsz & ->) Hroom Hptr.
  unfold active_head, free_head, curmsgs, maxmsg, msgsize in *. simpl in *.
  destruct fr as [|f fr]; [simpl in Hlen; lia|].
  destruct Hf as (Hfree & Hf0 & mf & Hmf & Hf).
  apply NoDup_app in Hnd as (Hnda & Hdisj & Hndf).
  apply NoDup_cons in Hndf as [Hffr Hndf].
  apply Forall_app in Hr as [Hra Hrf]. apply Forall_cons in Hrf as [Hfr Hrf].
  assert (f ∉ act) as Hfa. { intros Hin. apply (Hdisj f Hin). left. }
  set (nm := with_data ptr (with_len (Z.of_nat (length ptr)) (with_prio prio mf))).
  set (msgs3 := <[f := nm]> msgs).
  set (h3 := set_free (msg_next mf) h).
  destruct (link_msg_ok prio f act (S (size msgs3)) (mqh_head h) P_head
              {| w_seg := {| seg_hdr := h3; seg_msgs := msgs3 |};
                 w_info := info; w_trace := tr |})
    as ([[h4 msgs4] info4 tr4] & idx & Hrun & Hinfo & Htr & Hnext & Hch
        & Hfrm & Hsame & Hhdr);
    proj; try done.
  { by apply chain_insert. }
  { unfold msgs3. rewrite lookup_insert_eq. eauto. }
  { assert (length act ≤ size msgs3)%nat; [|lia].
    eapply chain_length; [|done]. by apply chain_insert. }
  proj in Hinfo. proj in Htr. proj in Hch. proj in Hfrm. proj in Hsame.
  proj in Hhdr. subst info4 tr4 h4.
  unfold send_enqueue. mrun.
  rewrite Hfree. destruct (Z.eqb_spec f 0); [done|].
  rewrite Hmf. proj. rewrite lookup_insert_eq. proj.
  rewrite insert_insert_eq, lookup_insert_eq. proj.
  rewrite insert_insert_eq, lookup_insert_eq. proj.
  fold nm. fold msgs3. change (msg_next nm) with (msg_next mf). fold h3.
  change (mqh_head h3) with (mqh_head h). rewrite Hrun. proj.
  unfold queue_empty. proj.
  change (mq_curmsgs (mqh_attr (set_head idx h3)))
    with (mq_curmsgs (mqh_attr h)).
  assert (∀ k, k ≠ f → k ∉ act → msgs4 !! k = msgs !! k) as Hfrm'.
  { intros k Hk Hka. rewrite Hfrm by done. unfold msgs3.
    by rewrite lookup_insert_ne. }
  assert (mq_rep
            {| seg_hdr := set_curmsgs (mq_curmsgs (mqh_attr h) + 1)
                            (set_head idx h3);
               seg_msgs := msgs4 |}
            (put (prio, ptr) (message_at msgs <$> act))) as Hrep.
  { exists (enqueue (prio_of msgs3) prio f act), fr.
    unfold maxmsg, curmsgs, msgsize. proj.
    rewrite (Permutation_length (enqueue_perm _ _ _ _)).
    split_and!; [|done|simpl in *; lia|simpl; lia|done|].
    - split; unfold active_head, free_head; proj.
      + done.
      + eapply chain_frame; [|done]. intros k Hk. apply Hfrm'.
        * intros ->. done.
        * intros Hka. apply (Hdisj k Hka). by right.
      + rewrite enqueue_perm. simpl. apply NoDup_cons. split.
        * intros [?|?]%elem_of_app; done.
        * apply NoDup_app. split_and!; [done| |done].
          intros k Hka Hkf. apply (Hdisj k Hka). by right.
      + rewrite enqueue_perm. simpl. apply Forall_cons. split; [done|].
        by apply Forall_app.
    - assert (message_at msgs4 f = (prio, ptr)) as Hatf.
      { rewrite (same_messages_message_at msgs3) by done.
        unfold message_at, msgs3. rewrite lookup_insert_eq. simpl.
        f_equal. rewrite to_int32_id by (unfold in_int32; lia).
        rewrite Nat2Z.id. by rewrite take_app_length. }
      rewrite (enqueue_put _ _ _ _ _ _ Hatf eq_refl).
      + f_equal. apply list_fmap_ext. intros _ k Hk%list_elem_of_lookup_2.
        rewrite (same_messages_message_at msgs3 msgs4) by done.
        unfold message_at, msgs3.
        rewrite lookup_insert_ne; [done|]. intros Heq. apply Hfa. by rewrite Heq.
      + intros k Hk. rewrite (same_messages_message_at msgs3 msgs4) by done.
        unfold prio_of, message_at. by destruct (msgs3 !! k). }
  destruct (mq_curmsgs (mqh_attr h) =? 0); proj;
    (eexists; split; [reflexivity|]); proj;
    rewrite ?app_nil_r; (split_and!; [done|done|done|by destruct h]).
Qed.

Lemma chain_head_range msgs i l :
  chain msgs i l → Forall in_int32 l → in_int32 i.
Proof.
  destruct l as [|a l]; simpl.
  - intros -> _. apply in_int32_0.
  - intros (-> & _) [Ha _]%Forall_cons. done.
Qed.

Lemma receive_dequeue_ok w x q :
  mq_rep (w_seg w) (x :: q) →
  ∃ out w',
    receive_dequeue w = Ok out w' ∧
    rcv_prio out = x.1 ∧ rcv_data out = x.2 ∧
    mq_rep (w_seg w') q ∧
    w_info w' = w_info w ∧
    w_trace w' = w_trace w ++
      (if curmsgs (w_seg w) =? maxmsg (w_seg w)
       then [EvSetEvent mqi_waitsend] else []) ∧
    same_queue_hdr (seg_hdr (w_seg w)) (seg_hdr (w_seg w')).
Proof.
  destruct w as [[h msgs] info tr]. unfold curmsgs, maxmsg, msgsize. proj.
  intros (act & fr & [Ha Hf Hnd Hr] & Hmax & Hlen & Hcur & Hsz & Hq).
  unfold active_head, free_head, curmsgs, maxmsg, msgsize in *.
  proj in Ha. proj in Hf. proj in Hmax. proj in Hlen. proj in Hcur.
  proj in Hsz. proj in Hq.
  destruct act as [|i act]; [done|]. simpl in Hq. injection Hq as -> ->.
  destruct Ha as (Hhead & Hi0 & mi & Hmi & Ha).
  change ((i :: act) ++ fr) with (i :: (act ++ fr)) in Hnd, Hr.
  apply NoDup_cons in Hnd as [Hi Hnd].
  apply Forall_cons in Hr as [Hir Hr].
  apply not_elem_of_app in Hi as [Hia Hif].
  assert (in_int32 (mqh_free h)) as Hfree.
  { eapply chain_head_range; [done|]. by apply Forall_app in Hr as [_ ?]. }
  unfold receive_dequeue. mrun.
  rewrite Hhead. destruct (Z.eqb_spec i 0); [done|].
  rewrite Hmi. proj.
  assert (mq_rep
            {| seg_hdr := set_curmsgs (mq_curmsgs (mqh_attr h) - 1)
                            (set_free i (set_head (msg_next mi) h));
               seg_msgs := <[i := with_next (mqh_free h) mi]> msgs |}
            (message_at msgs <$> act)) as Hrep.
  { exists act, (i :: fr). unfold maxmsg, curmsgs, msgsize. proj.
    split_and!; [|done|simpl in *; lia|simpl in *; lia|done|].
    - split; unfold active_head, free_head; proj.
      + by apply chain_insert.
      + simpl. split_and!; [done..|]. eexists. rewrite lookup_insert_eq.
        split; [done|]. simpl. rewrite to_int32_id by done.
        by apply chain_insert.
      + rewrite <- Permutation_middle. apply NoDup_cons. split; [|done].
        by apply not_elem_of_app.
      + rewrite <- Permutation_middle. by apply Forall_cons.
    - apply list_fmap_ext. intros _ k Hk%list_elem_of_lookup_2.
      unfold message_at. rewrite lookup_insert_ne; [done|].
      intros Heq. apply Hia. by rewrite Heq. }
  unfold message_at. rewrite Hmi.
  change (mq_curmsgs (mqh_attr (set_free i (set_head (msg_next mi) h))))
    with (mq_curmsgs (mqh_attr h)).
  change (mq_maxmsg (mqh_attr (set_free i (set_head (msg_next mi) h))))
    with (mq_maxmsg (mqh_attr h)).
  destruct (mq_curmsgs (mqh_attr h) =? mq_maxmsg (mqh_attr h)); proj;
    (eexists _, _; split; [reflexivity|]); proj;
    rewrite ?app_nil_r; (split_and!; [done|done|done|done|done|by destruct h]).
Qed.

End Enqueue.

Lemma ends_in_bind {A B} (Q : world → Prop) (R1 : A → world → Prop)
    (R : B → world → Prop) (m : M A) (k : A → M B) w :
  ends_in Q R1 (m w) →
  (∀ a w1, R1 a w1 → ends_in Q R (k a w1)) →
  ends_in Q R (bind m k w).
Proof. unfold bind. destruct (m w); simpl; eauto. Qed.

Lemma ends_in_weaken {A} (Q Q' : world → Prop) (R R' : A → world → Prop) r :
  ends_in Q R r → (∀ w, Q w → Q' w) → (∀ a w, R a w → R' a w) →
  ends_in Q' R' r.
Proof. destruct r; simpl; eauto. Qed.



Lemma mq_rep_ext s s' q :
  seg_msgs s' = seg_msgs s → active_head s' = active_head s →
  free_head s' = free_head s → curmsgs s' = curmsgs s →
  maxmsg s' = maxmsg s → msgsize s' = msgsize s →
  mq_rep s q → mq_rep s' q.
Proof.
  intros Hm Ha Hf Hc Hx Hs (act & fr & [? ? ? ?] & ? & ? & ? & ? & ?).
  exists act, fr. rewrite Hm, Hc, Hx, Hs. split_and!; try done.
  split; rewrite ?Hm, ?Ha, ?Hf; done.
Qed.

Section Waits.
Context `{P : Platform}.

Lemma restart1_quiet c t rs w :
  ends_in (quiet w) (λ _, quiet w) (restart1 c t rs w).
Proof.
  revert w. induction rs as [|r rs IH]; intros w; simpl; [done|].
  unfold bind at 1, emit at 1.
  set (w1 := {| w_seg := w_seg w; w_info := w_info w;
                w_trace := w_trace w ++ [EvWait (Some c)] |}).
  specialize (IH w1).
  destruct r as [|[]| | | |]; simpl; try done.
  destruct (negb (t =? 2)); simpl; done.
Qed.

Lemma restart2_quiet t b rs w :
  ends_in (quiet w) (λ _, quiet w) (restart2 t b rs w).
Proof.
  revert w. induction rs as [|r rs IH]; intros w; simpl; [done|].
  unfold bind at 1, emit at 1.
  set (w1 := {| w_seg := w_seg w; w_info := w_info w;
                w_trace := w_trace w ++ [EvWait None] |}).
  specialize (IH w1).
  destruct r as [|[]| | | |]; simpl; try done.
  destruct (negb (t =? 2) && negb b); simpl; done.
Qed.

(** A wait ends with the segment as it was or as the environment left it. *)
Lemma timedwait_ends evt abstime o w :
  let Q := λ w', (w_seg w' = w_seg w ∨ w_seg w' = wo_env o (w_seg w)) ∧
                 w_info w' = w_info w in
  ends_in Q (λ _, Q) (ipc_cond_timedwait evt abstime o w).
Proof.
  intros Q. unfold ipc_cond_timedwait.
  eapply (ends_in_bind _ (λ _ w1, quiet w w1)).
  { unfold arm_timer. destruct abstime as [ts|]; [|done].
    destruct (valid_timespec ts); simpl; [|done].
    unfold bind, emit, ret; simpl.
    destruct (wo_create_timer o); simpl; [done|].
    destruct (wo_set_timer o); simpl; done. }
  intros [e|timer_idx] w1 [Hs1 Hi1]; [by split; [left|]|].
  unfold ipc_mutex_unlock.
  unfold bind at 1 2 3, emit at 1 2, ret at 1. simpl.
  destruct (wo_unlock o); [by split; [left|]|].
  unfold bind at 1, put_seg at 1. simpl.
  set (w2 := {| w_seg := wo_env o (w_seg w1); w_info := w_info w1;
                w_trace := (w_trace w1 ++ [EvResetEvent evt]) ++
                           [EvReleaseMutex] |}).
  assert (∀ w', quiet w2 w' → Q w') as HQ.
  { intros w' [Hs Hi]. split; [right|]; simpl in *; congruence. }
  eapply (ends_in_bind _ (λ _ w3, quiet w2 w3)).
  { eapply ends_in_weaken; [apply restart1_quiet|done..]. }
  intros r1 w3 Hq3.
  eapply (ends_in_bind _ (λ _ w4, quiet w2 w4)).
  { destruct r1; [done|].
    eapply ends_in_weaken; [apply restart2_quiet|..].
    - intros w' [Hs Hi]. apply HQ. destruct Hq3. split; congruence.
    - intros _ w' [Hs Hi]. destruct Hq3. split; congruence. }
  intros r w4 Hq4.
  unfold bind, emit, ret.
  destruct (negb (timer_idx =? 0)); simpl;
    [destruct (errno_eqb_ETIMEDOUT r); simpl|]; by apply HQ.
Qed.


End Waits.

Lemma bind_Ok {A B} (m : M A) (k : A → M B) w a w1 :
  m w = Ok a w1 → bind m k w = k a w1.
Proof. unfold bind. by intros ->. Qed.

Section SendSteps.
Context `{P : Platform}.

Lemma notify_registered_run w :
  queue_empty (seg_hdr (w_seg w)) = true →
  notify_registered w = Ok tt (after_notify w).
Proof.
  destruct w as [[h msgs] info tr]. proj. intros He.
  unfold notify_registered, after_notify, notify_events, notified. mrun.
  rewrite He. simpl.
  destruct (negb (mqh_pid h =? 0) && (mqh_nwait h =? 0)); simpl.
  - destruct (sigev_notify (mqh_event h)); proj; by rewrite ?app_nil_r.
  - by rewrite app_nil_r.
Qed.

Lemma after_notify_rep w q :
  mq_rep (w_seg w) q → mq_rep (w_seg (after_notify w)) q.
Proof.
  apply mq_rep_ext; unfold after_notify, active_head, free_head, curmsgs,
    maxmsg, msgsize; simpl; by destruct (notified (seg_hdr (w_seg w))).
Qed.

Lemma after_notify_full w :
  queue_empty (seg_hdr (w_seg w)) = false → after_notify w =
    {| w_seg := w_seg w; w_info := w_info w; w_trace := w_trace w ++ [] |}.
Proof.
  intros He. unfold after_notify, notify_events, notified. rewrite He. simpl.
  by destruct (w_seg w).
Qed.

(** A send that finds room does not wait. *)
Lemma send_admit_room abstime waits w :
  curmsgs (w_seg w) < maxmsg (w_seg w) →
  send_admit abstime waits w = Ok tt (after_notify w).
Proof.
  intros Hroom. unfold send_admit.
  unfold bind at 1, get_hdr at 1.
  destruct (queue_empty (seg_hdr (w_seg w))) eqn:He.
  - by apply notify_registered_run.
  - unfold queue_full. unfold curmsgs, maxmsg in Hroom.
    destruct (Z.geb_spec (mq_curmsgs (mqh_attr (seg_hdr (w_seg w))))
                (mq_maxmsg (mqh_attr (seg_hdr (w_seg w))))); [lia|].
    rewrite after_notify_full by done. rewrite app_nil_r.
    by destruct w.
Qed.


(** What a send does once it holds the lock and finds room. *)
Lemma mq_send_locked_room ptr prio abstime waits w q :
  mq_rep (w_seg w) q →
  Z.of_nat (length ptr) ≤ msgsize (w_seg w) →
  curmsgs (w_seg w) < maxmsg (w_seg w) →
  ∃ w',
    mq_send_locked ptr prio abstime waits w = Ok 0 w' ∧
    mq_rep (w_seg w') (put (prio, ptr) q) ∧
    w_info w' = w_info w ∧
    w_trace w' = w_trace w ++ notify_events (seg_hdr (w_seg w)) ++
      (if curmsgs (w_seg w) =? 0 then [EvSetEvent mqi_waitrecv] else []) ∧
    same_queue_hdr (seg_hdr (w_seg (after_notify w))) (seg_hdr (w_seg w')).
Proof.
  intros Hq Hlen Hroom.
  destruct (send_enqueue_ok ptr prio (after_notify w) q)
    as (w' & Hrun & Hq' & Hinfo & Htr & Hhdr).
  { by apply after_notify_rep. }
  { unfold after_notify, curmsgs, maxmsg in *; simpl. by destruct (notified (seg_hdr (w_seg w))). }
  { unfold after_notify, msgsize in *; simpl. by destruct (notified (seg_hdr (w_seg w))). }
  exists w'. split_and!; try done.
  - unfold mq_send_locked. unfold bind at 1, get_hdr at 1.
    unfold msgsize in Hlen.
    destruct (Z.gtb_spec (Z.of_nat (length ptr))
                (mq_msgsize (mqh_attr (seg_hdr (w_seg w))))); [lia|].
    by rewrite (bind_Ok _ _ _ _ _ (send_admit_room abstime waits w Hroom)).
  - rewrite Htr. unfold after_notify at 1. simpl. rewrite <- app_assoc.
    do 2 f_equal. unfold after_notify, curmsgs. simpl. by destruct (notified (seg_hdr (w_seg w))).
Qed.




End SendSteps.

Section ReceiveSteps.
Context `{P : Platform}.


(** A receive that finds a message does not wait. *)
Lemma receive_admit_some abstime waits w :
  curmsgs (w_seg w) ≠ 0 → receive_admit abstime waits w = Ok tt w.
Proof.
  intros Hc. unfold receive_admit, bind, get_hdr, queue_empty.
  unfold curmsgs in Hc.
  by destruct (Z.eqb_spec (mq_curmsgs (mqh_attr (seg_hdr (w_seg w)))) 0).
Qed.


(** What a receive does once it holds the lock and finds a message. *)
Lemma mq_receive_locked_some maxlen abstime waits w x q :
  mq_rep (w_seg w) (x :: q) →
  msgsize (w_seg w) ≤ maxlen →
  ∃ out w',
    mq_receive_locked maxlen abstime waits w = Ok out w' ∧
    rcv_prio out = x.1 ∧ rcv_data out = x.2 ∧
    mq_rep (w_seg w') q ∧
    w_info w' = w_info w ∧
    w_trace w' = w_trace w ++
      (if curmsgs (w_seg w) =? maxmsg (w_seg w)
       then [EvSetEvent mqi_waitsend] else []) ∧
    same_queue_hdr (seg_hdr (w_seg w)) (seg_hdr (w_seg w')).
Proof.
  intros Hq Hlen.
  destruct (receive_dequeue_ok w x q Hq)
    as (out & w' & Hrun & Hp & Hd & Hq' & Hi & Htr & Hhdr).
  exists out, w'. split_and!; try done.
  unfold mq_receive_locked. unfold bind at 1, get_hdr at 1.
  unfold msgsize in Hlen.
  destruct (Z.ltb_spec maxlen (mq_msgsize (mqh_attr (seg_hdr (w_seg w)))));
    [lia|].
  rewrite (bind_Ok _ _ _ tt w); [done|].
  apply receive_admit_some. apply mq_rep_length in Hq. simpl in Hq. lia.
Qed.



(** A send that goes through at once: the result, the queue and the trace. *)
Lemma mq_send_ok ptr prio abstime waits w q :
  mq_rep (w_seg w) q →
  mqi_magic (w_info w) = MQI_MAGIC →
  prio < MQ_PRIO_MAX →
  Z.of_nat (length ptr) ≤ msgsize (w_seg w) →
  curmsgs (w_seg w) < maxmsg (w_seg w) →
  ∃ w',
    _mq_send ptr prio abstime WAIT_OBJECT_0 waits w = Ok 0 w' ∧
    mq_rep (w_seg w') (put (prio, ptr) q) ∧
    w_info w' = w_info w ∧
    w_trace w' = w_trace w ++ [EvLock] ++ notify_events (seg_hdr (w_seg w)) ++
      (if curmsgs (w_seg w) =? 0 then [EvSetEvent mqi_waitrecv] else []) ++
      [EvReleaseMutex] ∧
    same_queue_hdr (seg_hdr (w_seg (after_notify w))) (seg_hdr (w_seg w')).
Proof.
  intros Hq Hmagic Hprio Hlen Hroom.
  destruct (mq_send_locked_room ptr prio abstime waits (locked w) q)
    as (w' & Hrun & Hq' & Hi & Htr & Hhdr); try done.
  unfold _mq_send. unfold bind at 1, get_info at 1. rewrite Hmagic.
  rewrite Z.eqb_refl. simpl.
  destruct (Z.geb_spec prio MQ_PRIO_MAX); [lia|].
  unfold bind, ipc_mutex_lock, emit, ret, unlock_after. fold (locked w).
  rewrite Hrun. unfold ipc_mutex_unlock, bind, emit, ret.
  eexists. split; [reflexivity|]. simpl.
  split_and!; try done.
  rewrite Htr. simpl. by rewrite <- !app_assoc.
Qed.

(** A receive that goes through at once. *)
Lemma mq_receive_ok maxlen abstime waits w x q :
  mq_rep (w_seg w) (x :: q) →
  mqi_magic (w_info w) = MQI_MAGIC →
  msgsize (w_seg w) ≤ maxlen →
  ∃ out w',
    _mq_receive maxlen abstime WAIT_OBJECT_0 waits w = Ok out w' ∧
    rcv_prio out = x.1 ∧ rcv_data out = x.2 ∧
    mq_rep (w_seg w') q ∧
    w_info w' = w_info w ∧
    same_queue_hdr (seg_hdr (w_seg w)) (seg_hdr (w_seg w')).
Proof.
  intros Hq Hmagic Hlen.
  destruct (mq_receive_locked_some maxlen abstime waits (locked w) x q)
    as (out & w' & Hrun & Hp & Hd & Hq' & Hi & Htr & Hhdr); try done.
  unfold _mq_receive. unfold bind at 1, get_info at 1. rewrite Hmagic.
  rewrite Z.eqb_refl. simpl.
  unfold bind, ipc_mutex_lock, emit, ret, unlock_after. fold (locked w).
  rewrite Hrun. unfold ipc_mutex_unlock, bind, emit, ret.
  eexists _, _. split; [reflexivity|]. simpl. done.
Qed.

End ReceiveSteps.

Lemma elem_of_slot_offsets n : ∀ index stride k,
  0 < stride → k ∈ slot_offsets n index stride →
  index ≤ k ≤ index + (Z.of_nat n - 1) * stride.
Proof.
  induction n as [|n IH]; intros index stride k Hs; simpl.
  - by intros ?%elem_of_nil.
  - intros [->|Hk]%elem_of_cons; [nia|].
    apply IH in Hk; [|done]. nia.
Qed.

Lemma slot_offsets_NoDup n : ∀ index stride,
  0 < stride → NoDup (slot_offsets n index stride).
Proof.
  induction n as [|n IH]; intros index stride Hs; simpl; [constructor|].
  apply NoDup_cons. split; [|by apply IH].
  intros Hk%elem_of_slot_offsets; [|done]. lia.
Qed.

Lemma slot_offsets_length n index stride :
  length (slot_offsets n index stride) = n.
Proof. revert index. induction n; intros; simpl; by rewrite ?IHn. Qed.

Lemma elem_of_slot_offsets_iff n : ∀ index stride k,
  k ∈ slot_offsets n index stride ↔
  ∃ j, 0 ≤ j < Z.of_nat n ∧ k = index + j * stride.
Proof.
  induction n as [|n IH]; intros index stride k; simpl.
  - split; [by intros ?%elem_of_nil|]. intros (j & ? & _). lia.
  - rewrite elem_of_cons, IH. split.
    + intros [->|(j & Hj & ->)]; [exists 0|exists (j + 1)]; split; lia.
    + intros (j & Hj & ->). destruct (decide (j = 0)) as [->|Hne].
      * left. lia.
      * right. exists (j - 1). split; lia.
Qed.

Lemma zero_slots_lookup n : ∀ index stride blank k,
  zero_slots n index stride blank !! k =
    if bool_decide (k ∈ slot_offsets n index stride) then Some blank else None.
Proof.
  induction n as [|n IH]; intros index stride blank k;
    cbn [zero_slots slot_offsets].
  - rewrite lookup_empty. case_bool_decide as Hk; [by apply elem_of_nil in Hk|done].
  - destruct (decide (index = k)) as [<-|Hne].
    + rewrite lookup_insert_eq.
      case_bool_decide as Hk; [done|]. exfalso. apply Hk. left.
    + rewrite lookup_insert_ne by done. rewrite IH.
      destruct (decide (k ∈ slot_offsets n (index + stride) stride))
        as [Hin|Hout].
      * rewrite bool_decide_eq_true_2 by done.
        by rewrite bool_decide_eq_true_2 by by right.
      * rewrite bool_decide_eq_false_2 by done.
        rewrite bool_decide_eq_false_2; [done|].
        intros [Hk|Hk]%elem_of_cons; [by apply Hne|done].
Qed.

(** The loop of [mq_open] links the slots it runs over, each to the next
    offset as [msg_next] holds it. *)
Lemma link_free_run n : ∀ index stride w,
  0 < stride →
  (∀ k, k ∈ slot_offsets n index stride → is_Some (seg_msgs (w_seg w) !! k)) →
  ∃ msgs',
    link_free n index stride w =
      Ok (index + Z.of_nat n * stride)
         {| w_seg := {| seg_hdr := seg_hdr (w_seg w); seg_msgs := msgs' |};
            w_info := w_info w; w_trace := w_trace w |} ∧
    (∀ k, k ∉ slot_offsets n index stride →
          msgs' !! k = seg_msgs (w_seg w) !! k) ∧
    (∀ k, k ∈ slot_offsets n index stride →
          msgs' !! k = with_next (k + stride) <$> seg_msgs (w_seg w) !! k).
Proof.
  induction n as [|n IH]; intros index stride [[h msgs] info tr] Hs Hdom;
    proj; proj in Hdom.
  - exists msgs. simpl. split_and!.
    + f_equal. lia.
    + done.
    + by intros k ?%elem_of_nil.
  - simpl. destruct (Hdom index) as [m Hm]; [left|].
    unfold bind at 1, modify at 1. proj. rewrite Hm.
    destruct (IH (index + stride) stride
                {| w_seg := {| seg_hdr := h;
                               seg_msgs := <[index := with_next (index + stride) m]> msgs |};
                   w_info := info; w_trace := tr |} Hs)
      as (msgs' & Hrun & Hout & Hin).
    { proj. intros k Hk. rewrite lookup_insert_ne.
      - apply Hdom. by right.
      - apply elem_of_slot_offsets in Hk; [|done]. lia. }
    proj in Hrun. proj in Hout. proj in Hin.
    exists msgs'. rewrite Hrun. split_and!.
    + f_equal. rewrite Nat2Z.inj_succ. ring.
    + intros k [Hk1 Hk2]%not_elem_of_cons. rewrite Hout by done.
      by rewrite lookup_insert_ne.
    + intros k [->|Hk]%elem_of_cons.
      * rewrite Hout.
        -- by rewrite lookup_insert_eq, Hm.
        -- intros Hk%elem_of_slot_offsets; [|done]. lia.
      * rewrite Hin by done. rewrite lookup_insert_ne; [done|].
        apply elem_of_slot_offsets in Hk; [|done]. lia.
Qed.

Lemma chain_slot_offsets msgs stride n : ∀ index,
  0 < index → 0 < stride →
  (∀ k, k ∈ slot_offsets (S n) index stride →
        ∃ m, msgs !! k = Some m ∧
             msg_next m = if bool_decide (k = index + Z.of_nat n * stride)
                          then 0 else k + stride) →
  chain msgs index (slot_offsets (S n) index stride).
Proof.
  induction n as [|n IH]; intros index Hi Hs Hk.
  - destruct (Hk index) as (m & Hm & Hnext); [left|].
    rewrite bool_decide_eq_true_2 in Hnext by lia.
    simpl. split_and!; [done|lia|]. by exists m.
  - destruct (Hk index) as (m & Hm & Hnext); [left|].
    rewrite bool_decide_eq_false_2 in Hnext by lia.
    change (slot_offsets (S (S n)) index stride)
      with (index :: slot_offsets (S n) (index + stride) stride).
    cbn [chain]. split_and!; [done|lia|].
    exists m. split; [done|]. rewrite Hnext. apply IH; [lia|done|].
    intros k Hin. destruct (Hk k) as (m' & Hm' & Hnext'); [by right|].
    exists m'. split; [done|]. rewrite Hnext'.
    repeat case_bool_decide; try done; lia.
Qed.

Section InitRun.
Context `{P : Platform}.

(** The segment [init_queue] leaves. *)
Lemma init_queue_run attr nonblock :
  0 < mq_maxmsg attr → 0 < slot_size attr →
  let n := Z.to_nat (mq_maxmsg attr) in
  let last := sizeof_mq_hdr + (mq_maxmsg attr - 1) * slot_size attr in
  ∃ w,
    init_queue attr (mqinfo_create attr nonblock) = Ok tt w ∧
    w_info w = {| mqi_flags := nonblock; mqi_magic := MQI_MAGIC |} ∧
    w_trace w = [] ∧
    mqh_attr (seg_hdr (w_seg w)) =
      {| mq_flags := 0; mq_maxmsg := mq_maxmsg attr;
         mq_msgsize := mq_msgsize attr; mq_curmsgs := 0 |} ∧
    mqh_head (seg_hdr (w_seg w)) = 0 ∧
    mqh_free (seg_hdr (w_seg w)) = sizeof_mq_hdr ∧
    mqh_nwait (seg_hdr (w_seg w)) = 0 ∧
    mqh_pid (seg_hdr (w_seg w)) = 0 ∧
    mqh_magic (seg_hdr (w_seg w)) = MQI_MAGIC ∧
    (∀ k, k ∉ slot_offsets n sizeof_mq_hdr (slot_size attr) →
          seg_msgs (w_seg w) !! k = None) ∧
    (∀ k, k ∈ slot_offsets n sizeof_mq_hdr (slot_size attr) →
          ∃ m, seg_msgs (w_seg w) !! k = Some m ∧
               msg_next m = if bool_decide (k = last) then 0
                            else to_int32 (k + slot_size attr)).
Proof.
  intros Hmax Hs n last. unfold init_queue, mqinfo_create.
  unfold bind at 1, put_hdr at 1. proj.
  set (h := {| mqh_attr := _; mqh_head := _ |}).
  set (msgs0 := zero_slots _ _ _ _).
  set (blank := zero_msg (MSGSIZE (mq_msgsize attr))).
  set (w0 := {| w_seg := {| seg_hdr := h; seg_msgs := msgs0 |};
                w_info := _; w_trace := _ |}).
  change (sizeof_msg_hdr + MSGSIZE (mq_msgsize attr)) with (slot_size attr).
  assert (Z.to_nat (mq_maxmsg attr) = S (Z.to_nat (mq_maxmsg attr - 1)))
    as Hn by lia.
  set (n1 := Z.to_nat (mq_maxmsg attr - 1)) in *.
  assert (∀ k, k ∈ slot_offsets n1 sizeof_mq_hdr (slot_size attr) ↔
               k ∈ slot_offsets n sizeof_mq_hdr (slot_size attr) ∧ k ≠ last)
    as Hsub.
  { intros k. rewrite !elem_of_slot_offsets_iff. unfold last, n, n1. split.
    - intros (j & Hj & ->). split; [exists j; split; lia|nia].
    - intros [(j & Hj & ->) Hne]. exists j. split; [|done].
      destruct (decide (j = mq_maxmsg attr - 1)) as [->|]; [done|lia]. }
  assert (last ∈ slot_offsets n sizeof_mq_hdr (slot_size attr)
          ∧ last ∉ slot_offsets n1 sizeof_mq_hdr (slot_size attr)) as [Hl Hl1].
  { split.
    - apply elem_of_slot_offsets_iff. exists (mq_maxmsg attr - 1).
      unfold n. split; [lia|done].
    - rewrite Hsub. by intros [_ ?]. }
  destruct (link_free_run n1 sizeof_mq_hdr (slot_size attr) w0 Hs)
    as (msgs1 & Hrun & Hout & Hin).
  { intros k Hk. apply Hsub in Hk as [Hk _]. unfold w0, msgs0. proj.
    rewrite zero_slots_lookup. fold n. by rewrite bool_decide_eq_true_2. }
  unfold w0 in Hrun, Hout, Hin. proj in Hrun. proj in Hout. proj in Hin.
  fold w0. rewrite (bind_Ok _ _ _ _ _ Hrun).
  replace (sizeof_mq_hdr + Z.of_nat n1 * slot_size attr) with last
    by (unfold last, n1; lia).
  unfold modify. proj. rewrite (Hout _ Hl1).
  unfold msgs0. rewrite zero_slots_lookup. fold n blank.
  rewrite bool_decide_eq_true_2 by done.
  eexists. split; [reflexivity|]. proj. split_and!; try done.
  - intros k Hk. rewrite lookup_insert_ne by (intros ->; done).
    rewrite Hout by (intros Hk1; by apply Hsub in Hk1 as [? _]).
    unfold msgs0. rewrite zero_slots_lookup. fold n.
    by rewrite bool_decide_eq_false_2.
  - intros k Hk. destruct (decide (k = last)) as [->|Hne].
    + rewrite lookup_insert_eq. eexists. split; [done|].
      by rewrite bool_decide_eq_true_2.
    + rewrite lookup_insert_ne by done.
      rewrite bool_decide_eq_false_2 by done.
      assert (k ∈ slot_offsets n1 sizeof_mq_hdr (slot_size attr)) as Hk1
        by by apply Hsub.
      rewrite (Hin _ Hk1). unfold msgs0. rewrite zero_slots_lookup. fold n.
      rewrite bool_decide_eq_true_2 by done. eexists. split; [done|]. done.
Qed.

End InitRun.

Section InitRep.
Context `{P : Platform}.

(** A queue whose file stays below 2 GiB is initialized to an empty,
    well-formed queue. *)
Lemma init_queue_rep attr nonblock :
  0 < mq_maxmsg attr → mq_msgsize attr < 2 ^ 31 →
  0 < sizeof_mq_hdr → 0 < slot_size attr → file_size attr ≤ 2 ^ 31 →
  ∃ w,
    init_queue attr (mqinfo_create attr nonblock) = Ok tt w ∧
    mq_rep (w_seg w) [] ∧
    w_info w = {| mqi_flags := nonblock; mqi_magic := MQI_MAGIC |} ∧
    w_trace w = [] ∧
    mqh_attr (seg_hdr (w_seg w)) =
      {| mq_flags := 0; mq_maxmsg := mq_maxmsg attr;
         mq_msgsize := mq_msgsize attr; mq_curmsgs := 0 |} ∧
    mqh_nwait (seg_hdr (w_seg w)) = 0 ∧
    mqh_pid (seg_hdr (w_seg w)) = 0.
Proof.
  intros Hmax Hsz Hh Hs Hfit.
  destruct (init_queue_run attr nonblock Hmax Hs)
    as (w & Hrun & Hi & Htr & Hattr & Hhead & Hfree & Hnw & Hpid & _
        & Hout & Hin).
  exists w. split_and!; try done.
  set (n := Z.to_nat (mq_maxmsg attr)) in *.
  assert (n = S (Z.to_nat (mq_maxmsg attr - 1))) as Hn by lia.
  exists [], (slot_offsets n sizeof_mq_hdr (slot_size attr)).
  unfold maxmsg, curmsgs, msgsize. rewrite Hattr. simpl.
  rewrite slot_offsets_length.
  split_and!; [|done|lia|done|done|done].
  split; unfold active_head, free_head; simpl.
  - done.
  - rewrite Hfree, Hn. apply chain_slot_offsets; [done..|].
    rewrite <- Hn. intros k Hk. destruct (Hin k Hk) as (m & Hm & Hnext).
    exists m. split; [done|]. rewrite Hnext.
    replace (Z.of_nat (Z.to_nat (mq_maxmsg attr - 1)))
      with (mq_maxmsg attr - 1) by lia.
    case_bool_decide as Hlast; [done|].
    apply to_int32_id. apply elem_of_slot_offsets_iff in Hk as (j & Hj & ->).
    unfold file_size, in_int32, n in *.
    assert (j < mq_maxmsg attr - 1) by (destruct (decide (j = mq_maxmsg attr - 1)) as [->|]; [done|lia]).
    nia.
  - by apply slot_offsets_NoDup.
  - apply Forall_forall. intros k (j & Hj & ->)%elem_of_slot_offsets_iff.
    unfold file_size, in_int32, n in *. nia.
Qed.

Lemma roundup_bounds x y : 0 < y → 0 ≤ x → x ≤ roundup x y < x + y.
Proof.
  intros Hy Hx. unfold roundup.
  pose proof (Z.div_mod (x + (y - 1)) y ltac:(lia)).
  pose proof (Z.mod_pos_bound (x + (y - 1)) y Hy). nia.
Qed.

(** [mq_open] makes a queue where every call it relies on goes through. *)
Lemma mq_open_create_opened oflag attr :
  from_option attr_ok True attr →
  0 < sizeof_mq_hdr → 0 < sizeof_long →
  file_size (default defattr attr) ≤ 2 ^ 31 →
  ∃ w,
    mq_open_create defattr oflag attr all_ok = Opened w ∧
    mq_rep (w_seg w) [] ∧
    mqi_magic (w_info w) = MQI_MAGIC ∧
    w_trace w = [] ∧
    mqh_attr (seg_hdr (w_seg w)) =
      {| mq_flags := 0; mq_maxmsg := mq_maxmsg (default defattr attr);
         mq_msgsize := mq_msgsize (default defattr attr); mq_curmsgs := 0 |} ∧
    mqh_nwait (seg_hdr (w_seg w)) = 0 ∧
    mqh_pid (seg_hdr (w_seg w)) = 0.
Proof.
  intros Hattr Hh Hl Hfit. unfold mq_open_create. simpl.
  set (nb := Z.land _ O_NONBLOCK).
  assert (attr_ok (default defattr attr)) as [Hm Hs].
  { destruct attr; [done|]. unfold attr_ok. simpl. lia. }
  destruct (init_queue_rep (default defattr attr) nb)
    as (w & Hrun & Hrep & Hi & Htr & Ha & Hnw & Hpid); try done; try lia.
  { unfold slot_size, MSGSIZE, sizeof_msg_hdr.
    pose proof (roundup_bounds (mq_msgsize (default defattr attr))
                  sizeof_long Hl ltac:(lia)). lia. }
  exists w. split_and!; try done; [|by rewrite Hi].
  destruct attr as [a|]; simpl in *.
  - destruct Hattr as [[? ?] [? ?]].
    destruct (Z.leb_spec (mq_maxmsg a) 0); [lia|].
    destruct (Z.gtb_spec (mq_maxmsg a) 32768); [lia|].
    destruct (Z.leb_spec (mq_msgsize a) 0); [lia|].
    destruct (Z.gtb_spec (mq_msgsize a) 1048576); [lia|].
    simpl. by rewrite Hrun.
  - by rewrite Hrun.
Qed.

End InitRep.

Lemma mq_rep_nil s : mq_inv s → curmsgs s = 0 → mq_rep s [].
Proof.
  intros [q Hq] Hc. pose proof (mq_rep_length _ _ Hq) as Hl.
  destruct q; [done|]. simpl in Hl. lia.
Qed.

Section Runs.
Context `{P : Platform}.

(** A send that finds the queue full and has nobody to wake it. *)
Lemma send_admit_full abstime w :
  0 < maxmsg (w_seg w) → maxmsg (w_seg w) ≤ curmsgs (w_seg w) →
  send_admit abstime [] w =
    if is_nonblock (w_info w) then Leave EAGAIN w else Blocked w.
Proof.
  unfold maxmsg, curmsgs. intros Hmax Hfull.
  unfold send_admit, bind, get_hdr, get_info, queue_empty, queue_full.
  destruct (Z.eqb_spec (mq_curmsgs (mqh_attr (seg_hdr (w_seg w)))) 0); [lia|].
  destruct (Z.geb_spec (mq_curmsgs (mqh_attr (seg_hdr (w_seg w))))
              (mq_maxmsg (mqh_attr (seg_hdr (w_seg w))))) as [_|]; [|lia].
  destruct (is_nonblock (w_info w)); [done|]. simpl. unfold queue_full.
  by destruct (Z.geb_spec (mq_curmsgs (mqh_attr (seg_hdr (w_seg w))))
                 (mq_maxmsg (mqh_attr (seg_hdr (w_seg w))))); [|lia].
Qed.

(** A receive that finds the queue empty and has nobody to wake it. *)
Lemma receive_admit_empty abstime w :
  curmsgs (w_seg w) = 0 →
  ∃ w', receive_admit abstime [] w =
          if is_nonblock (w_info w) then Leave EAGAIN w else Blocked w'.
Proof.
  unfold curmsgs. intros He.
  unfold receive_admit, bind, get_hdr, get_info, queue_empty, modify_hdr,
    bind, get_hdr, put_hdr.
  rewrite He. simpl.
  destruct (is_nonblock (w_info w)); [by exists w|]. simpl.
  unfold queue_empty. simpl. rewrite He. simpl. by eexists.
Qed.

(** A send without anyone to wake it returns a result only if there was
    room, and then the message is in the queue. *)
Lemma mq_send_nowait_Ok ptr prio w q r w' :
  mq_rep (w_seg w) q →
  mq_send ptr prio WAIT_OBJECT_0 [] w = Ok r w' →
  mq_rep (w_seg w') (put (prio, ptr) q) ∧ w_info w' = w_info w.
Proof.
  intros Hq. unfold mq_send.
  destruct (decide (mqi_magic (w_info w) = MQI_MAGIC)) as [Hmagic|Hmagic];
    [|unfold _mq_send, bind, get_info;
      destruct (Z.eqb_spec (mqi_magic (w_info w)) MQI_MAGIC); done].
  destruct (Z.lt_ge_cases prio MQ_PRIO_MAX) as [Hprio|Hprio];
    [|unfold _mq_send, bind, get_info; rewrite Hmagic, Z.eqb_refl; simpl;
      destruct (Z.geb_spec prio MQ_PRIO_MAX); [done|lia]].
  destruct (Z.le_gt_cases (Z.of_nat (length ptr)) (msgsize (w_seg w)))
    as [Hlen|Hlen]; cycle 1.
  { unfold _mq_send, bind, get_info. rewrite Hmagic, Z.eqb_refl. simpl.
    destruct (Z.geb_spec prio MQ_PRIO_MAX); [lia|].
    unfold unlock_after, mq_send_locked, bind, get_hdr. simpl.
    unfold msgsize in Hlen.
    by destruct (Z.gtb_spec (Z.of_nat (length ptr))
                   (mq_msgsize (mqh_attr (seg_hdr (w_seg w))))); [|lia]. }
  destruct (Z.lt_ge_cases (curmsgs (w_seg w)) (maxmsg (w_seg w)))
    as [Hroom|Hfull].
  - destruct (mq_send_ok ptr prio None [] w q)
      as (w1 & -> & Hq' & Hi & _); try done. by intros [= <- <-].
  - assert (0 < maxmsg (w_seg w)) as Hmax
      by by destruct Hq as (? & ? & _ & ? & _).
    unfold _mq_send, bind, get_info. rewrite Hmagic, Z.eqb_refl. simpl.
    destruct (Z.geb_spec prio MQ_PRIO_MAX); [lia|].
    fold (locked w).
    unfold unlock_after, mq_send_locked. unfold bind at 1 2, get_hdr at 1.
    unfold msgsize in Hlen. change (w_seg (locked w)) with (w_seg w).
    destruct (Z.gtb_spec (Z.of_nat (length ptr))
                (mq_msgsize (mqh_attr (seg_hdr (w_seg w))))); [done|].
    rewrite send_admit_full by (simpl; lia).
    by destruct (is_nonblock (w_info (locked w))).
Qed.

(** A receive without anyone to wake it returns a result only if there was
    a message, and then it is the first one. *)
Lemma mq_receive_nowait_Ok maxlen w q out w' :
  mq_rep (w_seg w) q →
  mq_receive maxlen WAIT_OBJECT_0 [] w = Ok out w' →
  ∃ x q', q = x :: q' ∧ rcv_prio out = x.1 ∧ rcv_data out = x.2 ∧
          mq_rep (w_seg w') q' ∧ w_info w' = w_info w.
Proof.
  intros Hq. unfold mq_receive.
  destruct (decide (mqi_magic (w_info w) = MQI_MAGIC)) as [Hmagic|Hmagic];
    [|unfold _mq_receive, bind, get_info;
      destruct (Z.eqb_spec (mqi_magic (w_info w)) MQI_MAGIC); done].
  destruct (Z.le_gt_cases (msgsize (w_seg w)) maxlen) as [Hlen|Hlen]; cycle 1.
  { unfold _mq_receive, bind, get_info. rewrite Hmagic, Z.eqb_refl. simpl.
    unfold unlock_after, mq_receive_locked, bind, get_hdr. simpl.
    unfold msgsize in Hlen.
    by destruct (Z.ltb_spec maxlen
                   (mq_msgsize (mqh_attr (seg_hdr (w_seg w))))); [|lia]. }
  destruct q as [|x q].
  - apply mq_rep_length in Hq. simpl in Hq.
    unfold _mq_receive, bind, get_info. rewrite Hmagic, Z.eqb_refl. simpl.
    fold (locked w).
    unfold unlock_after, mq_receive_locked. unfold bind at 1 2, get_hdr at 1.
    unfold msgsize in Hlen. change (w_seg (locked w)) with (w_seg w).
    destruct (Z.ltb_spec maxlen
                (mq_msgsize (mqh_attr (seg_hdr (w_seg w))))); [done|].
    destruct (receive_admit_empty None (locked w)) as [w1 ->]; [done|].
    by destruct (is_nonblock (w_info (locked w))).
  - destruct (mq_receive_ok maxlen None [] w x q)
      as (out1 & w1 & -> & Hp & Hd & Hq' & Hi & _); try done.
    intros [= <- <-]. by exists x, q.
Qed.

(** After a run of calls that all returned, the queue is well formed and
    holds as many messages more as there were sends more than receives. *)
Lemma run_rep ops : ∀ w q w',
  mq_rep (w_seg w) q →
  run ops w = Ok tt w' →
  ∃ q', mq_rep (w_seg w') q' ∧
        (length q' + receives ops = length q + sends ops)%nat.
Proof.
  induction ops as [|o ops IH]; intros w q w' Hq; simpl.
  - intros [= <-]. exists q. split; [done|]. lia.
  - unfold bind at 1.
    destruct (run_op o w) as [[] w1| | | | | |] eqn:Hop; try done.
    intros Hrun. destruct o as [ptr prio|maxlen]; simpl in Hop.
    + unfold bind, ret in Hop.
      destruct (mq_send ptr prio WAIT_OBJECT_0 [] w) as [r w2| | | | | |]
        eqn:Hs; try done. injection Hop as ->.
      apply (mq_send_nowait_Ok _ _ _ q) in Hs as [Hq1 _]; [|done].
      destruct (IH _ _ _ Hq1 Hrun) as (q' & Hq' & Hlen).
      exists q'. split; [done|]. rewrite put_length in Hlen. lia.
    + unfold bind, ret in Hop.
      destruct (mq_receive maxlen WAIT_OBJECT_0 [] w) as [r w2| | | | | |]
        eqn:Hs; try done. injection Hop as ->.
      apply (mq_receive_nowait_Ok _ _ q) in Hs
        as (x & q1 & -> & _ & _ & Hq1 & _); [|done].
      destruct (IH _ _ _ Hq1 Hrun) as (q' & Hq' & Hlen).
      exists q'. split; [done|]. simpl in *. lia.
Qed.

(** Where the links of the free list of a fresh queue stop fitting
    [msg_next], no list starts at [mqh_free]. *)
Lemma init_chain_broken attr msgs j0 :
  0 < sizeof_mq_hdr → 0 < slot_size attr →
  0 ≤ j0 < mq_maxmsg attr - 1 →
  sizeof_mq_hdr + j0 * slot_size attr < 2 ^ 31 →
  2 ^ 31 ≤ sizeof_mq_hdr + (j0 + 1) * slot_size attr < 2 ^ 32 →
  (∀ k, k ∉ slot_offsets (Z.to_nat (mq_maxmsg attr)) sizeof_mq_hdr
              (slot_size attr) → msgs !! k = None) →
  (∀ k, k ∈ slot_offsets (Z.to_nat (mq_maxmsg attr)) sizeof_mq_hdr
              (slot_size attr) →
        ∃ m, msgs !! k = Some m ∧
             msg_next m =
               if bool_decide (k = sizeof_mq_hdr
                                   + (mq_maxmsg attr - 1) * slot_size attr)
               then 0 else to_int32 (k + slot_size attr)) →
  ∀ l, ¬ chain msgs sizeof_mq_hdr l.
Proof.
  intros Hh Hs Hj Hfit Hover Hout Hin.
  assert (∀ j, 0 ≤ j < mq_maxmsg attr - 1 →
            ∃ m, msgs !! (sizeof_mq_hdr + j * slot_size attr) = Some m ∧
                 msg_next m =
                   to_int32 (sizeof_mq_hdr + (j + 1) * slot_size attr))
    as Hslot.
  { intros j Hj'.
    destruct (Hin (sizeof_mq_hdr + j * slot_size attr)) as (m & Hm & Hn).
    { apply elem_of_slot_offsets_iff. exists j. split; [lia|done]. }
    exists m. split; [done|]. rewrite Hn.
    rewrite bool_decide_eq_false_2 by nia. f_equal. ring. }
  assert (∀ d : nat, (Z.of_nat d ≤ j0) →
            ∀ l, ¬ chain msgs (sizeof_mq_hdr + (j0 - Z.of_nat d) * slot_size attr) l)
    as Hno.
  { induction d as [|d IH]; intros Hd l Hc.
    - replace (j0 - Z.of_nat 0) with j0 in Hc by lia.
      destruct (Hslot j0 Hj) as (m & Hm & Hn).
      unfold to_int32 in Hn.
      replace ((sizeof_mq_hdr + (j0 + 1) * slot_size attr + 2 ^ 31) mod 2 ^ 32)
        with (sizeof_mq_hdr + (j0 + 1) * slot_size attr + 2 ^ 31 - 2 ^ 32)
        in Hn.
      2:{ apply Z.mod_unique with 1; lia. }
      destruct l as [|a l]; simpl in Hc; [nia|].
      destruct Hc as (<- & _ & m' & Hm' & Hc). rewrite Hm in Hm'.
      injection Hm' as <-.
      destruct l as [|b l]; simpl in Hc; [lia|].
      destruct Hc as (<- & _ & m'' & Hm'' & _).
      rewrite Hout in Hm''; [done|].
      intros (j & Hjj & Heq)%elem_of_slot_offsets_iff. nia.
    - destruct (Hslot (j0 - Z.of_nat (S d))) as (m & Hm & Hn); [lia|].
      rewrite to_int32_id in Hn by (unfold in_int32; nia).
      destruct l as [|a l]; simpl in Hc; [nia|].
      destruct Hc as (<- & _ & m' & Hm' & Hc). rewrite Hm in Hm'.
      injection Hm' as <-. rewrite Hn in Hc.
      apply (IH ltac:(lia) l).
      replace (j0 - Z.of_nat d) with (j0 - Z.of_nat (S d) + 1) by lia. done. }
  intros l Hc. apply (Hno (Z.to_nat j0) ltac:(lia) l).
  replace (j0 - Z.of_nat (Z.to_nat j0)) with 0 by lia.
  by replace (sizeof_mq_hdr + 0 * slot_size attr) with sizeof_mq_hdr by lia.
Qed.

End Runs.

Lemma not_fatal_bind {A B} (m : M A) (k : A → M B) w :
  not_fatal (m w) →
  (∀ a w1, m w = Ok a w1 → not_fatal (k a w1)) →
  not_fatal (bind m k w).
Proof.
  unfold not_fatal, bind. intros Hm Hk w'.
  destruct (m w) as [a w1| | | | | |] eqn:Hr; try done.
  - by apply (Hk a w1).
  - by destruct (Hm w0).
Qed.

Lemma modify_not_fatal i f w : not_fatal (modify i f w).
Proof. unfold not_fatal, modify. by destruct (_ !! _). Qed.

Lemma load_not_fatal i w : not_fatal (load i w).
Proof. unfold not_fatal, load. by destruct (_ !! _). Qed.

Lemma modify_hdr_not_fatal f w : not_fatal (modify_hdr f w).
Proof. by unfold not_fatal, modify_hdr, bind, get_hdr, put_hdr. Qed.

Lemma set_pnext_not_fatal p v w : not_fatal (set_pnext p v w).
Proof.
  destruct p; [apply modify_hdr_not_fatal|apply modify_not_fatal].
Qed.

Lemma link_msg_not_fatal fuel : ∀ prio f index p w,
  not_fatal (link_msg fuel prio f index p w).
Proof.
  induction fuel as [|fuel IH]; intros prio f index p w; simpl; [done|].
  destruct (index =? 0).
  - apply not_fatal_bind; [apply set_pnext_not_fatal|].
    intros _ w1 _. apply modify_not_fatal.
  - apply not_fatal_bind; [apply load_not_fatal|].
    intros m w1 _. destruct (prio >? msg_prio m); [|apply IH].
    apply not_fatal_bind; [apply modify_not_fatal|].
    intros _ w2 _. apply set_pnext_not_fatal.
Qed.

Lemma counted_invariant_ext s s' :
  seg_msgs s' = seg_msgs s → active_head s' = active_head s →
  free_head s' = free_head s → curmsgs s' = curmsgs s →
  maxmsg s' = maxmsg s →
  counted_invariant s → counted_invariant s'.
Proof.
  intros Hm Ha Hf Hc Hx (act & fr & ? & ? & ? & ? & ?).
  exists act, fr. by rewrite Hm, Ha, Hf, Hc, Hx.
Qed.

Lemma counted_free_head s :
  counted_invariant s → curmsgs s < maxmsg s → free_head s ≠ 0.
Proof.
  intros (act & fr & _ & Hfr & _ & Hlen & Hc) Hroom.
  destruct fr as [|f fr]; simpl in *; [lia|]. by destruct Hfr as (-> & ? & _).
Qed.

Lemma counted_active_head s :
  counted_invariant s → curmsgs s ≠ 0 → active_head s ≠ 0.
Proof.
  intros (act & fr & Hact & _ & _ & _ & Hc) Hne.
  destruct act as [|a act]; simpl in *; [lia|]. by destruct Hact as (-> & ? & _).
Qed.

Section NoFatal.
Context `{P : Platform}.

Lemma send_enqueue_not_fatal ptr prio w :
  free_head (w_seg w) ≠ 0 → not_fatal (send_enqueue ptr prio w).
Proof.
  intros Hfree. unfold send_enqueue. unfold bind at 1, get_hdr at 1.
  unfold free_head in Hfree.
  destruct (Z.eqb_spec (mqh_free (seg_hdr (w_seg w))) 0); [done|].
  repeat (apply not_fatal_bind;
          [first [apply modify_not_fatal | apply load_not_fatal
                 | apply modify_hdr_not_fatal | apply link_msg_not_fatal
                 | done
                 | by unfold ipc_cond_signal, emit, ret;
                      destruct (queue_empty _)]
          |intros ? ? _]).
  done.
Qed.

Lemma receive_dequeue_not_fatal w :
  active_head (w_seg w) ≠ 0 → not_fatal (receive_dequeue w).
Proof.
  intros Hhead. unfold receive_dequeue. unfold bind at 1, get_hdr at 1.
  unfold active_head in Hhead.
  destruct (Z.eqb_spec (mqh_head (seg_hdr (w_seg w))) 0); [done|].
  repeat (apply not_fatal_bind;
          [first [apply modify_not_fatal | apply load_not_fatal
                 | apply modify_hdr_not_fatal | done
                 | by unfold ipc_cond_signal, emit, ret; destruct (_ =? _)]
          |intros ? ? _]).
  done.
Qed.

(** A loop of waits among openers that keep an invariant of the segment ends
    with the invariant and, where it ends normally, with its condition
    false. *)
Lemma wait_while_keeps (I : segment → Prop) pred evt abstime waits : ∀ w,
  I (w_seg w) → Forall (λ o, ∀ s, I s → I (wo_env o s)) waits →
  let Q := λ w', I (w_seg w') ∧ w_info w' = w_info w in
  ends_in Q (λ _ w', Q w' ∧ pred (seg_hdr (w_seg w')) = false)
    (wait_while pred evt abstime waits w).
Proof.
  induction waits as [|o waits IH]; intros w Hinv Hok Q; simpl.
  - by destruct (pred (seg_hdr (w_seg w))) eqn:Hp; simpl.
  - destruct (pred (seg_hdr (w_seg w))) eqn:Hp; simpl; [|done].
    apply Forall_cons in Hok as [Ho Hok].
    assert (∀ w', ((w_seg w' = w_seg w ∨ w_seg w' = wo_env o (w_seg w)) ∧
                   w_info w' = w_info w) → Q w') as HQ.
    { intros w' [[Hs|Hs] Hi]; (split; [|done]); rewrite Hs; eauto. }
    eapply ends_in_bind.
    { eapply ends_in_weaken; [apply timedwait_ends|apply HQ|].
      intros a w' Hw'. exact (HQ w' Hw'). }
    intros [e|] w1 [Hst Hi]; [done|].
    eapply ends_in_weaken; [apply IH; [apply Hst|done]|..].
    + intros w' [Hst' Hi']. split; [done|congruence].
    + intros _ w' [[Hst' Hi'] Hp']. split; [|done]. split; [done|congruence].
Qed.

Lemma ends_in_not_fatal {A} Q (R : A → world → Prop) (r : res A) :
  ends_in Q R r → not_fatal r.
Proof. intros Hr w ->. done. Qed.

Lemma send_admit_counted abstime waits w :
  counted_invariant (w_seg w) → Forall env_counted waits →
  ends_in (λ _, True)
    (λ _ w', counted_invariant (w_seg w') ∧
             curmsgs (w_seg w') < maxmsg (w_seg w'))
    (send_admit abstime waits w).
Proof.
  intros Hinv Hok.
  destruct (Z.ltb_spec (curmsgs (w_seg w)) (maxmsg (w_seg w))) as [Hroom|Hfull].
  - rewrite send_admit_room by done. simpl. split.
    + revert Hinv. apply counted_invariant_ext;
        unfold after_notify, active_head, free_head, curmsgs, maxmsg; simpl;
        by destruct (notified (seg_hdr (w_seg w))).
    + unfold after_notify, curmsgs, maxmsg in *; simpl.
      by destruct (notified (seg_hdr (w_seg w))).
  - unfold send_admit. unfold bind at 1, get_hdr at 1.
    assert (0 < maxmsg (w_seg w)) as Hmax
      by by destruct Hinv as (? & ? & _ & _ & ? & _).
    unfold queue_empty, queue_full. unfold curmsgs, maxmsg in *.
    destruct (Z.eqb_spec (mq_curmsgs (mqh_attr (seg_hdr (w_seg w)))) 0);
      [lia|].
    destruct (Z.geb_spec (mq_curmsgs (mqh_attr (seg_hdr (w_seg w))))
                (mq_maxmsg (mqh_attr (seg_hdr (w_seg w))))); [|lia].
    unfold bind, get_info. destruct (is_nonblock (w_info w)); simpl; [done|].
    eapply ends_in_weaken;
      [apply (wait_while_keeps counted_invariant queue_full); done|done|].
    intros _ w' [[HI _] Hnf]. split; [done|].
    unfold queue_full in Hnf. unfold curmsgs, maxmsg. lia.
Qed.

Lemma receive_admit_counted abstime waits w :
  counted_invariant (w_seg w) → Forall env_counted waits →
  ends_in (λ _, True)
    (λ _ w', counted_invariant (w_seg w') ∧ curmsgs (w_seg w') ≠ 0)
    (receive_admit abstime waits w).
Proof.
  intros Hinv Hok.
  destruct (decide (curmsgs (w_seg w) = 0)) as [He|Hne];
    [|by rewrite receive_admit_some].
  unfold receive_admit. unfold bind at 1, get_hdr at 1.
  unfold queue_empty at 1. unfold curmsgs in He. rewrite He. simpl.
  unfold bind at 1, get_info at 1. destruct (is_nonblock (w_info w)); [done|].
  unfold modify_hdr at 1. unfold bind at 1 2, get_hdr at 1, put_hdr at 1.
  set (w1 := {| w_seg := _; w_info := _; w_trace := _ |}).
  assert (counted_invariant (w_seg w1)) as Hinv1.
  { revert Hinv. by apply counted_invariant_ext. }
  eapply ends_in_bind.
  { eapply ends_in_weaken;
      [apply (wait_while_keeps counted_invariant queue_empty); done|done|].
    intros a w' Hw'. exact Hw'. }
  intros _ w2 [[Hinv2 _] Hne2]. unfold modify_hdr, bind, get_hdr, put_hdr.
  simpl. split.
  - revert Hinv2. by apply counted_invariant_ext.
  - unfold curmsgs. simpl. unfold queue_empty in Hne2. lia.
Qed.

Lemma unlock_after_not_fatal {A} (m : M A) w :
  not_fatal (m w) → not_fatal (unlock_after m w).
Proof.
  unfold not_fatal, unlock_after. intros Hm w'.
  destruct (m w) eqn:Hr; try done.
Qed.

Lemma mq_send_not_fatal ptr prio abstime lock waits w :
  counted_invariant (w_seg w) → Forall env_counted waits →
  not_fatal (_mq_send ptr prio abstime lock waits w).
Proof.
  intros Hinv Hok. unfold _mq_send. unfold bind at 1, get_info at 1.
  destruct (negb _); [done|]. destruct (prio >=? MQ_PRIO_MAX); [done|].
  apply not_fatal_bind; [by destruct lock|].
  intros [e|] w1 Hlock; [done|].
  assert (w_seg w1 = w_seg w) as Hs.
  { destruct lock; simpl in Hlock; try done;
      unfold bind, emit, ret in Hlock; by injection Hlock as <-. }
  apply unlock_after_not_fatal. unfold mq_send_locked.
  unfold bind at 1, get_hdr at 1. destruct (_ >? _); [done|].
  apply not_fatal_bind.
  { eapply ends_in_not_fatal, send_admit_counted; [by rewrite Hs|done]. }
  intros [] w2 Hadm.
  pose proof (send_admit_counted abstime waits w1
                ltac:(by rewrite Hs) Hok) as He.
  rewrite Hadm in He. destruct He as [Hinv2 Hroom2].
  apply send_enqueue_not_fatal. by apply counted_free_head.
Qed.

Lemma mq_receive_not_fatal maxlen abstime lock waits w :
  counted_invariant (w_seg w) → Forall env_counted waits →
  not_fatal (_mq_receive maxlen abstime lock waits w).
Proof.
  intros Hinv Hok. unfold _mq_receive. unfold bind at 1, get_info at 1.
  destruct (negb _); [done|].
  apply not_fatal_bind; [by destruct lock|].
  intros [e|] w1 Hlock; [done|].
  assert (w_seg w1 = w_seg w) as Hs.
  { destruct lock; simpl in Hlock; try done;
      unfold bind, emit, ret in Hlock; by injection Hlock as <-. }
  apply unlock_after_not_fatal. unfold mq_receive_locked.
  unfold bind at 1, get_hdr at 1. destruct (_ <? _); [done|].
  apply not_fatal_bind.
  { eapply ends_in_not_fatal, receive_admit_counted; [by rewrite Hs|done]. }
  intros [] w2 Hadm.
  pose proof (receive_admit_counted abstime waits w1
                ltac:(by rewrite Hs) Hok) as He.
  rewrite Hadm in He. destruct He as [Hinv2 Hne2].
  apply receive_dequeue_not_fatal. by apply counted_active_head.
Qed.

End NoFatal.

Section Order.
Context `{P : Platform}.

Lemma same_queue_hdr_after_notify w w' :
  same_queue_hdr (seg_hdr (w_seg (after_notify w))) (seg_hdr (w_seg w')) →
  maxmsg (w_seg w') = maxmsg (w_seg w) ∧
  msgsize (w_seg w') = msgsize (w_seg w) ∧
  mqh_nwait (seg_hdr (w_seg w')) = mqh_nwait (seg_hdr (w_seg w)) ∧
  mqh_event (seg_hdr (w_seg w')) = mqh_event (seg_hdr (w_seg w)) ∧
  mqh_pid (seg_hdr (w_seg w')) =
    if notified (seg_hdr (w_seg w)) then 0 else mqh_pid (seg_hdr (w_seg w)).
Proof.
  unfold after_notify, maxmsg, msgsize. simpl.
  intros (-> & -> & _ & -> & -> & -> & _).
  by destruct (notified (seg_hdr (w_seg w))).
Qed.

(** One more message: what the next call finds. *)
Lemma mq_send_next ptr prio abstime waits w q :
  mq_rep (w_seg w) q →
  mqi_magic (w_info w) = MQI_MAGIC →
  prio < MQ_PRIO_MAX →
  Z.of_nat (length ptr) ≤ msgsize (w_seg w) →
  curmsgs (w_seg w) < maxmsg (w_seg w) →
  ∃ w',
    _mq_send ptr prio abstime WAIT_OBJECT_0 waits w = Ok 0 w' ∧
    mq_rep (w_seg w') (put (prio, ptr) q) ∧
    mqi_magic (w_info w') = MQI_MAGIC ∧
    maxmsg (w_seg w') = maxmsg (w_seg w) ∧
    msgsize (w_seg w') = msgsize (w_seg w).
Proof.
  intros Hq Hm Hp Hl Hr.
  destruct (mq_send_ok ptr prio abstime waits w q Hq Hm Hp Hl Hr)
    as (w' & Hrun & Hq' & Hi & _ & Hh).
  apply same_queue_hdr_after_notify in Hh as (? & ? & _).
  exists w'. split_and!; try done. by rewrite Hi.
Qed.

Lemma mq_receive_next maxlen abstime waits w x q :
  mq_rep (w_seg w) (x :: q) →
  mqi_magic (w_info w) = MQI_MAGIC →
  msgsize (w_seg w) ≤ maxlen →
  ∃ out w',
    _mq_receive maxlen abstime WAIT_OBJECT_0 waits w = Ok out w' ∧
    rcv_prio out = x.1 ∧ rcv_data out = x.2 ∧
    mq_rep (w_seg w') q ∧
    mqi_magic (w_info w') = MQI_MAGIC ∧
    msgsize (w_seg w') = msgsize (w_seg w).
Proof.
  intros Hq Hm Hl.
  destruct (mq_receive_ok maxlen abstime waits w x q Hq Hm Hl)
    as (out & w' & Hrun & Hp & Hd & Hq' & Hi & Hh).
  destruct Hh as (_ & Hs & _).
  exists out, w'. split_and!; try done. by rewrite Hi.
Qed.

(** C1.  Messages are delivered in priority order, first in first out among
    equal priorities: on a well-formed queue holding the messages [q], a send
    that finds room puts its message behind all messages of higher or equal
    priority and immediately before the first one of strictly lower priority,
    and a receive takes the first message of [q]; hence on an empty queue
    send (A, 1), send (B, 5), send (C, 1) and three receives give B, A, C. *)
Theorem priority_fifo_order (w : world) (q : list message) :
  mq_rep (w_seg w) q →
  mqi_magic (w_info w) = MQI_MAGIC →
  (∀ ptr prio abstime waits,
      prio < MQ_PRIO_MAX →
      Z.of_nat (length ptr) ≤ msgsize (w_seg w) →
      curmsgs (w_seg w) < maxmsg (w_seg w) →
      ∃ w' pre post,
        _mq_send ptr prio abstime WAIT_OBJECT_0 waits w = Ok 0 w' ∧
        q = pre ++ post ∧
        mq_rep (w_seg w') (pre ++ (prio, ptr) :: post) ∧
        Forall (λ y, prio ≤ y.1) pre ∧
        match post with [] => True | y :: _ => y.1 < prio end) ∧
  (∀ x q' maxlen abstime waits,
      q = x :: q' →
      msgsize (w_seg w) ≤ maxlen →
      ∃ out w',
        _mq_receive maxlen abstime WAIT_OBJECT_0 waits w = Ok out w' ∧
        rcv_prio out = x.1 ∧ rcv_data out = x.2 ∧
        mq_rep (w_seg w') q') ∧
  (∀ maxlen,
      q = [] → 3 ≤ maxmsg (w_seg w) → 1 ≤ msgsize (w_seg w) →
      msgsize (w_seg w) ≤ maxlen → 5 < MQ_PRIO_MAX →
      ∃ a b c w',
        send3_receive3 maxlen w = Ok [a; b; c] w' ∧
        (rcv_prio a, rcv_data a) = (5, ["B"%byte]) ∧
        (rcv_prio b, rcv_data b) = (1, ["A"%byte]) ∧
        (rcv_prio c, rcv_data c) = (1, ["C"%byte])).
Proof.
  intros Hq Hmagic. split_and!.
  - intros ptr prio abstime waits Hprio Hlen Hroom.
    destruct (mq_send_next ptr prio abstime waits w q)
      as (w' & Hrun & Hq' & _); try done.
    destruct (put_spec (prio, ptr) q) as (pre & post & Hqq & Hput & Hpre & Hpost).
    exists w', pre, post. simpl in Hpre, Hpost.
    split_and!; [done|done| |done|done]. by rewrite <- Hput.
  - intros x q' maxlen abstime waits -> Hlen.
    destruct (mq_receive_next maxlen abstime waits w x q')
      as (out & w' & ? & ? & ? & ? & _); try done.
    by exists out, w'.
  - intros maxlen -> Hmax Hsz Hlen Hprio.
    pose proof (mq_rep_length _ _ Hq) as Hc0. simpl in Hc0.
    destruct (mq_send_next ["A"%byte] 1 None [] w []) as (w1 & R1 & Hq1 & Hm1 & Hx1 & Hs1);
      try done; try (simpl; lia).
    pose proof (mq_rep_length _ _ Hq1) as Hc1. simpl in Hc1.
    destruct (mq_send_next ["B"%byte] 5 None [] w1 _ Hq1) as (w2 & R2 & Hq2 & Hm2 & Hx2 & Hs2);
      try done; try (simpl; lia).
    pose proof (mq_rep_length _ _ Hq2) as Hc2. simpl in Hc2.
    destruct (mq_send_next ["C"%byte] 1 None [] w2 _ Hq2) as (w3 & R3 & Hq3 & Hm3 & Hx3 & Hs3);
      try done; try (simpl in *; lia).
    simpl in Hq3.
    destruct (mq_receive_next maxlen None [] w3 _ _ Hq3) as (a & w4 & R4 & Hpa & Hda & Hq4 & Hm4 & Hs4);
      try done; try lia.
    destruct (mq_receive_next maxlen None [] w4 _ _ Hq4) as (b & w5 & R5 & Hpb & Hdb & Hq5 & Hm5 & Hs5);
      try done; try lia.
    destruct (mq_receive_next maxlen None [] w5 _ _ Hq5) as (c & w6 & R6 & Hpc & Hdc & Hq6 & Hm6 & Hs6);
      try done; try lia.
    exists a, b, c, w6. unfold send3_receive3.
    rewrite (bind_Ok _ _ _ _ _ R1), (bind_Ok _ _ _ _ _ R2),
      (bind_Ok _ _ _ _ _ R3), (bind_Ok _ _ _ _ _ R4), (bind_Ok _ _ _ _ _ R5),
      (bind_Ok _ _ _ _ _ R6).
    rewrite Hpa, Hda, Hpb, Hdb, Hpc, Hdc. done.
Qed.

End Order.

Lemma blocking_queue_rep : mq_rep (w_seg blocking_queue) [].
Proof.
  apply mq_rep_nil; [apply mq_invb_sound; vm_compute; reflexivity|].
  vm_compute. reflexivity.
Qed.

Lemma priority_fifo_order_witness :
  ∃ a b c w',
    send3_receive3 (P := cygwin64) 4 blocking_queue = Ok [a; b; c] w' ∧
    (rcv_prio a, rcv_data a) = (5, ["B"%byte]) ∧
    (rcv_prio b, rcv_data b) = (1, ["A"%byte]) ∧
    (rcv_prio c, rcv_data c) = (1, ["C"%byte]).
Proof.
  refine (proj2 (proj2 (priority_fifo_order (P := cygwin64) blocking_queue []
                          blocking_queue_rep _)) 4 _ _ _ _ _);
    vm_compute; solve [reflexivity | discriminate].
Defined.

Section Counts.
Context `{P : Platform}.

(** [mq_open] initializes the queue where every call it relies on goes
    through and the attributes it uses pass. *)
Lemma mq_open_create_init dflt oflag attr w :
  from_option attr_ok True attr →
  init_queue (default dflt attr)
    (mqinfo_create (default dflt attr)
       (Z.land (Z.land oflag (Z.lor O_CREAT (Z.lor O_EXCL O_NONBLOCK)))
          O_NONBLOCK)) = Ok tt w →
  mq_open_create dflt oflag attr all_ok = Opened w.
Proof.
  intros Hattr Hrun. unfold mq_open_create. simpl.
  destruct attr as [a|]; simpl in *.
  - destruct Hattr as [[? ?] [? ?]].
    destruct (Z.leb_spec (mq_maxmsg a) 0); [lia|].
    destruct (Z.gtb_spec (mq_maxmsg a) 32768); [lia|].
    destruct (Z.leb_spec (mq_msgsize a) 0); [lia|].
    destruct (Z.gtb_spec (mq_msgsize a) 1048576); [lia|].
    simpl. by rewrite Hrun.
  - by rewrite Hrun.
Qed.

(** After a run of sends and receives that all returned, on a queue as
    [mq_open] makes it, the invariant of the header holds and the live count
    is the number of sends less the number of receives. *)
Lemma run_header_invariant ops w w' :
  mq_rep (w_seg w) [] →
  run ops w = Ok tt w' →
  header_invariant (w_seg w') ∧
  (receives ops ≤ sends ops)%nat ∧
  curmsgs (w_seg w') = Z.of_nat (sends ops - receives ops) ∧
  curmsgs (w_seg w') ≤ maxmsg (w_seg w').
Proof.
  intros Hq Hrun. destruct (run_rep ops w [] w' Hq Hrun) as (q' & Hq' & Hlen).
  simpl in Hlen. pose proof (mq_rep_length _ _ Hq') as Hc.
  assert (mq_inv (w_seg w')) as Hinv by by exists q'.
  apply mq_inv_header_invariant in Hinv as Hh.
  split_and!; [done|lia|lia|].
  destruct Hh as (? & ? & _ & _ & ? & _). lia.
Qed.

End Counts.

(** C2.  [mq_open] accepts attributes whose queue does not fit the 32-bit
    links of the slots: a queue of 2049 messages of 1 MiB is made, but the
    link from its slot 2047 to slot 2048, at an offset above 2^31 - 1, is
    stored truncated, so that no list of free slots starts at [mqh_free] and
    the invariant of the header fails right after initialization. *)
Theorem big_queue_free_list_broken :
  ∃ w,
    mq_open_create (P := cygwin64) defattr (@O_CREAT cygwin64) (Some big_attr)
      all_ok = Opened w ∧
    (∃ m, seg_msgs (w_seg w) !! (128 + 2047 * 1048588) = Some m ∧
          msg_next m = 128 + 2048 * 1048588 - 2 ^ 32) ∧
    ¬ header_invariant (w_seg w).
Proof.
  assert (@sizeof_mq_hdr cygwin64 = 128) as HH by reflexivity.
  assert (slot_size (P := cygwin64) big_attr = 1048588) as HS by reflexivity.
  assert (mq_maxmsg big_attr = 2049) as HM by reflexivity.
  destruct (init_queue_run (P := cygwin64) big_attr
              (Z.land (Z.land (@O_CREAT cygwin64)
                         (Z.lor (@O_CREAT cygwin64)
                            (Z.lor (@O_EXCL cygwin64) (@O_NONBLOCK cygwin64))))
                 (@O_NONBLOCK cygwin64)))
    as (w & Hrun & _ & _ & _ & _ & Hfree & _ & _ & _ & Hout & Hin);
    [rewrite HM; lia|rewrite HS; lia|].
  exists w. split; [|split].
  - apply mq_open_create_init; [|exact Hrun].
    split; [rewrite HM; lia|cbn; lia].
  - destruct (Hin (128 + 2047 * 1048588)) as (m & Hm & Hn).
    { apply elem_of_slot_offsets_iff. exists 2047. rewrite HM, HH, HS.
      split; [lia|reflexivity]. }
    exists m. split; [exact Hm|]. rewrite Hn, HM, HH, HS.
    rewrite bool_decide_eq_false_2 by lia. reflexivity.
  - intros (act & fr & _ & Hfr & _).
    unfold free_head in Hfr. rewrite Hfree in Hfr.
    apply (init_chain_broken (P := cygwin64) big_attr (seg_msgs (w_seg w))
             2047) with (l := fr);
      try exact Hfr; try exact Hout; try exact Hin;
      rewrite ?HM, ?HH, ?HS; lia.
Qed.

(** C3.  A receive that has to wait counts itself in [mqh_nwait], and takes
    itself out again once it is woken with a message there; but where the
    wait ends with an error, here the deadline, the call leaves through
    __leave with [mqh_nwait] still one above its value on entry. *)
Theorem receive_timeout_keeps_nwait :
  (∃ w',
      mq_timedreceive (P := cygwin64) 4 good_deadline WAIT_OBJECT_0
        [timed_out] blocking_queue = Leave ETIMEDOUT w' ∧
      mqh_nwait (seg_hdr (w_seg blocking_queue)) = 0 ∧
      mqh_nwait (seg_hdr (w_seg w')) = 1) ∧
  (∃ out w',
      mq_receive (P := cygwin64) 4 WAIT_OBJECT_0 [woken sender_env]
        blocking_queue = Ok out w' ∧
      rcv_data out = ["A"%byte] ∧
      mqh_nwait (seg_hdr (w_seg w')) = 0).
Proof.
  split.
  - eexists. split; [vm_compute; reflexivity|]. split; vm_compute; reflexivity.
  - eexists _, _. split; [vm_compute; reflexivity|].
    split; vm_compute; reflexivity.
Qed.

Section Waiters.
Context `{P : Platform}.

(** The count of waiting receivers where the wait of a receive ends with an
    error: what the wait left in the segment, one more than on entry if
    nobody else changed it. *)
Lemma receive_wait_error maxlen abstime o waits w e w2 :
  mqi_magic (w_info w) = MQI_MAGIC →
  msgsize (w_seg w) ≤ maxlen →
  curmsgs (w_seg w) = 0 →
  is_nonblock (w_info w) = false →
  ipc_cond_timedwait mqi_waitrecv abstime o
    (with_hdr (set_nwait (mqh_nwait (seg_hdr (w_seg w)) + 1)
                 (seg_hdr (w_seg w))) (locked w)) = Ok (Some e) w2 →
  ∃ w3,
    _mq_receive maxlen abstime WAIT_OBJECT_0 (o :: waits) w = Leave e w3 ∧
    w_seg w3 = w_seg w2.
Proof.
  intros Hmagic Hlen Hc Hnb Hwait.
  unfold _mq_receive. unfold bind at 1, get_info at 1.
  rewrite Hmagic, Z.eqb_refl. simpl.
  unfold bind at 1, ipc_mutex_lock, emit, ret. unfold bind at 1.
  fold (locked w).
  unfold unlock_after, mq_receive_locked. unfold bind at 1 2, get_hdr at 1.
  unfold msgsize in Hlen. change (w_seg (locked w)) with (w_seg w).
  destruct (Z.ltb_spec maxlen (mq_msgsize (mqh_attr (seg_hdr (w_seg w)))));
    [lia|].
  unfold receive_admit. unfold bind at 1, get_hdr at 1.
  change (w_seg (locked w)) with (w_seg w).
  unfold queue_empty at 1. unfold curmsgs in Hc. rewrite Hc. simpl.
  unfold bind at 1, get_info at 1. change (w_info (locked w)) with (w_info w).
  rewrite Hnb.
  unfold modify_hdr at 1. unfold bind at 1 2 3, get_hdr at 1, put_hdr at 1.
  change (w_seg (locked w)) with (w_seg w).
  unfold with_hdr in Hwait. simpl in Hwait.
  cbn [wait_while]. 
  unfold queue_empty at 1. simpl. rewrite Hc. simpl.
  unfold bind at 1. simpl in *. rewrite Hwait. simpl.
  eexists. split; [reflexivity|]. done.
Qed.

End Waiters.

Section SemClose.
Import Sem SemSpec.

(** C4, as stated, fails: where the lock on the file cannot be taken,
    [sem_close] returns -1 without having called semaphore::close. *)
Lemma sem_close_lock_fails_not_released :
  sem_close lock_fails = (-1, [EvFlock sizeof_sf; EvFunlock; EvCloseFd]) ∧
  (EvSemaphoreClose ∉ (sem_close lock_fails).2).
Proof.
  split; [reflexivity|]. vm_compute. intros H.
  repeat (apply elem_of_cons in H as [H|H]; [discriminate|]).
  by apply elem_of_nil in H.
Qed.

(** C4.  Closing a named semaphore whose state can be read writes the live
    value back to the record under the advisory lock and then closes the
    semaphore, returning what semaphore::close returns; where the lock, the
    seek or the write fails, -1 is returned and the semaphore is not closed.
    Either way the lock is released and the descriptor closed last. *)
Theorem sem_close_flushes_then_releases (o : close_oracle) (sf : sem_finfo) :
  co_getinternal o = Some sf →
  (flush_ok o →
     sem_close o =
       (co_semaphore_close o,
        [EvFlock sizeof_sf; EvLseek; EvWrite sf; EvSemaphoreClose;
         EvFunlock; EvCloseFd])) ∧
  (¬ flush_ok o →
     (sem_close o).1 = -1 ∧
     (EvSemaphoreClose ∉ (sem_close o).2) ∧
     ∃ tr, (sem_close o).2 = tr ++ [EvFunlock; EvCloseFd]).
Proof.
  intros Hsf. unfold sem_close, _sem_close, flush_ok, flock_lock, flock_unlock.
  rewrite Hsf. simpl.
  destruct (Z.eqb_spec (co_lock o) 0) as [Hl|Hl]; simpl.
  - destruct (Z.eqb_spec (co_lseek o) (-1)) as [Hs|Hs]; simpl.
    + split; [intros (_ & ? & _); done|]. intros _. split_and!; [done| |].
      * intros H. repeat (apply elem_of_cons in H as [H|H]; [discriminate|]).
        by apply elem_of_nil in H.
      * by exists [EvFlock sizeof_sf; EvLseek].
    + destruct (Z.eqb_spec (co_write o) sizeof_sf) as [Hw|Hw]; simpl.
      * split; [done|]. intros Hn. exfalso. by apply Hn.
      * split; [intros (_ & _ & ?); done|]. intros _. split_and!; [done| |].
        -- intros H.
           repeat (apply elem_of_cons in H as [H|H]; [discriminate|]).
           by apply elem_of_nil in H.
        -- by exists [EvFlock sizeof_sf; EvLseek; EvWrite sf].
  - split; [intros (? & _); done|]. intros _. split_and!; [done| |].
    + intros H. repeat (apply elem_of_cons in H as [H|H]; [discriminate|]).
      by apply elem_of_nil in H.
    + by exists [EvFlock sizeof_sf].
Qed.

Lemma sem_close_flushes_then_releases_witness :
  sem_close flush_goes =
    (0, [EvFlock sizeof_sf; EvLseek; EvWrite sample_sf; EvSemaphoreClose;
         EvFunlock; EvCloseFd]).
Proof.
  apply (proj1 (sem_close_flushes_then_releases flush_goes sample_sf eq_refl)).
  unfold flush_ok. simpl. repeat split; [discriminate].
Defined.

End SemClose.

Lemma notifications_app tr1 tr2 :
  notifications (tr1 ++ tr2) = notifications tr1 ++ notifications tr2.
Proof. apply List.filter_app. Qed.

Lemma notifications_notify_events h :
  notifications (notify_events h) = notify_events h.
Proof.
  unfold notify_events. destruct (notified h); [|done].
  by destruct (sigev_notify (mqh_event h)).
Qed.

Section Notification.
Context `{P : Platform}.


End Notification.

(** Registering on a queue that has no registration, or whose registered
    process is gone, arms the notification for the caller. *)
Lemma mq_notify_registers `{P : Platform} (ev : sigevent) (pid : Z)
    (owner_gone : bool) (w : world) :
  mqi_magic (w_info w) = MQI_MAGIC →
  mqh_pid (seg_hdr (w_seg w)) = 0 ∨ owner_gone = true →
  ∃ w',
    mq_notify (Some ev) pid owner_gone WAIT_OBJECT_0 w = Ok 0 w' ∧
    seg_hdr (w_seg w') = set_event ev (set_pid pid (seg_hdr (w_seg w))) ∧
    seg_msgs (w_seg w') = seg_msgs (w_seg w).
Proof.
  destruct w as [[h msgs] info tr]. proj. intros Hmagic Hfree.
  unfold mq_notify, ipc_mutex_lock, ipc_mutex_unlock, modify_hdr, bind,
    get_info, get_hdr, put_hdr, emit, ret. proj.
  rewrite Hmagic, Z.eqb_refl. simpl.
  assert (negb (mqh_pid h =? 0) && negb owner_gone = false) as ->.
  { destruct Hfree as [-> | ->]; [done|]. by rewrite andb_false_r. }
  by eexists.
Qed.

Lemma registered_queue_rep : mq_rep (w_seg registered_queue) [].
Proof.
  apply mq_rep_nil; [apply mq_invb_sound; vm_compute; reflexivity|].
  vm_compute. reflexivity.
Qed.



Lemma header_invb_sound s : header_invb s = true → header_invariant s.
Proof.
  unfold header_invb.
  destruct (walk _ _ (active_head s)) as [act|] eqn:Ha; [|done].
  destruct (walk _ _ (free_head s)) as [fr|] eqn:Hf; [|done].
  rewrite !andb_true_iff.
  intros [[?%Z.leb_le ?%Z.leb_le] ?%Z.eqb_eq].
  exists act, fr. split_and!; eauto using walk_chain.
Qed.

Section WouldBlock.
Context `{P : Platform}.

(** C6.  A send to a full queue through a non-blocking descriptor changes
    nothing in the segment (live count, lists, payloads and registration) nor
    in the descriptor and delivers no notification, however it ends; with a
    valid descriptor and message and the lock acquired it takes the lock,
    fails with EAGAIN and releases the lock. *)
Theorem full_nonblocking_send_would_block (w : world) (ptr : list byte)
    (prio : Z) (abstime : option timespec) (lock : cygwait_t)
    (waits : list wait_oracle) :
  0 < maxmsg (w_seg w) →
  curmsgs (w_seg w) = maxmsg (w_seg w) →
  is_nonblock (w_info w) = true →
  (∀ w', res_world (_mq_send ptr prio abstime lock waits w) = Some w' →
         w_seg w' = w_seg w ∧ w_info w' = w_info w ∧
         notifications (w_trace w') = notifications (w_trace w)) ∧
  (mqi_magic (w_info w) = MQI_MAGIC →
   prio < MQ_PRIO_MAX →
   Z.of_nat (length ptr) ≤ msgsize (w_seg w) →
   lock = WAIT_OBJECT_0 ∨ lock = WAIT_ABANDONED_0 →
   _mq_send ptr prio abstime lock waits w =
     Leave EAGAIN {| w_seg := w_seg w; w_info := w_info w;
                     w_trace := w_trace w ++ [EvLock; EvReleaseMutex] |}).
Proof.
  destruct w as [[h msgs] info tr0]. unfold maxmsg, curmsgs, msgsize. proj.
  intros Hmax Hfull Hnb.
  assert (∀ tr, mq_send_locked ptr prio abstime waits
                  {| w_seg := {| seg_hdr := h; seg_msgs := msgs |};
                     w_info := info; w_trace := tr |} =
                (if Z.of_nat (length ptr) >? mq_msgsize (mqh_attr h)
                 then Leave EMSGSIZE else Leave EAGAIN)
                  {| w_seg := {| seg_hdr := h; seg_msgs := msgs |};
                     w_info := info; w_trace := tr |})
    as Hlocked.
  { intros tr. unfold mq_send_locked, send_admit, bind, get_hdr, get_info,
      queue_empty, queue_full. proj.
    destruct (_ >? _); [done|].
    destruct (Z.eqb_spec (mq_curmsgs (mqh_attr h)) 0); [lia|].
    destruct (Z.geb_spec (mq_curmsgs (mqh_attr h)) (mq_maxmsg (mqh_attr h)));
      [|lia].
    by rewrite Hnb. }
  split.
  - intros w'. unfold _mq_send, bind, get_info. proj.
    destruct (negb _); [by intros [= <-]|].
    destruct (prio >=? MQ_PRIO_MAX); [by intros [= <-]|].
    destruct lock; simpl; try by intros [= <-].
    all: unfold unlock_after; rewrite Hlocked;
      destruct (_ >? _); unfold ipc_mutex_unlock, bind, emit, ret, leave;
      proj; simpl; intros [= <-]; simpl;
      rewrite ?notifications_app, ?app_nil_r; done.
  - intros Hmagic Hprio Hlen Hlock. unfold _mq_send, bind, get_info. proj.
    rewrite Hmagic, Z.eqb_refl. simpl.
    destruct (Z.geb_spec prio MQ_PRIO_MAX); [lia|].
    destruct Hlock as [-> | ->]; simpl; unfold unlock_after; rewrite Hlocked;
      (destruct (Z.gtb_spec (Z.of_nat (length ptr))
                  (mq_msgsize (mqh_attr h))); [lia|]);
      unfold ipc_mutex_unlock, bind, emit, ret, leave; proj;
      by rewrite <- app_assoc.
Qed.

End WouldBlock.

Lemma full_queue_is_full :
  curmsgs (w_seg full_queue) = 3 ∧ maxmsg (w_seg full_queue) = 3.
Proof. split; vm_compute; reflexivity. Qed.

Lemma full_nonblocking_send_would_block_witness :
  mq_send (P := cygwin64) ["D"%byte] 2 WAIT_OBJECT_0 [] full_queue =
    Leave EAGAIN
      {| w_seg := w_seg full_queue; w_info := w_info full_queue;
         w_trace := w_trace full_queue ++ [EvLock; EvReleaseMutex] |}.
Proof.
  apply (proj2 (full_nonblocking_send_would_block (P := cygwin64) full_queue
                  ["D"%byte] 2 None WAIT_OBJECT_0 []
                  ltac:(vm_compute; reflexivity)
                  ltac:(vm_compute; reflexivity)
                  ltac:(vm_compute; reflexivity)));
    [vm_compute; reflexivity|vm_compute; reflexivity
    |vm_compute; discriminate|by left].
Defined.

(** C7, as stated, fails: a header that counts one message while the list of
    messages is empty satisfies the invariant as the design document words
    it, and receiving from it ends in [api_fatal]. *)
Lemma miscounted_queue_is_fatal :
  header_invariant (w_seg miscounted_queue) ∧
  ∃ w', mq_receive (P := cygwin64) 4 WAIT_OBJECT_0 [] miscounted_queue
          = Fatal w'.
Proof.
  split.
  - apply header_invb_sound. vm_compute. reflexivity.
  - eexists. vm_compute. reflexivity.
Qed.

Section Attributes.
Context `{P : Platform}.

Lemma send_enqueue_fatal ptr prio w :
  free_head (w_seg w) = 0 → send_enqueue ptr prio w = Fatal w.
Proof.
  unfold free_head, send_enqueue, bind, get_hdr, api_fatal. by intros ->.
Qed.

Lemma receive_dequeue_fatal w :
  active_head (w_seg w) = 0 → receive_dequeue w = Fatal w.
Proof.
  unfold active_head, receive_dequeue, bind, get_hdr, api_fatal. by intros ->.
Qed.

Lemma mq_inv_counted s : mq_inv s → counted_invariant s.
Proof.
  intros (q & act & fr & [Ha Hf _ _] & Hm & Hl & Hc & _).
  exists act, fr. split_and!; try done. lia.
Qed.

Lemma counted_header_invariant s : counted_invariant s → header_invariant s.
Proof.
  intros (act & fr & Ha & Hf & Hm & Hl & Hc).
  exists act, fr. split_and!; try done; lia.
Qed.

(** C7.  An empty free list met by a send that found room, and an empty list
    of messages met by a receive that found the live count above 0, end the
    call in [api_fatal], not in an error return.  On a queue that satisfies
    the invariant of the header and whose capacity is at least 1 and whose
    live count is the length of the list of messages, no send and no receive
    ends there, whatever the lock and the waits do, as long as the other
    openers keep the same. *)
Theorem fatal_only_on_corruption (w : world) (ptr : list byte) (prio : Z)
    (maxlen : Z) (abstime : option timespec) (lock : cygwait_t)
    (waits : list wait_oracle) :
  counted_invariant (w_seg w) →
  Forall env_counted waits →
  (∀ w0,
      mqi_magic (w_info w0) = MQI_MAGIC → prio < MQ_PRIO_MAX →
      Z.of_nat (length ptr) ≤ msgsize (w_seg w0) →
      curmsgs (w_seg w0) < maxmsg (w_seg w0) →
      free_head (w_seg w0) = 0 →
      ∃ w', _mq_send ptr prio abstime WAIT_OBJECT_0 waits w0 = Fatal w') ∧
  (∀ w0,
      mqi_magic (w_info w0) = MQI_MAGIC →
      msgsize (w_seg w0) ≤ maxlen →
      curmsgs (w_seg w0) ≠ 0 →
      active_head (w_seg w0) = 0 →
      ∃ w', _mq_receive maxlen abstime WAIT_OBJECT_0 waits w0 = Fatal w') ∧
  not_fatal (_mq_send ptr prio abstime lock waits w) ∧
  not_fatal (_mq_receive maxlen abstime lock waits w).
Proof.
  intros Hinv Hok. split_and!.
  - intros w0 Hmagic Hprio Hlen Hroom Hfree.
    unfold _mq_send. unfold bind at 1, get_info at 1.
    rewrite Hmagic, Z.eqb_refl. simpl.
    destruct (Z.geb_spec prio MQ_PRIO_MAX); [lia|].
    unfold bind, ipc_mutex_lock, emit, ret, unlock_after. fold (locked w0).
    unfold mq_send_locked. unfold bind at 1, get_hdr at 1.
    unfold msgsize in Hlen. change (w_seg (locked w0)) with (w_seg w0).
    destruct (Z.gtb_spec (Z.of_nat (length ptr))
                (mq_msgsize (mqh_attr (seg_hdr (w_seg w0))))); [lia|].
    rewrite (bind_Ok _ _ _ _ _
               (send_admit_room abstime waits (locked w0) Hroom)).
    rewrite send_enqueue_fatal; [by eexists|].
    unfold after_notify, free_head in *. simpl.
    by destruct (notified (seg_hdr (w_seg w0))).
  - intros w0 Hmagic Hlen Hne Hhead.
    unfold _mq_receive. unfold bind at 1, get_info at 1.
    rewrite Hmagic, Z.eqb_refl. simpl.
    unfold bind, ipc_mutex_lock, emit, ret, unlock_after. fold (locked w0).
    unfold mq_receive_locked. unfold bind at 1, get_hdr at 1.
    unfold msgsize in Hlen. change (w_seg (locked w0)) with (w_seg w0).
    destruct (Z.ltb_spec maxlen
                (mq_msgsize (mqh_attr (seg_hdr (w_seg w0))))); [lia|].
    rewrite (bind_Ok _ _ _ tt (locked w0));
      [|by apply receive_admit_some].
    rewrite receive_dequeue_fatal; [by eexists|done].
  - by apply mq_send_not_fatal.
  - by apply mq_receive_not_fatal.
Qed.

(** C8.  A timed condition wait with a malformed deadline returns EINVAL at
    once: the world is as before, so nothing was done to the mutex, to the
    event or to the segment (no ReleaseMutex, no ResetEvent, no timer). *)
Theorem timedwait_rejects_bad_deadline (evt : cond) (ts : timespec)
    (o : wait_oracle) (w : world) :
  valid_timespec ts = false →
  ipc_cond_timedwait evt (Some ts) o w = Ok (Some EINVAL) w.
Proof.
  intros Hts. unfold ipc_cond_timedwait, arm_timer, bind, ret.
  by rewrite Hts.
Qed.

Lemma land_lor_same f m : Z.land (Z.lor f m) m = m.
Proof.
  apply Z.bits_inj'. intros n Hn. rewrite Z.land_spec, Z.lor_spec.
  by destruct (Z.testbit f n), (Z.testbit m n).
Qed.

Lemma land_lnot_same f m : Z.land (Z.land f (Z.lnot m)) m = 0.
Proof.
  apply Z.bits_inj'. intros n Hn.
  rewrite !Z.land_spec, Z.lnot_spec, Z.bits_0 by done.
  by destruct (Z.testbit f n), (Z.testbit m n).
Qed.

Lemma land_lor_lnot f m : Z.land (Z.lor f m) (Z.lnot m) = Z.land f (Z.lnot m).
Proof.
  apply Z.bits_inj'. intros n Hn.
  rewrite !Z.land_spec, Z.lor_spec, Z.lnot_spec by done.
  by destruct (Z.testbit f n), (Z.testbit m n).
Qed.

Lemma land_land_lnot f m :
  Z.land (Z.land f (Z.lnot m)) (Z.lnot m) = Z.land f (Z.lnot m).
Proof.
  apply Z.bits_inj'. intros n Hn.
  rewrite !Z.land_spec, Z.lnot_spec by done.
  by destruct (Z.testbit f n), (Z.testbit m n).
Qed.

(** C9.  [mq_setattr] leaves the segment alone, and with it capacity, message
    size and live count, and changes nothing in the descriptor but the
    O_NONBLOCK bits of its flags, however it ends; on a valid descriptor
    with the lock acquired it returns 0, hands back the attributes from
    before the change where the caller asked for them, and a following
    [mq_getattr] shows the blocking mode that was asked for together with
    the unchanged capacity, message size and live count. *)
Theorem setattr_changes_blocking_flag_only (w : world) (mqstat : mq_attr)
    (omqstat : bool) (lock : cygwait_t) :
  (∀ w', res_world (mq_setattr mqstat omqstat lock w) = Some w' →
         w_seg w' = w_seg w ∧
         mqi_magic (w_info w') = mqi_magic (w_info w) ∧
         Z.land (mqi_flags (w_info w')) (Z.lnot O_NONBLOCK) =
           Z.land (mqi_flags (w_info w)) (Z.lnot O_NONBLOCK)) ∧
  (mqi_magic (w_info w) = MQI_MAGIC →
   ∃ w' now w'',
     mq_setattr mqstat omqstat WAIT_OBJECT_0 w =
       Ok (if omqstat
           then Some {| mq_flags := mqi_flags (w_info w);
                        mq_maxmsg := maxmsg (w_seg w);
                        mq_msgsize := msgsize (w_seg w);
                        mq_curmsgs := curmsgs (w_seg w) |}
           else None) w' ∧
     mq_getattr WAIT_OBJECT_0 w' = Ok now w'' ∧
     (Z.land (mq_flags now) O_NONBLOCK =? 0) =
       (Z.land (mq_flags mqstat) O_NONBLOCK =? 0) ∧
     mq_maxmsg now = maxmsg (w_seg w) ∧
     mq_msgsize now = msgsize (w_seg w) ∧
     mq_curmsgs now = curmsgs (w_seg w)).
Proof.
  destruct w as [[h msgs] [flags magic] tr].
  unfold maxmsg, curmsgs, msgsize. proj. split.
  - intros w'. unfold mq_setattr, bind, get_info. proj. simpl.
    destruct (negb _); [by intros [= <-]|].
    destruct lock; simpl; try by intros [= <-].
    all: unfold ipc_mutex_unlock, bind, get_hdr, put_info, emit, ret; proj;
      intros [= <-]; simpl; split_and!; try done;
      destruct (negb _); by rewrite ?land_lor_lnot, ?land_land_lnot.
  - simpl. intros ->.
    unfold mq_setattr, mq_getattr, ipc_mutex_lock, ipc_mutex_unlock, bind,
      get_info, get_hdr, put_info, emit, ret. proj. simpl.
    rewrite Z.eqb_refl. simpl. eexists _, _, _.
    split; [reflexivity|]. rewrite Z.eqb_refl. simpl.
    split; [reflexivity|]. simpl. split_and!; try done.
    destruct (Z.eqb_spec (Z.land (mq_flags mqstat) O_NONBLOCK) 0) as [He|Hne];
      simpl.
    + by rewrite land_lnot_same.
    + rewrite land_lor_same. apply Z.eqb_neq. intros Hm. apply Hne.
      rewrite Hm. apply Z.land_0_r.
Qed.

Lemma mq_open_create_run dflt oflag attr o w :
  calls_ok o →
  (∀ a, attr = Some a → attr_ok a) →
  init_queue (default dflt attr)
    (mqinfo_create (default dflt attr)
       (Z.land (Z.land oflag (Z.lor O_CREAT (Z.lor O_EXCL O_NONBLOCK)))
          O_NONBLOCK)) = Ok tt w →
  mq_open_create dflt oflag attr o = Opened w.
Proof.
  intros (Ho & Ht & Hn & Hb & Hc & Hf) Hattr Hrun. unfold mq_open_create.
  rewrite Ho, Ht, Hn, Hb, Hc, Hf. simpl.
  destruct attr as [a|]; simpl in *.
  - destruct (Hattr a eq_refl) as [[? ?] [? ?]].
    destruct (Z.leb_spec (mq_maxmsg a) 0); [lia|].
    destruct (Z.gtb_spec (mq_maxmsg a) 32768); [lia|].
    destruct (Z.leb_spec (mq_msgsize a) 0); [lia|].
    destruct (Z.gtb_spec (mq_msgsize a) 1048576); [lia|].
    simpl. by rewrite Hrun.
  - by rewrite Hrun.
Qed.

(** C10.  [mq_open] that makes the queue for a caller who passed no
    attributes takes them from [defattr], as it is, without the range check:
    with the initial [defattr] the queue has capacity 10 and message size
    8192; attributes the caller passes are checked and rejected with EINVAL
    (and the file removed) outside 1..32768 and 1..1048576. *)
Theorem null_attr_uses_defaults (dflt : mq_attr) (oflag : Z)
    (o : open_oracle) :
  calls_ok o →
  0 < sizeof_long →
  (∃ w, mq_open_create defattr oflag None o = Opened w ∧
        maxmsg (w_seg w) = 10 ∧ msgsize (w_seg w) = 8192 ∧
        curmsgs (w_seg w) = 0) ∧
  (0 < mq_maxmsg dflt → 0 ≤ mq_msgsize dflt →
   ∃ w, mq_open_create dflt oflag None o = Opened w ∧
        maxmsg (w_seg w) = mq_maxmsg dflt ∧
        msgsize (w_seg w) = mq_msgsize dflt) ∧
  (∀ a, attr_rejected a →
        mq_open_create dflt oflag (Some a) o = Failed EINVAL true).
Proof.
  intros Hcalls Hlong.
  assert (∀ d, 0 < mq_maxmsg d → 0 ≤ mq_msgsize d →
            ∃ w, mq_open_create d oflag None o = Opened w ∧
                 maxmsg (w_seg w) = mq_maxmsg d ∧
                 msgsize (w_seg w) = mq_msgsize d ∧
                 curmsgs (w_seg w) = 0) as Hnull.
  { intros d Hm Hs.
    destruct (init_queue_run d
                (Z.land (Z.land oflag (Z.lor O_CREAT (Z.lor O_EXCL O_NONBLOCK)))
                   O_NONBLOCK))
      as (w & Hrun & _ & _ & Hattr & _); [done| |].
    { unfold slot_size, MSGSIZE, sizeof_msg_hdr.
      pose proof (roundup_bounds (mq_msgsize d) sizeof_long Hlong Hs). lia. }
    exists w. unfold maxmsg, msgsize, curmsgs. rewrite Hattr. simpl.
    split; [|done]. by apply mq_open_create_run. }
  split_and!.
  - destruct (Hnull defattr) as (w & ? & ? & ? & ?); [done..|]. by exists w.
  - intros Hm Hs. destruct (Hnull dflt Hm Hs) as (w & ? & ? & ? & _).
    by exists w.
  - intros a Hrej. destruct Hcalls as (Ho & _). unfold mq_open_create.
    rewrite Ho. unfold attr_rejected in Hrej.
    destruct (Z.leb_spec (mq_maxmsg a) 0); [done|].
    destruct (Z.gtb_spec (mq_maxmsg a) 32768); [done|].
    destruct (Z.leb_spec (mq_msgsize a) 0); [done|].
    destruct (Z.gtb_spec (mq_msgsize a) 1048576); [done|]. lia.
Qed.

End Attributes.

Lemma fatal_only_on_corruption_witness :
  not_fatal (mq_send (P := cygwin64) ["A"%byte] 1 WAIT_OBJECT_0 []
               blocking_queue) ∧
  not_fatal (mq_receive (P := cygwin64) 4 WAIT_OBJECT_0 [] blocking_queue).
Proof.
  pose proof (fatal_only_on_corruption (P := cygwin64) blocking_queue
                ["A"%byte] 1 4 None WAIT_OBJECT_0 []
                ltac:(apply mq_inv_counted, mq_invb_sound;
                      vm_compute; reflexivity)
                (Forall_nil_2 _)) as H.
  exact (proj2 (proj2 H)).
Defined.

Lemma timedwait_rejects_bad_deadline_witness :
  ipc_cond_timedwait (P := cygwin64) mqi_waitsend (Some bad_deadline)
    timed_out full_queue = Ok (Some EINVAL) full_queue.
Proof.
  apply (timedwait_rejects_bad_deadline (P := cygwin64)). reflexivity.
Defined.

Lemma setattr_changes_blocking_flag_only_witness :
  ∃ w' now w'',
    mq_setattr (P := cygwin64) want_nonblock true WAIT_OBJECT_0 blocking_queue
      = Ok (Some {| mq_flags := 0; mq_maxmsg := 3; mq_msgsize := 4;
                    mq_curmsgs := 0 |}) w' ∧
    mq_getattr (P := cygwin64) WAIT_OBJECT_0 w' = Ok now w'' ∧
    (Z.land (mq_flags now) (@O_NONBLOCK cygwin64) =? 0) = false ∧
    mq_maxmsg now = 3 ∧ mq_msgsize now = 4 ∧ mq_curmsgs now = 0.
Proof.
  exact (proj2 (setattr_changes_blocking_flag_only (P := cygwin64)
                  blocking_queue want_nonblock true WAIT_OBJECT_0) eq_refl).
Defined.

Lemma null_attr_uses_defaults_witness :
  (∃ w, mq_open_create (P := cygwin64) defattr (@O_CREAT cygwin64) None all_ok
          = Opened w ∧
        maxmsg (w_seg w) = 10 ∧ msgsize (w_seg w) = 8192 ∧
        curmsgs (w_seg w) = 0) ∧
  (∃ w, mq_open_create (P := cygwin64) wide_attr (@O_CREAT cygwin64) None
          all_ok = Opened w ∧
        maxmsg (w_seg w) = 40000 ∧ msgsize (w_seg w) = 8).
Proof.
  pose proof (null_attr_uses_defaults (P := cygwin64) wide_attr
                (@O_CREAT cygwin64) all_ok) as H.
  destruct H as (H1 & H2 & _).
  - unfold calls_ok. simpl. repeat split.
  - simpl. lia.
  - split; [exact H1|]. apply H2; simpl; lia.
Defined.

(** ** Names *)

Section NameProps.
Context `{P : Platform} `{F : Files}.

Lemma check_path_Checked path type name len res :
  check_path path type (Some name) len = Checked res →
  ∃ c rest,
    name = c :: rest ∧ is_slash c = true ∧ rest ≠ [] ∧
    existsb is_slash rest = false ∧
    len ≤ NAME_MAX - (match type with semaphore => 4 | _ => 0 end) ∧
    res = prefix (ipc_names type) ++ ["/"%byte]
          ++ (match type with semaphore => sem_dot | _ => [] end) ++ rest.
Proof.
  unfold check_path.
  destruct (negb (pc_error path =? 0) || negb (pc_exists path)
            || negb (pc_isdir path)); [done|].
  destruct name as [|c rest]; [done|].
  destruct (is_slash c) eqn:Hc; [|done]. simpl.
  destruct rest as [|c' rest']; [done|].
  destruct (existsb is_slash (c' :: rest')) eqn:Hex; [done|].
  destruct (len >? _) eqn:Hgt; [done|].
  intros [= <-]. exists c, (c' :: rest'). split_and!; try done.
  rewrite Z.gtb_ltb in Hgt. apply Z.ltb_ge in Hgt.
  destruct type; simpl in *; lia.
Qed.

Lemma check_path_accepts path type c rest len :
  pc_error path = 0 → pc_exists path = true → pc_isdir path = true →
  is_slash c = true → rest ≠ [] → existsb is_slash rest = false →
  len ≤ NAME_MAX - (match type with semaphore => 4 | _ => 0 end) →
  check_path path type (Some (c :: rest)) len =
    Checked (prefix (ipc_names type) ++ ["/"%byte]
             ++ (match type with semaphore => sem_dot | _ => [] end) ++ rest).
Proof.
  intros He Hx Hd Hc Hne Hex Hlen. unfold check_path.
  rewrite He, Hx, Hd, Hc, Hex. simpl.
  destruct rest as [|c' rest']; [done|].
  destruct (len >? _) eqn:Hgt; [|done].
  rewrite Z.gtb_ltb in Hgt. apply Z.ltb_lt in Hgt.
  destruct type; simpl in *; lia.
Qed.

Lemma check_path_usable path type name len res :
  check_path path type name len = Checked res →
  pc_error path = 0 ∧ pc_exists path = true ∧ pc_isdir path = true.
Proof.
  unfold check_path.
  destruct (Z.eqb_spec (pc_error path) 0), (pc_exists path), (pc_isdir path);
    simpl; done.
Qed.

(** X1.  The name [check_path] writes to [res_name], with its terminating
    NUL, takes one byte less than the array that [shm_open], [shm_unlink],
    [mq_open], [mq_unlink], [sem_open] and [sem_unlink] pass for it, whose
    size is the [prefix_len] of the table plus the length of the name. *)
Theorem check_path_fits_buffer (path : path_conv) (type : ipc_type_t)
    (name res : list byte) :
  check_path path type (Some name) (Z.of_nat (length name)) = Checked res →
  Z.of_nat (length res) + 1 = name_buffer type (Z.of_nat (length name)) - 1.
Proof.
  intros (c & rest & -> & _ & _ & _ & _ & ->)%check_path_Checked.
  unfold name_buffer. rewrite !length_app.
  destruct type; simpl; lia.
Qed.

(** X2.  Two names that [check_path] accepts for objects of the same type
    resolve to the same file exactly if they agree after the first byte:
    the leading slash and the leading backslash name the same object, and
    nothing else does. *)
Theorem check_path_same_file (path : path_conv) (type : ipc_type_t)
    (name1 name2 res1 res2 : list byte) (len1 len2 : Z) :
  check_path path type (Some name1) len1 = Checked res1 →
  check_path path type (Some name2) len2 = Checked res2 →
  res1 = res2 ↔ drop 1 name1 = drop 1 name2.
Proof.
  intros (c1 & rest1 & -> & _ & _ & _ & _ & ->)%check_path_Checked
         (c2 & rest2 & -> & _ & _ & _ & _ & ->)%check_path_Checked.
  simpl. rewrite !drop_0. split.
  - intros Heq. apply app_inv_head in Heq. injection Heq as Heq.
    by apply app_inv_head in Heq.
  - by intros ->.
Qed.

(** X3.  [check_path] reads behind the end of the name for the empty name,
    where the directory of the objects is there, and for no other argument:
    the empty name is not refused with EINVAL, the test for the leading slash
    lets it through. *)
Theorem check_path_overread_iff (path : path_conv) (type : ipc_type_t)
    (name : option (list byte)) (len : Z) :
  check_path path type name len = Overread ↔
  name = Some [] ∧
  pc_error path = 0 ∧ pc_exists path = true ∧ pc_isdir path = true.
Proof.
  unfold check_path. split.
  - destruct (Z.eqb_spec (pc_error path) 0), (pc_exists path),
      (pc_isdir path); simpl; try done.
    destruct name as [[|c rest]|]; try done.
    destruct (is_slash c); simpl; [|done].
    destruct rest; [done|]. destruct (existsb _ _); [done|].
    by destruct (len >? _).
  - intros (-> & -> & -> & ->). done.
Qed.

(** X4.  A named semaphore lives in the name space of the shared memory
    objects: what [sem_unlink] removes for the name "/x" is the file that
    [shm_unlink] removes for "/sem.x", and the file that [shm_open] opens
    for "/sem.x" whenever it opens one. *)
Theorem semaphore_is_shm_object (path : path_conv) (c : byte)
    (x semname : list byte) (r ret : Z) :
  sem_unlink path (c :: x) r = Calls (SYS_unlink semname) ret →
  shm_unlink path (c :: sem_dot ++ x) r = Calls (SYS_unlink semname) r ∧
  ∀ oflag mode r' shmname oflag' mode' ret',
    shm_open path (c :: sem_dot ++ x) oflag mode r' =
      Calls (SYS_open shmname oflag' mode') ret' →
    shmname = semname.
Proof.
  unfold sem_unlink, shm_unlink, shm_open, with_path.
  destruct (check_path path semaphore _ _) as [res| |] eqn:Hsem; try done.
  intros [= <- _].
  pose proof (check_path_usable _ _ _ _ _ Hsem) as (He & Hx & Hd).
  apply check_path_Checked in Hsem
    as (c' & rest & [= <- <-] & Hc & Hne & Hex & Hlen & ->).
  assert (check_path path shmem (Some (c :: sem_dot ++ x))
            (Z.of_nat (length (c :: sem_dot ++ x))) =
          Checked (prefix (ipc_names shmem) ++ ["/"%byte] ++ [] ++ sem_dot ++ x))
    as ->.
  { apply check_path_accepts; [done..| | |].
    - done.
    - by rewrite existsb_app, Hex.
    - rewrite length_cons, length_app in *. simpl in *. lia. }
  simpl. split; [done|].
  intros oflag mode r' shmname oflag' mode' ret'.
  destruct (_ || _); [done|]. by intros [= <- _ _ _].
Qed.

(** X5.  Where [shm_open] gets as far as [open], the name passed [check_path]
    and is the one it wrote, the access mode asked for is O_RDONLY or O_RDWR,
    no flag is set besides the access mode, O_CREAT, O_EXCL and O_TRUNC, and
    [open] gets these flags with O_CLOEXEC added and of the mode the nine
    permission bits only; what [open] returns is returned. *)
Theorem shm_open_reaches_open (path : path_conv) (name : list byte)
    (oflag mode r : Z) (shmname : list byte) (oflag' mode' ret : Z) :
  shm_open path name oflag mode r = Calls (SYS_open shmname oflag' mode') ret →
  check_path path shmem (Some name) (Z.of_nat (length name)) = Checked shmname ∧
  (Z.land oflag O_ACCMODE = O_RDONLY ∨ Z.land oflag O_ACCMODE = O_RDWR) ∧
  Z.land oflag (Z.lor O_ACCMODE (Z.lor O_CREAT (Z.lor O_EXCL O_TRUNC)))
    = oflag ∧
  oflag' = Z.lor oflag O_CLOEXEC ∧
  Z.land oflag' O_CLOEXEC = O_CLOEXEC ∧
  0 ≤ mode' ≤ 511 ∧ Z.land mode' 511 = Z.land mode 511 ∧
  ret = r.
Proof.
  unfold shm_open, with_path.
  destruct (check_path path shmem _ _) as [res| |]; try done.
  destruct (_ || _) eqn:Hbad; [done|].
  apply orb_false_iff in Hbad as [Hacc Hm].
  apply negb_false_iff, Z.eqb_eq in Hm.
  intros [= <- <- <- <-]. split_and!; try done.
  - apply andb_false_iff in Hacc
      as [Hacc|Hacc]; apply negb_false_iff, Z.eqb_eq in Hacc; auto.
  - apply Z.bits_inj'. intros i Hi.
    apply (f_equal (λ z, Z.testbit z i)) in Hm.
    rewrite Z.land_spec, Z.lnot_spec, Z.bits_0 in Hm by done.
    rewrite Z.land_spec.
    by destruct (Z.testbit oflag i), (Z.testbit (Z.lor _ _) i).
  - apply Z.bits_inj'. intros i Hi. rewrite Z.land_spec, Z.lor_spec.
    by destruct (Z.testbit oflag i), (Z.testbit O_CLOEXEC i).
  - by apply Z.land_nonneg; right.
  - assert (Z.land mode 511 = mode mod 512) as ->
      by (change 511 with (Z.ones 9); by rewrite Z.land_ones).
    pose proof (Z.mod_pos_bound mode 512). lia.
  - by rewrite <- Z.land_assoc, Z.land_diag.
Qed.

End NameProps.

Lemma check_path_fits_buffer_witness :
  check_path (F := cygwin_files) dir_there mqueue
    (Some slash_q) 2 = Checked (dev_mqueue ++ slash_q) ∧
  Z.of_nat (length (dev_mqueue ++ slash_q)) + 1 = name_buffer mqueue 2 - 1.
Proof.
  split; [reflexivity|].
  exact (check_path_fits_buffer (F := cygwin_files)
           dir_there mqueue slash_q (dev_mqueue ++ slash_q) eq_refl).
Defined.

Lemma check_path_same_file_witness :
  dev_mqueue ++ slash_q = dev_mqueue ++ slash_q ↔
  drop 1 slash_q = drop 1 backslash_q.
Proof.
  apply (check_path_same_file (F := cygwin_files) dir_there mqueue
           slash_q backslash_q _ _ 2 2); reflexivity.
Defined.

Lemma semaphore_is_shm_object_witness :
  shm_unlink (F := cygwin_files) dir_there slash_sem_q 0 =
    Calls (SYS_unlink (dev_shm ++ slash_sem_q)) 0 ∧
  ∀ oflag mode r' shmname oflag' mode' ret',
    shm_open (P := cygwin64) (F := cygwin_files) dir_there slash_sem_q
      oflag mode r' = Calls (SYS_open shmname oflag' mode') ret' →
    shmname = dev_shm ++ slash_sem_q.
Proof.
  apply (semaphore_is_shm_object (P := cygwin64) (F := cygwin_files)
           dir_there "/"%byte ["q"%byte] _ 0 0).
  reflexivity.
Defined.

Lemma shm_open_reaches_open_witness :
  check_path (F := cygwin_files) dir_there shmem (Some slash_q) 2 =
    Checked (dev_shm ++ slash_q) ∧
  (Z.land 0x202 3 = 0 ∨ Z.land 0x202 3 = 2) ∧
  Z.land 0x202 (Z.lor 3 (Z.lor 0x200 (Z.lor 0x800 0x400))) = 0x202 ∧
  0x40202 = Z.lor 0x202 0x40000 ∧
  Z.land 0x40202 0x40000 = 0x40000 ∧
  0 ≤ 420 ≤ 511 ∧ Z.land 420 511 = Z.land 0x81a4 511 ∧
  3 = 3.
Proof.
  apply (shm_open_reaches_open (P := cygwin64) (F := cygwin_files)
           dir_there slash_q 0x202 0x81a4 3 (dev_shm ++ slash_q)
           0x40202 420 3).
  reflexivity.
Defined.

(** ** Closing and registering *)

Section CloseProps.
Context `{P : Platform}.

Lemma mq_notify_unregister_run pid og lock w :
  mqi_magic (w_info w) = MQI_MAGIC → acquired lock →
  mq_notify None pid og lock w =
    Ok 0 {| w_seg := {| seg_hdr := if mqh_pid (seg_hdr (w_seg w)) =? pid
                                   then set_pid 0 (seg_hdr (w_seg w))
                                   else seg_hdr (w_seg w);
                        seg_msgs := seg_msgs (w_seg w) |};
            w_info := w_info w;
            w_trace := w_trace w ++ [EvLock; EvReleaseMutex] |}.
Proof.
  destruct w as [[h msgs] info tr]. proj. intros Hmagic Hlock.
  unfold mq_notify, bind, get_info. proj. rewrite Hmagic, Z.eqb_refl. simpl.
  destruct Hlock as [-> | ->]; simpl;
    unfold ipc_mutex_unlock, modify_hdr, bind, get_hdr, put_hdr, emit, ret;
    proj; destruct (mqh_pid h =? pid); proj; by rewrite <- app_assoc.
Qed.

Lemma mq_notify_register_run ev pid og lock w :
  mqi_magic (w_info w) = MQI_MAGIC → acquired lock →
  mq_notify (Some ev) pid og lock w =
    if negb (mqh_pid (seg_hdr (w_seg w)) =? 0) && negb og
    then Leave EBUSY {| w_seg := w_seg w; w_info := w_info w;
                        w_trace := w_trace w ++ [EvLock; EvReleaseMutex] |}
    else Ok 0 {| w_seg := {| seg_hdr := set_event ev
                                          (set_pid pid (seg_hdr (w_seg w)));
                             seg_msgs := seg_msgs (w_seg w) |};
                 w_info := w_info w;
                 w_trace := w_trace w ++ [EvLock; EvReleaseMutex] |}.
Proof.
  destruct w as [[h msgs] info tr]. proj. intros Hmagic Hlock.
  unfold mq_notify, bind, get_info. proj. rewrite Hmagic, Z.eqb_refl. simpl.
  destruct Hlock as [-> | ->]; simpl;
    unfold ipc_mutex_unlock, modify_hdr, bind, get_hdr, put_hdr, emit, ret,
      leave;
    proj; destruct (negb (mqh_pid h =? 0) && negb og); proj;
    by rewrite <- app_assoc.
Qed.

Lemma mq_rep_set_pid s q v :
  mq_rep s q →
  mq_rep {| seg_hdr := set_pid v (seg_hdr s); seg_msgs := seg_msgs s |} q.
Proof. by apply mq_rep_ext. Qed.

Lemma mq_rep_set_event s q ev :
  mq_rep s q →
  mq_rep {| seg_hdr := set_event ev (seg_hdr s); seg_msgs := seg_msgs s |} q.
Proof. by apply mq_rep_ext. Qed.

Lemma process_of_world_of mqd p info :
  cygheap_fdget mqd p = Some (fh_mqueue info) →
  process_of mqd p (world_of p info) = p.
Proof.
  destruct p as [fds s tr]. unfold cygheap_fdget, process_of, world_of.
  cbn [p_fds p_seg p_trace w_seg w_info w_trace]. intros Hfd.
  by rewrite insert_id.
Qed.

Lemma mq_close_run mqd pid lock p info :
  cygheap_fdget mqd p = Some (fh_mqueue info) →
  mqi_magic info = MQI_MAGIC →
  acquired lock →
  mq_close mqd pid lock p =
    POk 0 {| p_fds := delete mqd (p_fds p);
             p_seg := {| seg_hdr := if mqh_pid (seg_hdr (p_seg p)) =? pid
                                    then set_pid 0 (seg_hdr (p_seg p))
                                    else seg_hdr (p_seg p);
                         seg_msgs := seg_msgs (p_seg p) |};
             p_trace := p_trace p ++ [EvLock; EvReleaseMutex] |}.
Proof.
  intros Hfd Hmagic Hlock. unfold mq_close, through. rewrite Hfd.
  cbn [get_mqinfo]. rewrite Hmagic, Z.eqb_refl. cbn [negb].
  rewrite mq_notify_unregister_run by done.
  unfold release, process_of, world_of.
  cbn [p_fds p_seg p_trace w_seg w_info w_trace].
  by rewrite delete_insert_eq.
Qed.

(** X6.  [mq_close] takes the caller's registration for notification off the
    queue, leaves the registration of any other process, and leaves the
    messages of the queue and everything else in the segment as they are; it
    gives the descriptor up and no other, so that every later call on the
    descriptor, a second [mq_close] too, fails with EBADF and changes
    nothing.  Where the lock of the queue cannot be taken it returns -1 with
    the error of the lock, with nothing changed and the descriptor still
    open. *)
Theorem mq_close_unregisters_caller (p : process) (mqd pid : Z)
    (info : mq_info) (lock : cygwait_t) :
  cygheap_fdget mqd p = Some (fh_mqueue info) →
  mqi_magic info = MQI_MAGIC →
  (acquired lock →
   ∃ p',
     mq_close mqd pid lock p = POk 0 p' ∧
     p_fds p' = delete mqd (p_fds p) ∧
     mqh_pid (seg_hdr (p_seg p')) =
       (if mqh_pid (seg_hdr (p_seg p)) =? pid then 0
        else mqh_pid (seg_hdr (p_seg p))) ∧
     set_pid 0 (seg_hdr (p_seg p')) = set_pid 0 (seg_hdr (p_seg p)) ∧
     seg_msgs (p_seg p') = seg_msgs (p_seg p) ∧
     (∀ q, mq_rep (p_seg p) q → mq_rep (p_seg p') q) ∧
     (∀ pid' lock', mq_close mqd pid' lock' p' = PLeave EBADF p') ∧
     (∀ A (m : M A), through mqd m p' = PLeave EBADF p')) ∧
  (∀ e, mq_close mqd pid (WAIT_FAILED e) p = PLeave e p).
Proof.
  intros Hfd Hmagic. split.
  - intros Hlock. rewrite (mq_close_run mqd pid lock p info) by done.
    eexists. split; [reflexivity|]. cbn [p_fds p_seg p_trace].
    assert (∀ fds s tr,
              get_mqinfo
                (cygheap_fdget mqd
                   {| p_fds := delete mqd fds; p_seg := s; p_trace := tr |})
              = None) as Hgone.
    { intros fds s tr. unfold cygheap_fdget. cbn [p_fds].
      by rewrite lookup_delete_eq. }
    split_and!; try done.
    + by destruct (mqh_pid (seg_hdr (p_seg p)) =? pid).
    + by destruct (mqh_pid (seg_hdr (p_seg p)) =? pid).
    + intros q Hq.
      destruct (mqh_pid (seg_hdr (p_seg p)) =? pid).
      * by apply (mq_rep_set_pid _ _ 0) in Hq.
      * by destruct (p_seg p).
    + intros pid' lock'. unfold mq_close. by rewrite Hgone.
    + intros A m. unfold through. by rewrite Hgone.
  - intros e. unfold mq_close, through. rewrite Hfd. cbn [get_mqinfo].
    rewrite Hmagic, Z.eqb_refl. cbn [negb].
    unfold mq_notify, bind, get_info. cbn [world_of w_info].
    rewrite Hmagic, Z.eqb_refl. cbn [negb].
    unfold ipc_mutex_lock. simpl.
    by rewrite (process_of_world_of mqd p info Hfd).
Qed.

(** X7.  A queue has at most one registration.  While a process is
    registered and the probe [kill (mqh_pid, 0)] does not report it gone,
    [mq_notify] with a notification fails with EBUSY and changes nothing,
    also for the registered process itself.  Where the probe fails with
    ESRCH, the same call succeeds and puts the caller in the place of the
    process that is gone.  Once the owner has unregistered, the call
    registers the caller. *)
Theorem mq_notify_one_registration (w : world) (ev : sigevent) (pid : Z)
    (lock : cygwait_t) :
  mqi_magic (w_info w) = MQI_MAGIC →
  acquired lock →
  mqh_pid (seg_hdr (w_seg w)) ≠ 0 →
  mq_notify (Some ev) pid false lock w =
    Leave EBUSY {| w_seg := w_seg w; w_info := w_info w;
                   w_trace := w_trace w ++ [EvLock; EvReleaseMutex] |} ∧
  mq_notify (Some ev) pid true lock w =
    Ok 0 {| w_seg := {| seg_hdr := set_event ev
                                     (set_pid pid (seg_hdr (w_seg w)));
                        seg_msgs := seg_msgs (w_seg w) |};
            w_info := w_info w;
            w_trace := w_trace w ++ [EvLock; EvReleaseMutex] |} ∧
  ∀ og, ∃ w1 w2,
    mq_notify None (mqh_pid (seg_hdr (w_seg w))) og lock w = Ok 0 w1 ∧
    mq_notify (Some ev) pid og lock w1 = Ok 0 w2 ∧
    mqh_pid (seg_hdr (w_seg w2)) = pid ∧
    mqh_event (seg_hdr (w_seg w2)) = ev ∧
    seg_msgs (w_seg w2) = seg_msgs (w_seg w).
Proof.
  destruct w as [[h msgs] info tr]. proj. intros Hmagic Hlock Hpid.
  split_and!.
  - rewrite mq_notify_register_run by done. proj.
    by destruct (Z.eqb_spec (mqh_pid h) 0).
  - rewrite mq_notify_register_run by done. proj.
    by rewrite andb_false_r.
  - intros og. rewrite mq_notify_unregister_run by done. proj.
    rewrite Z.eqb_refl.
    eexists _, _. split; [reflexivity|].
    rewrite mq_notify_register_run by done. proj. simpl. done.
Qed.

(** X8.  Only the registered process can take the registration off:
    [mq_notify] with a null notification returns 0 for every caller, clears
    the registration if the caller is the registered process and changes
    nothing in the segment otherwise; doing it again changes nothing
    more. *)
Theorem mq_notify_unregisters_owner_only (w : world) (pid : Z)
    (lock : cygwait_t) :
  mqi_magic (w_info w) = MQI_MAGIC →
  acquired lock →
  ∃ w1 w2,
    mq_notify None pid false lock w = Ok 0 w1 ∧
    (mqh_pid (seg_hdr (w_seg w)) = pid →
       seg_hdr (w_seg w1) = set_pid 0 (seg_hdr (w_seg w))) ∧
    (mqh_pid (seg_hdr (w_seg w)) ≠ pid → w_seg w1 = w_seg w) ∧
    seg_msgs (w_seg w1) = seg_msgs (w_seg w) ∧
    mq_notify None pid false lock w1 = Ok 0 w2 ∧
    (pid ≠ 0 → w_seg w2 = w_seg w1).
Proof.
  destruct w as [[h msgs] info tr]. proj. intros Hmagic Hlock.
  rewrite mq_notify_unregister_run by done. proj.
  destruct (Z.eqb_spec (mqh_pid h) pid) as [Heq|Hne].
  - eexists _, _. split; [reflexivity|].
    rewrite mq_notify_unregister_run by done. proj.
    split_and!; try done. intros Hp. simpl. by destruct pid.
  - eexists _, _. split; [reflexivity|].
    rewrite mq_notify_unregister_run by done. proj.
    destruct (Z.eqb_spec (mqh_pid h) pid); [done|].
    split_and!; done.
Qed.

End CloseProps.

(** ** Errors of sending and receiving *)

Section CallErrors.
Context `{P : Platform}.

Lemma mq_send_unlocked ptr prio abstime lock waits w :
  mqi_magic (w_info w) = MQI_MAGIC → prio < MQ_PRIO_MAX → acquired lock →
  _mq_send ptr prio abstime lock waits w =
    unlock_after (mq_send_locked ptr prio abstime waits) (locked w).
Proof.
  destruct w as [[h msgs] info tr]. proj. intros Hmagic Hprio Hlock.
  unfold _mq_send, bind, get_info. proj. rewrite Hmagic, Z.eqb_refl. simpl.
  destruct (Z.geb_spec prio MQ_PRIO_MAX); [lia|].
  by destruct Hlock as [-> | ->].
Qed.

Lemma mq_receive_unlocked maxlen abstime lock waits w :
  mqi_magic (w_info w) = MQI_MAGIC → acquired lock →
  _mq_receive maxlen abstime lock waits w =
    unlock_after (mq_receive_locked maxlen abstime waits) (locked w).
Proof.
  destruct w as [[h msgs] info tr]. proj. intros Hmagic Hlock.
  unfold _mq_receive, bind, get_info. proj. rewrite Hmagic, Z.eqb_refl. simpl.
  by destruct Hlock as [-> | ->].
Qed.

(** X9.  [_mq_send] checks its arguments in this order: a descriptor whose
    stamp is wrong gives EBADF and a priority of MQ_PRIO_MAX or more gives
    EINVAL, both before the lock is touched and with nothing changed; a
    message longer than the message size of the queue gives EMSGSIZE once
    the lock is held, whether the queue is full or not and whatever the
    blocking mode, without waiting and without notification, and the lock is
    released. *)
Theorem mq_send_refuses_bad_arguments (w : world) (ptr : list byte)
    (prio : Z) (abstime : option timespec) (lock : cygwait_t)
    (waits : list wait_oracle) :
  (mqi_magic (w_info w) ≠ MQI_MAGIC →
     _mq_send ptr prio abstime lock waits w = Leave EBADF w) ∧
  (mqi_magic (w_info w) = MQI_MAGIC → MQ_PRIO_MAX ≤ prio →
     _mq_send ptr prio abstime lock waits w = Leave EINVAL w) ∧
  (mqi_magic (w_info w) = MQI_MAGIC → prio < MQ_PRIO_MAX → acquired lock →
   0 ≤ msgsize (w_seg w) < Z.of_nat (length ptr) →
     _mq_send ptr prio abstime lock waits w =
       Leave EMSGSIZE {| w_seg := w_seg w; w_info := w_info w;
                         w_trace := w_trace w ++ [EvLock; EvReleaseMutex] |}).
Proof.
  split_and!.
  - intros Hmagic. unfold _mq_send, bind, get_info.
    by destruct (Z.eqb_spec (mqi_magic (w_info w)) MQI_MAGIC).
  - intros Hmagic Hprio. unfold _mq_send, bind, get_info.
    rewrite Hmagic, Z.eqb_refl. simpl.
    by destruct (Z.geb_spec prio MQ_PRIO_MAX); [|lia].
  - intros Hmagic Hprio Hlock Hlen. rewrite mq_send_unlocked by done.
    destruct w as [[h msgs] info tr]. unfold msgsize in Hlen. proj in Hlen.
    unfold unlock_after, mq_send_locked, locked, bind, get_hdr. proj.
    destruct (Z.gtb_spec (Z.of_nat (length ptr)) (mq_msgsize (mqh_attr h)));
      [|lia].
    unfold leave, ipc_mutex_unlock, bind, emit, ret. proj.
    by rewrite <- app_assoc.
Qed.

(** X10.  [_mq_receive] wants a buffer of the message size of the queue: with
    a smaller one it fails with EMSGSIZE as soon as it holds the lock,
    whatever the queue holds and whatever the blocking mode, so also where
    the message at the head would fit; nothing is changed, nobody is counted
    as waiting, and the lock is released. *)
Theorem mq_receive_needs_full_buffer (w : world) (maxlen : Z)
    (abstime : option timespec) (lock : cygwait_t)
    (waits : list wait_oracle) :
  mqi_magic (w_info w) = MQI_MAGIC →
  acquired lock →
  0 ≤ maxlen < msgsize (w_seg w) →
  _mq_receive maxlen abstime lock waits w =
    Leave EMSGSIZE {| w_seg := w_seg w; w_info := w_info w;
                      w_trace := w_trace w ++ [EvLock; EvReleaseMutex] |}.
Proof.
  intros Hmagic Hlock Hlen. rewrite mq_receive_unlocked by done.
  destruct w as [[h msgs] info tr]. unfold msgsize in Hlen. proj in Hlen.
  unfold unlock_after, mq_receive_locked, locked, bind, get_hdr. proj.
  destruct (Z.ltb_spec maxlen (mq_msgsize (mqh_attr h))); [|lia].
  unfold leave, ipc_mutex_unlock, bind, emit, ret. proj.
  by rewrite <- app_assoc.
Qed.

(** X11.  A receive from an empty queue through a non-blocking descriptor
    changes nothing in the segment, so neither the count of waiting
    receivers, nor in the descriptor, however it ends; with a valid
    descriptor, a buffer that is large enough and the lock acquired it fails
    with EAGAIN without waiting and releases the lock. *)
Theorem empty_nonblocking_receive_would_block (w : world) (maxlen : Z)
    (abstime : option timespec) (lock : cygwait_t)
    (waits : list wait_oracle) :
  curmsgs (w_seg w) = 0 →
  is_nonblock (w_info w) = true →
  (∀ w', res_world (_mq_receive maxlen abstime lock waits w) = Some w' →
         w_seg w' = w_seg w ∧ w_info w' = w_info w) ∧
  (mqi_magic (w_info w) = MQI_MAGIC →
   0 ≤ msgsize (w_seg w) ≤ maxlen →
   acquired lock →
   _mq_receive maxlen abstime lock waits w =
     Leave EAGAIN {| w_seg := w_seg w; w_info := w_info w;
                     w_trace := w_trace w ++ [EvLock; EvReleaseMutex] |}).
Proof.
  destruct w as [[h msgs] info tr0]. unfold curmsgs, msgsize. proj.
  intros Hempty Hnb.
  assert (∀ tr, mq_receive_locked maxlen abstime waits
                  {| w_seg := {| seg_hdr := h; seg_msgs := msgs |};
                     w_info := info; w_trace := tr |} =
                (if maxlen <? mq_msgsize (mqh_attr h)
                 then Leave EMSGSIZE else Leave EAGAIN)
                  {| w_seg := {| seg_hdr := h; seg_msgs := msgs |};
                     w_info := info; w_trace := tr |})
    as Hlocked.
  { intros tr. unfold mq_receive_locked, receive_admit, bind, get_hdr,
      get_info, queue_empty. proj.
    destruct (_ <? _); [done|]. rewrite Hempty. simpl. proj.
    by rewrite Hnb. }
  split.
  - intros w'. unfold _mq_receive, bind, get_info. proj.
    destruct (negb _); [by intros [= <-]|].
    destruct lock; simpl; try by intros [= <-].
    all: unfold unlock_after; rewrite Hlocked;
      destruct (_ <? _); unfold ipc_mutex_unlock, bind, emit, ret, leave;
      proj; simpl; by intros [= <-].
  - intros Hmagic Hlen Hlock. rewrite mq_receive_unlocked by done.
    unfold unlock_after, locked. proj. rewrite Hlocked.
    destruct (Z.ltb_spec maxlen (mq_msgsize (mqh_attr h))); [lia|].
    unfold ipc_mutex_unlock, bind, emit, ret, leave. proj.
    by rewrite <- app_assoc.
Qed.

(** X12.  A signal that interrupts the wait for the lock of the queue makes
    [_mq_send] and [_mq_receive] return -1 with errno 1, the return value of
    [ipc_mutex_lock], which replaces the EINTR that [ipc_mutex_lock] had
    set; nothing is changed. *)
Theorem interrupted_lock_sets_errno_1 (w : world) (ptr : list byte)
    (prio maxlen : Z) (abstime : option timespec)
    (waits : list wait_oracle) :
  mqi_magic (w_info w) = MQI_MAGIC →
  prio < MQ_PRIO_MAX →
  ipc_mutex_lock WAIT_SIGNALED w = Ok (Some (ERAW 1)) w ∧
  _mq_send ptr prio abstime WAIT_SIGNALED waits w = Leave (ERAW 1) w ∧
  _mq_receive maxlen abstime WAIT_SIGNALED waits w = Leave (ERAW 1) w.
Proof.
  intros Hmagic Hprio. split_and!; try done.
  - unfold _mq_send, bind, get_info. rewrite Hmagic, Z.eqb_refl. simpl.
    by destruct (Z.geb_spec prio MQ_PRIO_MAX); [lia|].
  - unfold _mq_receive, bind, get_info. by rewrite Hmagic, Z.eqb_refl.
Qed.

End CallErrors.

(** ** The queue as a stable sort *)

Lemma put_perm x q : put x q ≡ₚ x :: q.
Proof.
  induction q as [|y q IH]; simpl; [done|].
  destruct (x.1 >? y.1); [done|]. rewrite IH. apply Permutation_swap.
Qed.

Lemma put_by_priority x q : by_priority q → by_priority (put x q).
Proof.
  induction q as [|y q IH]; simpl.
  - intros _. by split.
  - intros [Hy Hq]. destruct (Z.gtb_spec x.1 y.1) as [Hgt|Hle]; simpl.
    + split_and!; try done. constructor; [lia|].
      eapply Forall_impl; [exact Hy|]. simpl. intros. lia.
    + split; [|by apply IH]. rewrite put_perm. by constructor.
Qed.

Lemma of_priority_none p q :
  Forall (λ y, y.1 ≠ p) q → of_priority p q = [].
Proof.
  unfold of_priority. induction 1 as [|y q Hy _ IH]; [done|].
  by rewrite filter_cons_False.
Qed.

Lemma of_priority_put p x q :
  by_priority q →
  of_priority p (put x q) =
    of_priority p q ++ (if decide (x.1 = p) then [x] else []).
Proof.
  induction q as [|y q IH]; simpl.
  - intros _. unfold of_priority. rewrite filter_cons, filter_nil.
    by destruct (decide _).
  - intros [Hy Hq]. destruct (Z.gtb_spec x.1 y.1) as [Hgt|Hle].
    + unfold of_priority at 1. rewrite filter_cons.
      change (filter (λ y0 : message, y0.1 = p) (y :: q))
        with (of_priority p (y :: q)).
      destruct (decide (x.1 = p)) as [Hp|Hp]; [|by rewrite app_nil_r].
      rewrite of_priority_none; [done|].
      constructor; [lia|]. eapply Forall_impl; [exact Hy|]. simpl. lia.
    + unfold of_priority at 1 2. rewrite !filter_cons.
      change (filter (λ y0 : message, y0.1 = p) (put x q))
        with (of_priority p (put x q)).
      change (filter (λ y0 : message, y0.1 = p) q) with (of_priority p q).
      rewrite IH by done. by destruct (decide (y.1 = p)).
Qed.

Lemma puts_snoc q xs x : puts q (xs ++ [x]) = put x (puts q xs).
Proof. unfold puts. by rewrite foldl_app. Qed.

Lemma puts_perm q xs : puts q xs ≡ₚ q ++ xs.
Proof.
  induction xs as [|x xs IH] using rev_ind.
  - by rewrite app_nil_r.
  - rewrite puts_snoc, put_perm, IH, app_assoc.
    apply Permutation_cons_append.
Qed.

Lemma puts_by_priority q xs : by_priority q → by_priority (puts q xs).
Proof.
  intros Hq. induction xs as [|x xs IH] using rev_ind; [done|].
  rewrite puts_snoc. by apply put_by_priority.
Qed.

Lemma of_priority_puts p q xs :
  by_priority q →
  of_priority p (puts q xs) = of_priority p q ++ of_priority p xs.
Proof.
  intros Hq. induction xs as [|x xs IH] using rev_ind.
  - unfold of_priority. by rewrite filter_nil, app_nil_r.
  - rewrite puts_snoc, of_priority_put by by apply puts_by_priority.
    rewrite IH. unfold of_priority. rewrite filter_app, filter_cons, filter_nil.
    by rewrite <- app_assoc.
Qed.

Lemma puts_length q xs : length (puts q xs) = (length q + length xs)%nat.
Proof. by rewrite puts_perm, length_app. Qed.

Section DrainProps.
Context `{P : Platform}.

Lemma send_all_run xs : ∀ w q,
  mq_rep (w_seg w) q →
  mqi_magic (w_info w) = MQI_MAGIC →
  Forall (sendable (msgsize (w_seg w))) xs →
  Z.of_nat (length q + length xs) ≤ maxmsg (w_seg w) →
  ∃ w',
    send_all xs w = Ok tt w' ∧
    mq_rep (w_seg w') (puts q xs) ∧
    mqi_magic (w_info w') = MQI_MAGIC ∧
    maxmsg (w_seg w') = maxmsg (w_seg w) ∧
    msgsize (w_seg w') = msgsize (w_seg w).
Proof.
  induction xs as [|[prio ptr] xs IH]; intros w q Hq Hmagic Hxs Hroom.
  - by exists w.
  - set (x := (prio, ptr)) in *.
    apply Forall_cons in Hxs as [[Hprio Hlen] Hxs]. simpl in Hroom.
    destruct (mq_send_next x.2 x.1 None [] w q)
      as (w1 & Hrun & Hq1 & Hm1 & Hmax1 & Hsz1); try done; try lia.
    { apply mq_rep_length in Hq. lia. }
    assert (Forall (sendable (msgsize (w_seg w1))) xs) as Hxs1
      by by rewrite Hsz1.
    assert (Z.of_nat (length (put x q) + length xs) ≤ maxmsg (w_seg w1))
      as Hroom1 by (rewrite put_length, Hmax1; simpl; lia).
    destruct (IH w1 (put x q) Hq1 Hm1 Hxs1 Hroom1)
      as (w' & Hrun' & Hq' & Hm' & Hmax' & Hsz').
    exists w'. simpl. unfold mq_send. rewrite (bind_Ok _ _ _ _ _ Hrun).
    rewrite Hrun'. split_and!; try done; congruence.
Qed.

Lemma receive_n_run maxlen q : ∀ w,
  mq_rep (w_seg w) q →
  mqi_magic (w_info w) = MQI_MAGIC →
  msgsize (w_seg w) ≤ maxlen →
  ∃ outs w',
    receive_n (length q) maxlen w = Ok outs w' ∧
    message_of <$> outs = q ∧
    mq_rep (w_seg w') [] ∧
    mqi_magic (w_info w') = MQI_MAGIC ∧
    msgsize (w_seg w') = msgsize (w_seg w).
Proof.
  induction q as [|x q IH]; intros w Hq Hmagic Hlen.
  - by exists [], w.
  - destruct (mq_receive_next maxlen None [] w x q)
      as (out & w1 & Hrun & Hp & Hd & Hq1 & Hm1 & Hsz1); try done.
    assert (msgsize (w_seg w1) ≤ maxlen) as Hlen1 by by rewrite Hsz1.
    destruct (IH w1 Hq1 Hm1 Hlen1)
      as (outs & w' & Hrun' & Houts & Hq' & Hm' & Hsz').
    exists (out :: outs), w'. simpl. unfold mq_receive.
    rewrite (bind_Ok _ _ _ _ _ Hrun), (bind_Ok _ _ _ _ _ Hrun'). unfold ret.
    split_and!; try done; [|congruence].
    change (message_of out :: (message_of <$> outs) = x :: q).
    rewrite Houts. f_equal. unfold message_of. rewrite Hp, Hd.
    by destruct x.
Qed.

(** X13.  Receiving as many messages as a well-formed queue holds hands
    them back in the order of the queue, each with its priority and its
    bytes, and leaves an empty well-formed queue. *)
Theorem receiving_drains_in_order (w : world) (q : list message)
    (maxlen : Z) :
  mq_rep (w_seg w) q →
  mqi_magic (w_info w) = MQI_MAGIC →
  0 ≤ msgsize (w_seg w) ≤ maxlen →
  ∃ outs w',
    receive_n (length q) maxlen w = Ok outs w' ∧
    message_of <$> outs = q ∧
    mq_rep (w_seg w') [] ∧
    curmsgs (w_seg w') = 0.
Proof.
  intros Hq Hmagic [_ Hlen].
  destruct (receive_n_run maxlen q w) as (outs & w' & Hrun & Ho & Hq' & _);
    try done.
  exists outs, w'. split_and!; try done. by apply mq_rep_length in Hq'.
Qed.

(** X14.  The queue sorts by priority and is stable: messages sent to an
    empty queue that has room for all of them come back, when as many are
    received, highest priority first and, among those of one priority, in
    the order in which they were sent; none is lost, none is made up. *)
Theorem queue_sorts_stably (w : world) (xs : list message) (maxlen : Z) :
  mq_rep (w_seg w) [] →
  mqi_magic (w_info w) = MQI_MAGIC →
  Forall (sendable (msgsize (w_seg w))) xs →
  Z.of_nat (length xs) ≤ maxmsg (w_seg w) →
  0 ≤ msgsize (w_seg w) ≤ maxlen →
  ∃ outs w',
    (send_all xs ;;; receive_n (length xs) maxlen) w = Ok outs w' ∧
    message_of <$> outs ≡ₚ xs ∧
    by_priority (message_of <$> outs) ∧
    (∀ p, of_priority p (message_of <$> outs) = of_priority p xs) ∧
    mq_rep (w_seg w') [].
Proof.
  intros Hq Hmagic Hxs Hroom [_ Hlen].
  destruct (send_all_run xs w []) as (w1 & Hrun & Hq1 & Hm1 & _ & Hsz1);
    try done.
  assert (msgsize (w_seg w1) ≤ maxlen) as Hlen1 by by rewrite Hsz1.
  destruct (receive_n_run maxlen (puts [] xs) w1 Hq1 Hm1 Hlen1)
    as (outs & w' & Hrun' & Ho & Hq' & _).
  rewrite puts_length in Hrun'. simpl in Hrun'.
  exists outs, w'. rewrite (bind_Ok _ _ _ _ _ Hrun), Hrun', Ho.
  split_and!; try done.
  - by rewrite puts_perm.
  - by apply puts_by_priority.
  - intros p. by rewrite of_priority_puts.
Qed.

End DrainProps.

(** ** Every operation keeps the queue well formed *)

Section WellFormed.
Context `{P : Platform}.









End WellFormed.

(** ** Notification, across calls *)

Section NotifyProps.
Context `{P : Platform}.

Lemma mq_send_empty_trace ptr prio w :
  mq_rep (w_seg w) [] →
  mqi_magic (w_info w) = MQI_MAGIC →
  sendable (msgsize (w_seg w)) (prio, ptr) →
  ∃ w',
    mq_send ptr prio WAIT_OBJECT_0 [] w = Ok 0 w' ∧
    mq_rep (w_seg w') [(prio, ptr)] ∧
    w_info w' = w_info w ∧
    notifications (w_trace w') =
      notifications (w_trace w) ++ notify_events (seg_hdr (w_seg w)) ∧
    mqh_pid (seg_hdr (w_seg w')) =
      (if notified (seg_hdr (w_seg w)) then 0
       else mqh_pid (seg_hdr (w_seg w))).
Proof.
  intros Hq Hmagic [[_ Hprio] Hlen]. simpl in *.
  assert (curmsgs (w_seg w) = 0) as Hc by by apply mq_rep_length in Hq.
  assert (0 < maxmsg (w_seg w)) as Hmax
    by by destruct Hq as (? & ? & _ & ? & _).
  destruct (mq_send_ok ptr prio None [] w [] Hq Hmagic Hprio Hlen)
    as (w' & Hrun & Hq' & Hi & Htr & Hh); [lia|].
  apply same_queue_hdr_after_notify in Hh as (_ & _ & _ & _ & Hpid).
  exists w'. split_and!; try done.
  rewrite Htr, !notifications_app, notifications_notify_events, Hc. simpl.
  by rewrite app_nil_r.
Qed.

(** X16.  A registration fires once and can then be made again: after a
    process has registered for a signal on an empty queue on which no
    receiver waits, the next send queues exactly that signal, with the
    number and the value of the registration, to that process and takes the
    registration off, so that [mq_notify] then registers any caller without
    EBUSY. *)
Theorem notification_fires_and_rearms (w : world) (ev ev' : sigevent)
    (pid pid' : Z) (ptr : list byte) (prio : Z) :
  mq_rep (w_seg w) [] →
  mqi_magic (w_info w) = MQI_MAGIC →
  sendable (msgsize (w_seg w)) (prio, ptr) →
  mqh_pid (seg_hdr (w_seg w)) = 0 →
  mqh_nwait (seg_hdr (w_seg w)) = 0 →
  pid ≠ 0 →
  sigev_notify ev = SIGEV_SIGNAL →
  ∃ w1 w2 w3,
    mq_notify (Some ev) pid false WAIT_OBJECT_0 w = Ok 0 w1 ∧
    mq_send ptr prio WAIT_OBJECT_0 [] w1 = Ok 0 w2 ∧
    notifications (w_trace w2) =
      notifications (w_trace w)
      ++ [EvSigqueue pid (sigev_signo ev) (sigev_value ev)] ∧
    mqh_pid (seg_hdr (w_seg w2)) = 0 ∧
    mq_notify (Some ev') pid' false WAIT_OBJECT_0 w2 = Ok 0 w3 ∧
    mqh_pid (seg_hdr (w_seg w3)) = pid' ∧
    mqh_event (seg_hdr (w_seg w3)) = ev'.
Proof.
  intros Hq Hmagic Hx Hpid Hnw Hp Hev.
  assert (acquired WAIT_OBJECT_0) as Hlock by by left.
  rewrite mq_notify_register_run by done. rewrite Hpid. simpl.
  set (w1 := {| w_seg := _; w_info := w_info w; w_trace := _ |}).
  destruct (mq_send_empty_trace ptr prio w1)
    as (w2 & Hrun & Hq2 & Hi2 & Htr2 & Hpid2); try done.
  { subst w1. simpl.
    by apply (mq_rep_set_pid _ _ pid), (mq_rep_set_event _ _ ev) in Hq. }
  assert (notified (seg_hdr (w_seg w1)) = true) as Hn.
  { subst w1. unfold notified, queue_empty. simpl.
    apply mq_rep_length in Hq. unfold curmsgs in Hq. simpl in Hq.
    rewrite Hq, Hnw. simpl. by destruct (Z.eqb_spec pid 0). }
  rewrite Hn in Hpid2.
  exists w1, w2. eexists. split; [done|]. split; [done|].
  split; [|split; [done|]].
  - rewrite Htr2. unfold notify_events. rewrite Hn. subst w1. simpl.
    rewrite Hev. rewrite notifications_app. simpl. by rewrite app_nil_r.
  - assert (mqi_magic (w_info w2) = MQI_MAGIC) as Hm2
      by by rewrite Hi2.
    rewrite mq_notify_register_run by done.
    rewrite Hpid2. simpl. done.
Qed.

(** X17.  A process that has closed the queue is not signalled: where the
    registered process calls [mq_close], a send by another opener that then
    takes the queue from empty to one message queues no signal. *)
Theorem closed_process_gets_no_signal (p : process) (mqd pid : Z)
    (info sender : mq_info) (ptr : list byte) (prio : Z) :
  mq_rep (p_seg p) [] →
  cygheap_fdget mqd p = Some (fh_mqueue info) →
  mqi_magic info = MQI_MAGIC →
  mqi_magic sender = MQI_MAGIC →
  sendable (msgsize (p_seg p)) (prio, ptr) →
  mqh_pid (seg_hdr (p_seg p)) = pid →
  ∃ p1 w2,
    mq_close mqd pid WAIT_OBJECT_0 p = POk 0 p1 ∧
    cygheap_fdget mqd p1 = None ∧
    mq_send ptr prio WAIT_OBJECT_0 [] (world_of p1 sender) = Ok 0 w2 ∧
    curmsgs (w_seg w2) = 1 ∧
    notifications (w_trace w2) = notifications (p_trace p).
Proof.
  intros Hq Hfd Hmagic Hsender Hx Hpid.
  assert (acquired WAIT_OBJECT_0) as Hlock by by left.
  rewrite (mq_close_run mqd pid WAIT_OBJECT_0 p info) by done.
  rewrite Hpid, Z.eqb_refl.
  set (p1 := {| p_fds := _; p_seg := _; p_trace := _ |}).
  destruct (mq_send_empty_trace ptr prio (world_of p1 sender))
    as (w2 & Hrun & Hq2 & Hi2 & Htr2 & Hpid2); try done.
  { subst p1. unfold world_of. cbn [w_seg p_seg].
    by apply (mq_rep_set_pid _ _ 0) in Hq. }
  exists p1, w2. split_and!; try done.
  - subst p1. unfold cygheap_fdget. cbn [p_fds]. apply lookup_delete_eq.
  - by apply mq_rep_length in Hq2.
  - rewrite Htr2. subst p1. unfold world_of, notify_events, notified.
    simpl. rewrite andb_false_r. simpl.
    rewrite notifications_app. simpl. by rewrite !app_nil_r.
Qed.

End NotifyProps.

(** ** Waking the other side *)

Lemma wakeups_app tr1 tr2 : wakeups (tr1 ++ tr2) = wakeups tr1 ++ wakeups tr2.
Proof. apply List.filter_app. Qed.

Lemma wakeups_notify_events h : wakeups (notify_events h) = [].
Proof.
  unfold notify_events. destruct (notified h); [|done].
  by destruct (sigev_notify (mqh_event h)).
Qed.

Section WakeProps.
Context `{P : Platform}.

Lemma mq_receive_trace maxlen abstime waits w x q :
  mq_rep (w_seg w) (x :: q) →
  mqi_magic (w_info w) = MQI_MAGIC →
  msgsize (w_seg w) ≤ maxlen →
  ∃ out w',
    _mq_receive maxlen abstime WAIT_OBJECT_0 waits w = Ok out w' ∧
    message_of out = x ∧
    mq_rep (w_seg w') q ∧
    w_trace w' = w_trace w ++ [EvLock] ++
      (if curmsgs (w_seg w) =? maxmsg (w_seg w)
       then [EvSetEvent mqi_waitsend] else []) ++ [EvReleaseMutex].
Proof.
  intros Hq Hmagic Hlen.
  destruct (mq_receive_locked_some maxlen abstime waits (locked w) x q)
    as (out & w' & Hrun & Hp & Hd & Hq' & Hi & Htr & Hhdr); try done.
  rewrite mq_receive_unlocked by (done || by left).
  unfold unlock_after. rewrite Hrun. unfold ipc_mutex_unlock, bind, emit, ret.
  eexists _, _. split; [reflexivity|]. simpl. split_and!; try done.
  - unfold message_of. rewrite Hp, Hd. by destruct x.
  - rewrite Htr. simpl. by rewrite <- !app_assoc.
Qed.

(** X18.  The other side is woken on the transitions only, and under the
    lock: a send that finds room sets the event of the receivers exactly if
    it found the queue empty, a receive sets the event of the senders exactly
    if it found the queue full, and neither sets any other event; the event
    is set after the lock was taken and before it is released. *)
Theorem wakeups_on_transitions (w : world) (q : list message) :
  mq_rep (w_seg w) q →
  mqi_magic (w_info w) = MQI_MAGIC →
  (∀ ptr prio abstime waits,
      sendable (msgsize (w_seg w)) (prio, ptr) →
      curmsgs (w_seg w) < maxmsg (w_seg w) →
      ∃ w' tr,
        _mq_send ptr prio abstime WAIT_OBJECT_0 waits w = Ok 0 w' ∧
        w_trace w' = w_trace w ++ [EvLock] ++ tr ++ [EvReleaseMutex] ∧
        wakeups tr = (if curmsgs (w_seg w) =? 0
                      then [EvSetEvent mqi_waitrecv] else []) ∧
        (EvLock ∉ tr) ∧ (EvReleaseMutex ∉ tr)) ∧
  (∀ maxlen abstime waits,
      q ≠ [] →
      0 ≤ msgsize (w_seg w) ≤ maxlen →
      ∃ out w' tr,
        _mq_receive maxlen abstime WAIT_OBJECT_0 waits w = Ok out w' ∧
        w_trace w' = w_trace w ++ [EvLock] ++ tr ++ [EvReleaseMutex] ∧
        wakeups tr = (if curmsgs (w_seg w) =? maxmsg (w_seg w)
                      then [EvSetEvent mqi_waitsend] else []) ∧
        (EvLock ∉ tr) ∧ (EvReleaseMutex ∉ tr)).
Proof.
  intros Hq Hmagic. split.
  - intros ptr prio abstime waits [[_ Hprio] Hlen] Hroom. simpl in *.
    destruct (mq_send_ok ptr prio abstime waits w q Hq Hmagic Hprio Hlen
                Hroom) as (w' & Hrun & _ & _ & Htr & _).
    exists w', (notify_events (seg_hdr (w_seg w)) ++
                (if curmsgs (w_seg w) =? 0 then [EvSetEvent mqi_waitrecv]
                 else [])).
    split; [done|]. split.
    { rewrite Htr. by rewrite <- !app_assoc. }
    rewrite wakeups_app, wakeups_notify_events. simpl. split_and!.
    + by destruct (_ =? 0).
    + intros [Hin|Hin]%elem_of_app.
      * unfold notify_events in Hin. destruct (notified _); [|by inversion Hin].
        destruct (sigev_notify _); try by inversion Hin.
        by apply list_elem_of_singleton in Hin.
      * destruct (_ =? 0); [by apply list_elem_of_singleton in Hin|].
        by inversion Hin.
    + intros [Hin|Hin]%elem_of_app.
      * unfold notify_events in Hin. destruct (notified _); [|by inversion Hin].
        destruct (sigev_notify _); try by inversion Hin.
        by apply list_elem_of_singleton in Hin.
      * destruct (_ =? 0); [by apply list_elem_of_singleton in Hin|].
        by inversion Hin.
  - intros maxlen abstime waits Hne [_ Hlen].
    destruct q as [|x q]; [done|].
    destruct (mq_receive_trace maxlen abstime waits w x q Hq Hmagic Hlen)
      as (out & w' & Hrun & _ & _ & Htr).
    exists out, w', (if curmsgs (w_seg w) =? maxmsg (w_seg w)
                     then [EvSetEvent mqi_waitsend] else []).
    split; [done|]. split; [exact Htr|].
    destruct (_ =? _); simpl; split_and!; try done.
    all: try (intros Hin; by apply list_elem_of_singleton in Hin).
    all: intros Hin; by inversion Hin.
Qed.

End WakeProps.

(** ** Creation *)

Section CreateProps.
Context `{P : Platform}.

Lemma land_mask_nonblock oflag :
  Z.land (Z.land oflag (Z.lor O_CREAT (Z.lor O_EXCL O_NONBLOCK))) O_NONBLOCK
  = Z.land oflag O_NONBLOCK.
Proof.
  apply Z.bits_inj'. intros i Hi. rewrite !Z.land_spec, !Z.lor_spec.
  by destruct (Z.testbit oflag i), (Z.testbit O_CREAT i),
    (Z.testbit O_EXCL i), (Z.testbit O_NONBLOCK i).
Qed.

(** X19.  Where every call it relies on goes through, [mq_open] with O_CREAT
    makes, for attributes in the checked range (or default attributes that
    are usable) whose file is at most 2 GiB, an empty well-formed queue: all
    slots are on the free list, capacity and message size are the ones asked
    for, nobody waits, nobody is registered, and the descriptor is stamped
    and carries O_NONBLOCK exactly if the caller passed it. *)
Theorem mq_open_makes_empty_queue (dflt : mq_attr) (oflag : Z)
    (attr : option mq_attr) (o : open_oracle) :
  calls_ok o →
  creatable dflt attr →
  0 < sizeof_mq_hdr → 0 < sizeof_long →
  file_size (default dflt attr) ≤ 2 ^ 31 →
  ∃ w,
    mq_open_create dflt oflag attr o = Opened w ∧
    mq_rep (w_seg w) [] ∧
    maxmsg (w_seg w) = mq_maxmsg (default dflt attr) ∧
    msgsize (w_seg w) = mq_msgsize (default dflt attr) ∧
    mqh_nwait (seg_hdr (w_seg w)) = 0 ∧
    mqh_pid (seg_hdr (w_seg w)) = 0 ∧
    mqi_magic (w_info w) = MQI_MAGIC ∧
    mqi_flags (w_info w) = Z.land oflag O_NONBLOCK.
Proof.
  intros Ho Hattr Hh Hl Hfit.
  set (a := default dflt attr) in *.
  assert (0 < mq_maxmsg a ∧ 0 ≤ mq_msgsize a < 2 ^ 31) as [Hm Hs].
  { subst a. destruct attr as [a|]; simpl in *; [|done].
    destruct Hattr as [? ?]. lia. }
  set (nb := Z.land (Z.land oflag (Z.lor O_CREAT (Z.lor O_EXCL O_NONBLOCK)))
               O_NONBLOCK).
  destruct (init_queue_rep a nb)
    as (w & Hrun & Hrep & Hi & Htr & Ha & Hnw & Hpid); try done; try lia.
  { unfold slot_size, MSGSIZE, sizeof_msg_hdr.
    pose proof (roundup_bounds (mq_msgsize a) sizeof_long Hl ltac:(lia)).
    lia. }
  exists w. split_and!; try done.
  - apply mq_open_create_run; try done.
    intros a' ->. exact Hattr.
  - unfold maxmsg. by rewrite Ha.
  - unfold msgsize. by rewrite Ha.
  - by rewrite Hi.
  - rewrite Hi. simpl. apply land_mask_nonblock.
Qed.

End CreateProps.

(** ** Calls that had to wait *)

Section Resumed.
Context `{P : Platform}.

Lemma timedwait_woken evt abstime env w :
  deadline_ok abstime →
  ∃ tr,
    ipc_cond_timedwait evt abstime (woken env) w =
      Ok None {| w_seg := env (w_seg w); w_info := w_info w;
                 w_trace := w_trace w ++ tr |} ∧
    notifications tr = [] ∧ wakeups tr = [].
Proof.
  destruct w as [s info tr0]. intros Hd.
  unfold ipc_cond_timedwait, arm_timer, woken. simpl.
  destruct abstime as [ts|]; simpl in Hd.
  - rewrite Hd. simpl.
    unfold ipc_mutex_unlock, bind, emit, ret, put_seg. simpl.
    eexists. rewrite <- !app_assoc. simpl. split; [reflexivity|]. done.
  - unfold ipc_mutex_unlock, bind, emit, ret, put_seg. simpl.
    eexists. rewrite <- !app_assoc. simpl. split; [reflexivity|]. done.
Qed.

Lemma wait_while_done pred evt abstime waits w :
  pred (seg_hdr (w_seg w)) = false →
  wait_while pred evt abstime waits w = Ok tt w.
Proof. intros Hp. destruct waits; simpl; by rewrite Hp. Qed.

Lemma wait_while_woken pred evt abstime env waits w :
  deadline_ok abstime →
  pred (seg_hdr (w_seg w)) = true →
  pred (seg_hdr (env (w_seg w))) = false →
  ∃ tr,
    wait_while pred evt abstime (woken env :: waits) w =
      Ok tt {| w_seg := env (w_seg w); w_info := w_info w;
               w_trace := w_trace w ++ tr |} ∧
    notifications tr = [] ∧ wakeups tr = [].
Proof.
  intros Hd Hp Hp'.
  destruct (timedwait_woken evt abstime env w Hd) as (tr & Hrun & Hn & Hw).
  exists tr. simpl. rewrite Hp. unfold bind. rewrite Hrun.
  by rewrite wait_while_done.
Qed.

Lemma blocked_send_run w q ptr prio abstime env waits q1 :
  mq_rep (w_seg w) q →
  mqi_magic (w_info w) = MQI_MAGIC →
  sendable (msgsize (w_seg w)) (prio, ptr) →
  curmsgs (w_seg w) = maxmsg (w_seg w) →
  is_nonblock (w_info w) = false →
  deadline_ok abstime →
  mq_rep (env (w_seg w)) q1 →
  curmsgs (env (w_seg w)) < maxmsg (env (w_seg w)) →
  msgsize (env (w_seg w)) = msgsize (w_seg w) →
  ∃ w',
    _mq_send ptr prio abstime WAIT_OBJECT_0 (woken env :: waits) w = Ok 0 w' ∧
    mq_rep (w_seg w') (put (prio, ptr) q1) ∧
    notifications (w_trace w') = notifications (w_trace w) ∧
    mqh_pid (seg_hdr (w_seg w')) = mqh_pid (seg_hdr (env (w_seg w))).
Proof.
  intros Hq Hmagic [[_ Hprio] Hlen] Hfull Hnb Hd Hq1 Hroom Hsz. simpl in *.
  assert (0 < maxmsg (w_seg w)) as Hmax
    by by destruct Hq as (? & ? & _ & ? & _).
  rewrite mq_send_unlocked by (done || by left).
  destruct (wait_while_woken queue_full mqi_waitsend abstime env waits
              (locked w) Hd) as (tr & Hwait & Hn & _).
  { unfold queue_full, locked. simpl. unfold curmsgs, maxmsg in Hfull.
    rewrite Hfull. apply Z.geb_le. lia. }
  { unfold queue_full, locked. simpl. unfold curmsgs, maxmsg in Hroom.
    destruct (Z.geb_spec (mq_curmsgs (mqh_attr (seg_hdr (env (w_seg w)))))
                (mq_maxmsg (mqh_attr (seg_hdr (env (w_seg w)))))); [lia|done]. }
  set (w3 := {| w_seg := _; w_info := _; w_trace := _ |}) in Hwait.
  destruct (send_enqueue_ok ptr prio w3 q1)
    as (w' & Hrun & Hq' & Hi & Htr & Hh); try done.
  { subst w3. simpl. by rewrite Hsz. }
  assert (mq_send_locked ptr prio abstime (woken env :: waits) (locked w)
          = Ok 0 w') as Hlocked.
  { unfold mq_send_locked. unfold bind at 1, get_hdr at 1.
    unfold msgsize in Hlen. unfold locked at 1. simpl.
    destruct (Z.gtb_spec (Z.of_nat (length ptr))
                (mq_msgsize (mqh_attr (seg_hdr (w_seg w))))); [lia|].
    assert (send_admit abstime (woken env :: waits) (locked w) = Ok tt w3)
      as Hadmit.
    { unfold send_admit. unfold bind at 1, get_hdr at 1.
      unfold queue_empty, queue_full, locked at 1 2 3. simpl.
      unfold curmsgs, maxmsg in Hfull, Hmax.
      destruct (Z.eqb_spec (mq_curmsgs (mqh_attr (seg_hdr (w_seg w)))) 0);
        [lia|].
      destruct (Z.geb_spec (mq_curmsgs (mqh_attr (seg_hdr (w_seg w))))
                  (mq_maxmsg (mqh_attr (seg_hdr (w_seg w))))); [|lia].
      unfold bind at 1, get_info at 1. unfold locked at 1. simpl.
      rewrite Hnb. exact Hwait. }
    by rewrite (bind_Ok _ _ _ _ _ Hadmit). }
  unfold unlock_after. rewrite Hlocked.
  unfold ipc_mutex_unlock, bind, emit, ret. eexists. split; [reflexivity|].
  simpl. split_and!; try done.
  - rewrite Htr. subst w3. simpl. rewrite !notifications_app, Hn. simpl.
    destruct (_ =? 0); simpl; by rewrite !app_nil_r.
  - destruct Hh as (_ & _ & _ & _ & Hpid & _). rewrite Hpid. by subst w3.
Qed.

(** X20.  A sender blocked on a full queue that is woken once the other
    openers have made room puts its message into the queue as they left it,
    at its place by priority, and returns 0. *)
Theorem blocked_send_resumes (w : world) (q q1 : list message)
    (ptr : list byte) (prio : Z) (abstime : option timespec)
    (env : segment → segment) (waits : list wait_oracle) :
  mq_rep (w_seg w) q →
  mqi_magic (w_info w) = MQI_MAGIC →
  sendable (msgsize (w_seg w)) (prio, ptr) →
  curmsgs (w_seg w) = maxmsg (w_seg w) →
  is_nonblock (w_info w) = false →
  deadline_ok abstime →
  mq_rep (env (w_seg w)) q1 →
  curmsgs (env (w_seg w)) < maxmsg (env (w_seg w)) →
  msgsize (env (w_seg w)) = msgsize (w_seg w) →
  ∃ w',
    _mq_send ptr prio abstime WAIT_OBJECT_0 (woken env :: waits) w = Ok 0 w' ∧
    mq_rep (w_seg w') (put (prio, ptr) q1) ∧
    curmsgs (w_seg w') = curmsgs (env (w_seg w)) + 1.
Proof.
  intros Hq Hmagic Hx Hfull Hnb Hd Hq1 Hroom Hsz.
  destruct (blocked_send_run w q ptr prio abstime env waits q1)
    as (w' & Hrun & Hq' & _); try done.
  exists w'. split_and!; try done.
  apply mq_rep_length in Hq', Hq1. rewrite Hq', Hq1, put_length. lia.
Qed.

(** X21.  A send that had to wait for room does not notify: where the
    other openers have emptied the queue by the time the sender is woken,
    its message takes the live count from 0 to 1, but no signal is queued
    and the registration stays, whoever is registered; the branch that
    notifies is taken only by a send that finds the queue empty on entry. *)
Theorem waited_send_does_not_notify (w : world) (q : list message)
    (ptr : list byte) (prio : Z) (abstime : option timespec)
    (env : segment → segment) (waits : list wait_oracle) :
  mq_rep (w_seg w) q →
  mqi_magic (w_info w) = MQI_MAGIC →
  sendable (msgsize (w_seg w)) (prio, ptr) →
  curmsgs (w_seg w) = maxmsg (w_seg w) →
  is_nonblock (w_info w) = false →
  deadline_ok abstime →
  mq_rep (env (w_seg w)) [] →
  maxmsg (env (w_seg w)) = maxmsg (w_seg w) →
  msgsize (env (w_seg w)) = msgsize (w_seg w) →
  ∃ w',
    _mq_send ptr prio abstime WAIT_OBJECT_0 (woken env :: waits) w = Ok 0 w' ∧
    curmsgs (w_seg w') = 1 ∧
    notifications (w_trace w') = notifications (w_trace w) ∧
    mqh_pid (seg_hdr (w_seg w')) = mqh_pid (seg_hdr (env (w_seg w))).
Proof.
  intros Hq Hmagic Hx Hfull Hnb Hd Hq1 Hmax Hsz.
  assert (0 < maxmsg (w_seg w)) as Hpos
    by by destruct Hq as (? & ? & _ & ? & _).
  destruct (blocked_send_run w q ptr prio abstime env waits [])
    as (w' & Hrun & Hq' & Hn & Hpid); try done.
  { apply mq_rep_length in Hq1. simpl in Hq1. lia. }
  exists w'. split_and!; try done.
  by apply mq_rep_length in Hq'.
Qed.

(** X22.  A receiver blocked on an empty queue is counted in [mqh_nwait]
    while it waits; woken once the other openers have put messages there, it
    takes the first of them, leaves the others in place, and takes itself
    out of the count again. *)
Theorem blocked_receive_resumes (w : world) (maxlen : Z)
    (abstime : option timespec) (env : segment → segment)
    (waits : list wait_oracle) (x : message) (q' : list message) :
  mq_rep (w_seg w) [] →
  mqi_magic (w_info w) = MQI_MAGIC →
  is_nonblock (w_info w) = false →
  0 ≤ msgsize (w_seg w) ≤ maxlen →
  deadline_ok abstime →
  mq_rep (env (waiting (w_seg w))) (x :: q') →
  ∃ out w',
    _mq_receive maxlen abstime WAIT_OBJECT_0 (woken env :: waits) w
      = Ok out w' ∧
    message_of out = x ∧
    mq_rep (w_seg w') q' ∧
    mqh_nwait (seg_hdr (w_seg w')) =
      mqh_nwait (seg_hdr (env (waiting (w_seg w)))) - 1.
Proof.
  intros Hq Hmagic Hnb [_ Hlen] Hd Hq1.
  assert (curmsgs (w_seg w) = 0) as Hc by by apply mq_rep_length in Hq.
  rewrite mq_receive_unlocked by (done || by left).
  set (w2 := {| w_seg := waiting (w_seg w); w_info := w_info w;
                w_trace := w_trace w ++ [EvLock] |}).
  destruct (wait_while_woken queue_empty mqi_waitrecv abstime env waits
              w2 Hd) as (tr & Hwait & _ & _).
  { unfold queue_empty. subst w2. simpl. unfold curmsgs in Hc.
    by rewrite Hc. }
  { unfold queue_empty. subst w2. simpl. apply mq_rep_length in Hq1.
    unfold curmsgs in Hq1. rewrite Hq1. simpl. done. }
  set (w3 := {| w_seg := env _; w_info := _; w_trace := _ |}) in Hwait.
  set (w4 := {| w_seg := {| seg_hdr := set_nwait (mqh_nwait (seg_hdr (w_seg w3)) - 1)
                                         (seg_hdr (w_seg w3));
                            seg_msgs := seg_msgs (w_seg w3) |};
                w_info := w_info w3; w_trace := w_trace w3 |}).
  destruct (receive_dequeue_ok w4 x q')
    as (out & w' & Hrun & Hp & Hdt & Hq' & Hi & Htr & Hh).
  { subst w4 w3. simpl. revert Hq1. by apply mq_rep_ext. }
  assert (mq_receive_locked maxlen abstime (woken env :: waits) (locked w)
          = Ok out w') as Hlocked.
  { unfold mq_receive_locked. unfold bind at 1, get_hdr at 1.
    unfold msgsize in Hlen. unfold locked at 1. simpl.
    destruct (Z.ltb_spec maxlen (mq_msgsize (mqh_attr (seg_hdr (w_seg w)))));
      [lia|].
    assert (receive_admit abstime (woken env :: waits) (locked w) = Ok tt w4)
      as Hadmit.
    { unfold receive_admit.
      rewrite (bind_Ok get_hdr _ (locked w) (seg_hdr (w_seg w)) (locked w)
                 eq_refl).
      assert (queue_empty (seg_hdr (w_seg w)) = true) as ->.
      { unfold queue_empty. unfold curmsgs in Hc. by rewrite Hc. }
      rewrite (bind_Ok get_info _ (locked w) (w_info w) (locked w) eq_refl).
      rewrite Hnb.
      rewrite (bind_Ok (modify_hdr (λ h, set_nwait (mqh_nwait h + 1) h)) _
                 (locked w) tt w2 eq_refl).
      rewrite (bind_Ok _ _ _ _ _ Hwait). done. }
    by rewrite (bind_Ok _ _ _ _ _ Hadmit). }
  unfold unlock_after. rewrite Hlocked.
  unfold ipc_mutex_unlock, bind, emit, ret. eexists _, _.
  split; [reflexivity|]. simpl. split_and!; try done.
  - unfold message_of. rewrite Hp, Hdt. by destruct x.
  - destruct Hh as (_ & _ & _ & Hnw & _). rewrite Hnw. by subst w4 w3.
Qed.

End Resumed.

(** ** Counts over the trace *)

Lemma count_events_app μ tr1 tr2 :
  count_events μ (tr1 ++ tr2) = count_events μ tr1 + count_events μ tr2.
Proof.
  unfold count_events. induction tr1 as [|ev tr1 IH]; simpl; [done|].
  rewrite IH. lia.
Qed.

Section Moves.
Context {A B : Type} (μ : event → Z).

Lemma moves_bind d0 (S1 : A + errno → Z → Prop) (S : B + errno → Z → Prop)
    (m : M A) (k : A → M B) :
  moves_from μ d0 S1 m →
  (∀ a d1, S1 (inl a) d1 → moves_from μ d1 S (k a)) →
  (∀ e d1, S1 (inr e) d1 → S (inr e) d1) →
  moves_from μ d0 S (bind m k).
Proof.
  intros Hm Hk Hl w. unfold bind. specialize (Hm w).
  destruct (m w) as [a w1|e w1|w1| |w1|w1|]; try done.
  - specialize (Hk a _ Hm w1).
    destruct (k a w1) as [b w2|e w2|w2| |w2|w2|]; try done.
    + replace (d0 + count_events μ (w_trace w2) - count_events μ (w_trace w))
        with (d0 + count_events μ (w_trace w1) - count_events μ (w_trace w)
              + count_events μ (w_trace w2) - count_events μ (w_trace w1))
        by lia. done.
    + replace (d0 + count_events μ (w_trace w2) - count_events μ (w_trace w))
        with (d0 + count_events μ (w_trace w1) - count_events μ (w_trace w)
              + count_events μ (w_trace w2) - count_events μ (w_trace w1))
        by lia. done.
  - by apply Hl.
Qed.

Lemma moves_silent d0 (S : B + errno → Z → Prop) (m : M A) (k : A → M B) :
  silent m →
  (∀ a, moves_from μ d0 S (k a)) →
  moves_from μ d0 S (bind m k).
Proof.
  intros Hm Hk w. unfold bind. specialize (Hm w).
  destruct (m w) as [a w1|e w1|w1| |w1|w1|]; try done.
  specialize (Hk a w1). rewrite Hm in *. exact Hk.
Qed.

Lemma moves_emit d0 (S : B + errno → Z → Prop) ev (k : unit → M B) :
  moves_from μ (d0 + μ ev) S (k tt) →
  moves_from μ d0 S (bind (emit ev) k).
Proof.
  intros Hk w. unfold bind, emit.
  specialize (Hk {| w_seg := w_seg w; w_info := w_info w;
                    w_trace := w_trace w ++ [ev] |}).
  simpl in Hk. rewrite count_events_app in Hk. simpl in Hk.
  destruct (k tt _) as [b w2|e w2|w2| |w2|w2|]; try done.
  - replace (d0 + count_events μ (w_trace w2) - count_events μ (w_trace w))
      with (d0 + μ ev + count_events μ (w_trace w2)
            - (count_events μ (w_trace w) + (μ ev + 0))) by lia. done.
  - replace (d0 + count_events μ (w_trace w2) - count_events μ (w_trace w))
      with (d0 + μ ev + count_events μ (w_trace w2)
            - (count_events μ (w_trace w) + (μ ev + 0))) by lia. done.
Qed.

Lemma moves_ret d0 (S : A + errno → Z → Prop) a :
  S (inl a) d0 → moves_from μ d0 S (ret a).
Proof.
  intros HS w. unfold ret.
  by replace (d0 + count_events μ (w_trace w) - count_events μ (w_trace w))
    with d0 by lia.
Qed.

Lemma moves_leave d0 (S : A + errno → Z → Prop) e :
  S (inr e) d0 → moves_from μ d0 S (leave e).
Proof.
  intros HS w. unfold leave.
  by replace (d0 + count_events μ (w_trace w) - count_events μ (w_trace w))
    with d0 by lia.
Qed.

Lemma moves_weaken d0 (S S' : A + errno → Z → Prop) (m : M A) :
  moves_from μ d0 S m → (∀ r d, S r d → S' r d) → moves_from μ d0 S' m.
Proof.
  intros Hm HS w. specialize (Hm w).
  destruct (m w) as [a w1|e w1|w1| |w1|w1|]; try done; by apply HS.
Qed.

Lemma moves_silent_end d0 (S : A + errno → Z → Prop) (m : M A) :
  silent m → (∀ a, S (inl a) d0) → moves_from μ d0 S m.
Proof.
  intros Hm HS w. specialize (Hm w).
  destruct (m w) as [a w1|e w1|w1| |w1|w1|]; try done.
  rewrite Hm.
  by replace (d0 + count_events μ (w_trace w) - count_events μ (w_trace w))
    with d0 by lia.
Qed.

End Moves.

Lemma silent_get_hdr : silent get_hdr.
Proof. by intros w. Qed.

Lemma silent_get_info : silent get_info.
Proof. by intros w. Qed.

Lemma silent_put_hdr h : silent (put_hdr h).
Proof. by intros w. Qed.

Lemma silent_put_info i : silent (put_info i).
Proof. by intros w. Qed.

Lemma silent_put_seg s : silent (put_seg s).
Proof. by intros w. Qed.

Lemma silent_put_seg_fun (f : world → segment) :
  silent (λ w, put_seg (f w) w).
Proof. by intros w. Qed.

Lemma silent_load i : silent (load i).
Proof. intros w. unfold load. by destruct (_ !! _). Qed.

Lemma silent_modify i f : silent (modify i f).
Proof. intros w. unfold modify. by destruct (_ !! _). Qed.

Lemma silent_modify_hdr f : silent (modify_hdr f).
Proof. by intros w. Qed.

Lemma silent_walk_fuel : silent walk_fuel.
Proof. by intros w. Qed.

Lemma silent_ret {A} (a : A) : silent (ret a).
Proof. by intros w. Qed.

Lemma silent_bind {A B} (m : M A) (k : A → M B) :
  silent m → (∀ a, silent (k a)) → silent (bind m k).
Proof.
  intros Hm Hk w. unfold bind. specialize (Hm w).
  destruct (m w) as [a w1|e w1|w1| |w1|w1|]; try done.
  specialize (Hk a w1). destruct (k a w1); try done. congruence.
Qed.

Lemma silent_set_pnext p v : silent (set_pnext p v).
Proof. destruct p; [apply silent_modify_hdr|apply silent_modify]. Qed.

Lemma silent_link_msg `{P : Platform} fuel : ∀ prio f index p,
  silent (link_msg fuel prio f index p).
Proof.
  induction fuel as [|fuel IH]; intros prio f index p; simpl; [done|].
  destruct (index =? 0).
  - apply silent_bind; [apply silent_set_pnext|].
    intros _. apply silent_modify.
  - apply silent_bind; [apply silent_load|]. intros m.
    destruct (prio >? msg_prio m); [|apply IH].
    apply silent_bind; [apply silent_modify|]. intros _.
    apply silent_set_pnext.
Qed.

Lemma moves_assoc {A B C} μ d0 (S : C + errno → Z → Prop) (m : M A)
    (f : A → M B) (k : B → M C) :
  moves_from μ d0 S (bind m (λ a, bind (f a) k)) →
  moves_from μ d0 S (bind (bind m f) k).
Proof.
  intros Hm w. specialize (Hm w). unfold bind in *.
  by destruct (m w) as [a w1|e w1|w1| |w1|w1|].
Qed.

Create HintDb silent discriminated.

#[local] Hint Resolve silent_get_hdr silent_get_info silent_put_hdr
  silent_put_info silent_put_seg silent_load silent_modify silent_modify_hdr
  silent_walk_fuel silent_ret silent_set_pnext silent_link_msg
  silent_put_seg_fun : silent.

Lemma moves_bind_ret {A B} μ d0 (S : B + errno → Z → Prop) (a : A)
    (k : A → M B) :
  moves_from μ d0 S (k a) → moves_from μ d0 S (bind (ret a) k).
Proof. intros Hk w. exact (Hk w). Qed.

Ltac mv1 :=
  lazymatch goal with
  | |- moves_from _ _ _ (bind (bind _ _) _) => apply moves_assoc
  | |- moves_from _ _ _ (bind (ret _) _) => apply moves_bind_ret; cbv beta
  | |- moves_from _ _ _ (bind (emit _) _) =>
      apply moves_emit; cbn [lock_delta timer_delta]
  | |- moves_from _ _ _ (ret _) => apply moves_ret
  | |- moves_from _ _ _ (leave _) => apply moves_leave
  | |- moves_from _ _ _ (bind _ _) =>
      apply moves_silent; [solve [auto with silent]|intros ?]
  end.

Ltac mv := repeat mv1.

Lemma moves_stuck {A} μ d0 (S : A + errno → Z → Prop) (m : M A) :
  (∀ w, match m w with Ok _ _ | Leave _ _ => False | _ => True end) →
  moves_from μ d0 S m.
Proof. intros Hm w. specialize (Hm w). by destruct (m w). Qed.

Lemma moves_unlock_after {A} μ d0 (S1 S : A + errno → Z → Prop) (m : M A) :
  moves_from μ d0 S1 m →
  (∀ r d, S1 r d → S r (d + μ EvReleaseMutex)) →
  moves_from μ d0 S (unlock_after m).
Proof.
  intros Hm HS w. unfold unlock_after. specialize (Hm w).
  destruct (m w) as [a w1|e w1|w1| |w1|w1|]; try done.
  - apply HS in Hm. unfold ipc_mutex_unlock, bind, emit, ret. simpl.
    rewrite count_events_app. simpl.
    by replace (d0 + (count_events μ (w_trace w1) + (μ EvReleaseMutex + 0))
                - count_events μ (w_trace w))
      with (d0 + count_events μ (w_trace w1) - count_events μ (w_trace w)
            + μ EvReleaseMutex) by lia.
  - apply HS in Hm. unfold ipc_mutex_unlock, bind, emit, leave. simpl.
    rewrite count_events_app. simpl.
    by replace (d0 + (count_events μ (w_trace w1) + (μ EvReleaseMutex + 0))
                - count_events μ (w_trace w))
      with (d0 + count_events μ (w_trace w1) - count_events μ (w_trace w)
            + μ EvReleaseMutex) by lia.
Qed.

Section LockMoves.
Context `{P : Platform}.

Lemma restart1_lock c t rs : ∀ d0,
  moves_from lock_delta d0
    (λ r d, match r with inl _ => d = d0 | inr _ => False end)
    (restart1 c t rs).
Proof.
  induction rs as [|r rs IH]; intros d0; simpl.
  { by apply moves_stuck. }
  mv. rewrite Z.add_0_r.
  destruct r as [|[|]| | | |]; try (mv; done).
  destruct (negb (t =? 2)); [by apply moves_stuck|by mv].
Qed.

Lemma restart2_lock t b rs : ∀ d0,
  moves_from lock_delta d0
    (λ r d, match r with
            | inl None => d = d0 + 1
            | inl (Some _) => d = d0
            | inr _ => False
            end)
    (restart2 t b rs).
Proof.
  induction rs as [|r rs IH]; intros d0; simpl.
  { by apply moves_stuck. }
  mv. rewrite Z.add_0_r.
  destruct r as [|[|]| | | |]; try (mv; lia).
  - apply IH.
  - destruct (negb (t =? 2) && negb b); [by apply moves_stuck|by mv].
Qed.

Lemma arm_timer_lock cnt abstime o d0 :
  moves_from lock_delta d0
    (λ r d, match r with inl _ => d = d0 | inr _ => False end)
    (arm_timer cnt abstime o).
Proof.
  unfold arm_timer. destruct abstime as [ts|]; [|by mv].
  destruct (negb (valid_timespec ts)); [by mv|]. mv.
  destruct (wo_create_timer o); [mv; lia|]. mv.
  destruct (wo_set_timer o); mv; lia.
Qed.

Lemma timedwait_lock evt abstime o d0 :
  unlocks o →
  moves_from lock_delta d0
    (λ r d, match r with
            | inl None => d = d0
            | inl (Some _) => d0 - 1 ≤ d ≤ d0
            | inr _ => False
            end)
    (ipc_cond_timedwait evt abstime o).
Proof.
  intros Hu. unfold ipc_cond_timedwait.
  eapply moves_bind; [apply arm_timer_lock| |done].
  intros [e|timer_idx] d1 ->; [mv; lia|]. mv.
  unfold ipc_mutex_unlock. rewrite Hu. mv.
  eapply moves_bind; [apply restart1_lock| |done].
  intros r1 d1 ->.
  eapply (moves_bind _ _ (λ r d, match r with
                                 | inl None => d = d0
                                 | inl (Some _) => d = d0 - 1
                                 | inr _ => False
                                 end)).
  { destruct r1 as [e|]; [mv; lia|].
    eapply moves_weaken; [apply restart2_lock|].
    intros [[e|]|e] d; simpl; lia. }
  2: done.
  intros r d1 Hr.
  destruct (negb (timer_idx =? 0)); [destruct (errno_eqb_ETIMEDOUT r)|];
    mv; destruct r; lia.
Qed.

Lemma wait_while_lock pred evt abstime waits : ∀ d0,
  Forall unlocks waits →
  moves_from lock_delta d0
    (λ r d, match r with inl _ => d = d0 | inr _ => d0 - 1 ≤ d ≤ d0 end)
    (wait_while pred evt abstime waits).
Proof.
  induction waits as [|o waits IH]; intros d0 Hu w; simpl.
  { destruct (pred _); [done|]. lia. }
  apply Forall_cons in Hu as [Ho Hu].
  destruct (pred (seg_hdr (w_seg w))); [|lia].
  revert w. change (moves_from lock_delta d0
    (λ r d, match r with inl _ => d = d0 | inr _ => d0 - 1 ≤ d ≤ d0 end)
    (r <- ipc_cond_timedwait evt abstime o ;;
     match r with
     | Some e => leave e
     | None => wait_while pred evt abstime waits
     end)).
  eapply moves_bind; [by apply timedwait_lock| |done].
  intros [e|] d1 Hd1; [by mv|]. subst d1. by apply IH.
Qed.

Lemma notify_registered_lock d0 :
  moves_from lock_delta d0
    (λ r d, match r with inl _ => d = d0 | inr _ => False end)
    notify_registered.
Proof.
  unfold notify_registered. mv.
  destruct (negb (mqh_pid a =? 0) && (mqh_nwait a =? 0)); [|by mv].
  destruct (sigev_notify (mqh_event a)); mv;
    (apply moves_silent_end; [auto with silent|]); intros; lia.
Qed.

Lemma send_admit_lock abstime waits d0 :
  Forall unlocks waits →
  moves_from lock_delta d0
    (λ r d, match r with inl _ => d = d0 | inr _ => d0 - 1 ≤ d ≤ d0 end)
    (send_admit abstime waits).
Proof.
  intros Hu. unfold send_admit. mv. destruct (queue_empty a).
  { eapply moves_weaken; [apply notify_registered_lock|].
    by intros [?|?] d. }
  destruct (queue_full a); [|by mv]. mv.
  destruct (is_nonblock a0); [mv; lia|]. by apply wait_while_lock.
Qed.

Lemma send_enqueue_lock ptr prio d0 :
  moves_from lock_delta d0
    (λ r d, match r with inl _ => d = d0 | inr _ => False end)
    (send_enqueue ptr prio).
Proof.
  unfold send_enqueue. mv.
  destruct (mqh_free a =? 0); [by apply moves_stuck|]. mv.
  unfold ipc_cond_signal. destruct (queue_empty _); mv; lia.
Qed.

Lemma mq_send_lock ptr prio abstime lock waits d0 :
  Forall unlocks waits →
  moves_from lock_delta d0
    (λ r d, match r with inl _ => d = d0 | inr _ => d0 - 1 ≤ d ≤ d0 end)
    (_mq_send ptr prio abstime lock waits).
Proof.
  intros Hu. unfold _mq_send. mv.
  destruct (negb _); [mv; lia|]. destruct (prio >=? MQ_PRIO_MAX); [mv; lia|].
  destruct lock; simpl; mv; try lia.
  3: by apply moves_stuck.
  all: eapply moves_unlock_after; [|by intros r d Hd; exact Hd].
  all: unfold mq_send_locked; mv;
    (destruct (_ >? _); [mv; simpl; lia|]);
    (eapply moves_bind; [by apply send_admit_lock| |simpl; lia]);
    intros _ d1 ->;
    (eapply moves_weaken; [apply send_enqueue_lock|]);
    intros [?|?] d; simpl; lia.
Qed.

Lemma receive_admit_lock abstime waits d0 :
  Forall unlocks waits →
  moves_from lock_delta d0
    (λ r d, match r with inl _ => d = d0 | inr _ => d0 - 1 ≤ d ≤ d0 end)
    (receive_admit abstime waits).
Proof.
  intros Hu. unfold receive_admit. mv. destruct (queue_empty a); [|by mv]. mv.
  destruct (is_nonblock a0); [mv; lia|]. mv.
  eapply moves_bind; [by apply wait_while_lock| |done].
  intros _ d1 ->. apply moves_silent_end; [auto with silent|done].
Qed.

Lemma receive_dequeue_lock d0 :
  moves_from lock_delta d0
    (λ r d, match r with inl _ => d = d0 | inr _ => False end)
    receive_dequeue.
Proof.
  unfold receive_dequeue. mv.
  destruct (mqh_head a =? 0); [by apply moves_stuck|]. mv.
  unfold ipc_cond_signal. destruct (_ =? _); mv; lia.
Qed.

Lemma mq_receive_lock maxlen abstime lock waits d0 :
  Forall unlocks waits →
  moves_from lock_delta d0
    (λ r d, match r with inl _ => d = d0 | inr _ => d0 - 1 ≤ d ≤ d0 end)
    (_mq_receive maxlen abstime lock waits).
Proof.
  intros Hu. unfold _mq_receive. mv.
  destruct (negb _); [mv; lia|].
  destruct lock; simpl; mv; try lia.
  3: by apply moves_stuck.
  all: eapply moves_unlock_after; [|by intros r d Hd; exact Hd].
  all: unfold mq_receive_locked; mv;
    (destruct (_ <? _); [mv; simpl; lia|]);
    (eapply moves_bind; [by apply receive_admit_lock| |simpl; lia]);
    intros _ d1 ->;
    (eapply moves_weaken; [apply receive_dequeue_lock|]);
    intros [?|?] d; simpl; lia.
Qed.

(** X23.  No send and no receive returns with the lock of the queue held:
    where ReleaseMutex does not fail, a call that returns 0 or a length has
    called ReleaseMutex as often as it acquired the mutex, whatever it waited
    for in between; a call that returns -1 has called it as often or, where a
    wait failed after it had given the mutex up, once more. *)
Theorem mutex_released_on_return (w : world) (ptr : list byte)
    (prio maxlen : Z) (abstime : option timespec) (lock : cygwait_t)
    (waits : list wait_oracle) :
  Forall unlocks waits →
  (∀ r w', _mq_send ptr prio abstime lock waits w = Ok r w' →
           lock_depth (w_trace w') = lock_depth (w_trace w)) ∧
  (∀ e w', _mq_send ptr prio abstime lock waits w = Leave e w' →
           lock_depth (w_trace w) - 1 ≤ lock_depth (w_trace w')
             ≤ lock_depth (w_trace w)) ∧
  (∀ out w', _mq_receive maxlen abstime lock waits w = Ok out w' →
             lock_depth (w_trace w') = lock_depth (w_trace w)) ∧
  (∀ e w', _mq_receive maxlen abstime lock waits w = Leave e w' →
           lock_depth (w_trace w) - 1 ≤ lock_depth (w_trace w')
             ≤ lock_depth (w_trace w)).
Proof.
  intros Hu.
  pose proof (mq_send_lock ptr prio abstime lock waits 0 Hu w) as Hs.
  pose proof (mq_receive_lock maxlen abstime lock waits 0 Hu w) as Hr.
  unfold lock_depth. split_and!.
  - intros r w' Heq. rewrite Heq in Hs. lia.
  - intros e w' Heq. rewrite Heq in Hs. lia.
  - intros r w' Heq. rewrite Heq in Hr. lia.
  - intros e w' Heq. rewrite Heq in Hr. lia.
Qed.

Lemma restart1_timer c t rs : ∀ d0,
  moves_from timer_delta d0
    (λ r d, match r with inl _ => d = d0 | inr _ => False end)
    (restart1 c t rs).
Proof.
  induction rs as [|r rs IH]; intros d0; simpl.
  { by apply moves_stuck. }
  mv. rewrite Z.add_0_r.
  destruct r as [|[|]| | | |]; try (mv; done).
  destruct (negb (t =? 2)); [by apply moves_stuck|by mv].
Qed.

Lemma restart2_timer t b rs : ∀ d0,
  moves_from timer_delta d0
    (λ r d, match r with inl _ => d = d0 | inr _ => False end)
    (restart2 t b rs).
Proof.
  induction rs as [|r rs IH]; intros d0; simpl.
  { by apply moves_stuck. }
  mv. rewrite Z.add_0_r.
  destruct r as [|[|]| | | |]; try (mv; lia); try done.
  destruct (negb (t =? 2) && negb b); [by apply moves_stuck|by mv].
Qed.

Lemma arm_timer_timer cnt abstime o d0 :
  cnt ≠ 0 →
  moves_from timer_delta d0
    (λ r d, match r with
            | inl (inl _) => d = d0 ∧ timer_armed abstime o = false
            | inl (inr idx) =>
                (idx =? 0) = negb (timer_armed abstime o) ∧
                d = d0 + (if timer_armed abstime o then 1 else 0)
            | inr _ => False
            end)
    (arm_timer cnt abstime o).
Proof.
  intros Hcnt. unfold arm_timer, timer_armed.
  destruct abstime as [ts|]; [|mv; simpl; split; [done|lia]].
  destruct (valid_timespec ts); simpl; [|by mv]. mv.
  destruct (wo_create_timer o); simpl; [mv; split; [lia|done]|]. mv.
  destruct (wo_set_timer o); simpl; mv; (split; [|lia]); try lia; try done.
Qed.

Lemma timedwait_timer evt abstime o d0 :
  moves_from timer_delta d0
    (λ r d, match r with
            | inl _ =>
                d = d0 + (if timer_armed abstime o
                             && negb (bool_decide (wo_unlock o = None))
                          then 1 else 0)
            | inr _ => False
            end)
    (ipc_cond_timedwait evt abstime o).
Proof.
  unfold ipc_cond_timedwait.
  eapply moves_bind; [apply arm_timer_timer| |done].
  { by destruct (wo_cancel_event o). }
  intros [e|timer_idx] d1; [intros [-> ->]; mv; simpl; lia|].
  intros [Hidx ->]. mv.
  unfold ipc_mutex_unlock. mv.
  destruct (wo_unlock o) as [e|]; simpl.
  { mv. rewrite andb_true_r. lia. }
  rewrite andb_false_r. mv.
  eapply moves_bind; [apply restart1_timer| |done].
  intros r1 d1 ->.
  eapply (moves_bind _ _ (λ r d,
            match r with
            | inl _ => d = d0 + (if timer_armed abstime o then 1 else 0)
            | inr _ => False
            end)).
  { destruct r1 as [e|]; [mv; lia|].
    eapply moves_weaken; [apply restart2_timer|].
    intros [?|?] d; simpl; lia. }
  2: done.
  intros r0 d1 ->. rewrite Hidx.
  destruct (timer_armed abstime o); simpl;
    [destruct (errno_eqb_ETIMEDOUT r0)|]; mv; lia.
Qed.

(** X24.  A wait that returns has closed the timer it made: at every return
    of [ipc_cond_timedwait] as many timers were closed as were made, but for
    one case, the return in which ReleaseMutex failed after the timer was
    set, which leaves the timer open. *)
Theorem timer_closed_on_return (evt : cond) (abstime : option timespec)
    (o : wait_oracle) (w w' : world) (r : option errno) :
  ipc_cond_timedwait evt abstime o w = Ok r w' →
  timers_open (w_trace w') =
    timers_open (w_trace w) +
    (if timer_armed abstime o && negb (bool_decide (wo_unlock o = None))
     then 1 else 0).
Proof.
  intros Heq. pose proof (timedwait_timer evt abstime o 0 w) as Hm.
  rewrite Heq in Hm. unfold timers_open. lia.
Qed.

Lemma wait_while_timer pred evt abstime waits : ∀ d0,
  Forall unlocks waits →
  moves_from timer_delta d0 (λ r d, d = d0)
    (wait_while pred evt abstime waits).
Proof.
  induction waits as [|o waits IH]; intros d0 Hu w; simpl.
  { destruct (pred _); [done|]. lia. }
  apply Forall_cons in Hu as [Ho Hu].
  destruct (pred (seg_hdr (w_seg w))); [|lia].
  revert w. change (moves_from timer_delta d0 (λ r d, d = d0)
    (r <- ipc_cond_timedwait evt abstime o ;;
     match r with
     | Some e => leave e
     | None => wait_while pred evt abstime waits
     end)).
  eapply moves_bind; [by apply timedwait_timer| |done].
  unfold unlocks in Ho. rewrite Ho. simpl. rewrite andb_false_r.
  intros [e|] d1 Hd1; [mv; lia|].
  replace d1 with d0 by lia. by apply IH.
Qed.

Lemma notify_registered_timer d0 :
  moves_from timer_delta d0 (λ r d, d = d0) notify_registered.
Proof.
  unfold notify_registered. mv.
  destruct (negb (mqh_pid a =? 0) && (mqh_nwait a =? 0)); [|by mv].
  destruct (sigev_notify (mqh_event a)); mv;
    (apply moves_silent_end; [auto with silent|]); intros; lia.
Qed.

Lemma send_admit_timer abstime waits d0 :
  Forall unlocks waits →
  moves_from timer_delta d0 (λ r d, d = d0) (send_admit abstime waits).
Proof.
  intros Hu. unfold send_admit. mv. destruct (queue_empty a).
  { apply notify_registered_timer. }
  destruct (queue_full a); [|by mv]. mv.
  destruct (is_nonblock a0); [by mv|]. by apply wait_while_timer.
Qed.

Lemma send_enqueue_timer ptr prio d0 :
  moves_from timer_delta d0 (λ r d, d = d0) (send_enqueue ptr prio).
Proof.
  unfold send_enqueue. mv.
  destruct (mqh_free a =? 0); [by apply moves_stuck|]. mv.
  unfold ipc_cond_signal. destruct (queue_empty _); mv; lia.
Qed.

Lemma mq_send_timer ptr prio abstime lock waits d0 :
  Forall unlocks waits →
  moves_from timer_delta d0 (λ r d, d = d0)
    (_mq_send ptr prio abstime lock waits).
Proof.
  intros Hu. unfold _mq_send. mv.
  destruct (negb _); [by mv|]. destruct (prio >=? MQ_PRIO_MAX); [by mv|].
  destruct lock; simpl; mv; try lia.
  3: by apply moves_stuck.
  all: eapply moves_unlock_after; [|by intros r d Hd; exact Hd].
  all: unfold mq_send_locked; mv;
    (destruct (_ >? _); [mv; simpl; lia|]);
    (eapply moves_bind; [by apply send_admit_timer| |simpl; lia]);
    intros _ d1 ->;
    (eapply moves_weaken; [apply send_enqueue_timer|]);
    intros [?|?] d; simpl; lia.
Qed.

Lemma receive_admit_timer abstime waits d0 :
  Forall unlocks waits →
  moves_from timer_delta d0 (λ r d, d = d0) (receive_admit abstime waits).
Proof.
  intros Hu. unfold receive_admit. mv. destruct (queue_empty a); [|by mv]. mv.
  destruct (is_nonblock a0); [by mv|]. mv.
  eapply moves_bind; [by apply wait_while_timer| |done].
  intros _ d1 ->. apply moves_silent_end; [auto with silent|done].
Qed.

Lemma receive_dequeue_timer d0 :
  moves_from timer_delta d0 (λ r d, d = d0) receive_dequeue.
Proof.
  unfold receive_dequeue. mv.
  destruct (mqh_head a =? 0); [by apply moves_stuck|]. mv.
  unfold ipc_cond_signal. destruct (_ =? _); mv; lia.
Qed.

Lemma mq_receive_timer maxlen abstime lock waits d0 :
  Forall unlocks waits →
  moves_from timer_delta d0 (λ r d, d = d0)
    (_mq_receive maxlen abstime lock waits).
Proof.
  intros Hu. unfold _mq_receive. mv.
  destruct (negb _); [by mv|].
  destruct lock; simpl; mv; try lia.
  3: by apply moves_stuck.
  all: eapply moves_unlock_after; [|by intros r d Hd; exact Hd].
  all: unfold mq_receive_locked; mv;
    (destruct (_ <? _); [mv; simpl; lia|]);
    (eapply moves_bind; [by apply receive_admit_timer| |simpl; lia]);
    intros _ d1 ->;
    (eapply moves_weaken; [apply receive_dequeue_timer|]);
    intros [?|?] d; simpl; lia.
Qed.

(** X25.  No send and no receive returns with a timer left behind: where
    ReleaseMutex does not fail, a timed call has, when it returns, whether
    with 0, a length or -1, closed every timer that its waits made. *)
Theorem no_timer_left_on_return (w : world) (ptr : list byte)
    (prio maxlen : Z) (abstime : option timespec) (lock : cygwait_t)
    (waits : list wait_oracle) :
  Forall unlocks waits →
  (∀ w', (∃ r, _mq_send ptr prio abstime lock waits w = Ok r w') ∨
         (∃ e, _mq_send ptr prio abstime lock waits w = Leave e w') →
         timers_open (w_trace w') = timers_open (w_trace w)) ∧
  (∀ w', (∃ out, _mq_receive maxlen abstime lock waits w = Ok out w') ∨
         (∃ e, _mq_receive maxlen abstime lock waits w = Leave e w') →
         timers_open (w_trace w') = timers_open (w_trace w)).
Proof.
  intros Hu.
  pose proof (mq_send_timer ptr prio abstime lock waits 0 Hu w) as Hs.
  pose proof (mq_receive_timer maxlen abstime lock waits 0 Hu w) as Hr.
  unfold timers_open. split.
  - intros w' [[r Heq]|[e Heq]]; rewrite Heq in Hs; lia.
  - intros w' [[r Heq]|[e Heq]]; rewrite Heq in Hr; lia.
Qed.

End LockMoves.

(** ** The length of a message *)
















Section Lengths.
Context `{P : Platform}.


















End Lengths.

(** ** The properties at work on concrete queues *)

Lemma abc_queue_rep :
  mq_rep (w_seg abc_queue) [(5, ["B"%byte]); (1, ["A"%byte]); (1, ["C"%byte])].
Proof.
  destruct (send_all_run (P := cygwin64) abc blocking_queue []
              blocking_queue_rep eq_refl)
    as (w' & Hrun & Hrep & _).
  - repeat constructor; vm_compute; congruence.
  - vm_compute. congruence.
  - unfold abc_queue. by rewrite Hrun.
Qed.

Lemma waiting_sender_rep :
  mq_rep (sender_env (waiting (w_seg blocking_queue))) [(1, ["A"%byte])].
Proof.
  set (w := {| w_seg := waiting (w_seg blocking_queue);
               w_info := w_info blocking_queue; w_trace := [] |}).
  assert (mq_rep (w_seg w) []) as Hrep.
  { generalize blocking_queue_rep. by apply mq_rep_ext. }
  destruct (mq_send_next (P := cygwin64) ["A"%byte] 1 None [] w [] Hrep
              eq_refl) as (w' & Hrun & Hrep' & _).
  - reflexivity.
  - vm_compute. congruence.
  - vm_compute. reflexivity.
  - unfold sender_env. fold w. unfold mq_send. by rewrite Hrun.
Qed.

Lemma abc_queue_drained_rep :
  mq_rep (receiver_takes 3 (w_seg abc_queue)) [] ∧
  maxmsg (receiver_takes 3 (w_seg abc_queue)) = 3 ∧
  msgsize (receiver_takes 3 (w_seg abc_queue)) = 4.
Proof.
  set (w := {| w_seg := w_seg abc_queue; w_info := w_info blocking_queue;
               w_trace := [] |}).
  destruct (receive_n_run (P := cygwin64) 4 _ w abc_queue_rep eq_refl)
    as (outs & w' & Hrun & _ & Hrep & _).
  { vm_compute. congruence. }
  change (length _) with 3%nat in Hrun.
  split; [|vm_compute; split; reflexivity].
  unfold receiver_takes. fold w. rewrite Hrun. exact Hrep.
Qed.

Lemma registered_full_queue_rep :
  mq_rep (w_seg registered_full_queue)
    [(5, ["B"%byte]); (1, ["A"%byte]); (1, ["C"%byte])].
Proof.
  unfold registered_full_queue.
  rewrite (mq_notify_register_run (P := cygwin64)) by (reflexivity || by left).
  change (negb _ && negb false) with false. cbn [w_seg].
  apply (mq_rep_set_event
           {| seg_hdr := set_pid 42 (seg_hdr (w_seg abc_queue));
              seg_msgs := seg_msgs (w_seg abc_queue) |} _ signal_10).
  apply (mq_rep_set_pid _ _ 42). exact abc_queue_rep.
Qed.

Lemma registered_full_queue_drained_rep :
  mq_rep (receiver_takes 3 (w_seg registered_full_queue)) [].
Proof.
  set (w := {| w_seg := w_seg registered_full_queue;
               w_info := w_info blocking_queue; w_trace := [] |}).
  destruct (receive_n_run (P := cygwin64) 4 _ w registered_full_queue_rep
              eq_refl) as (outs & w' & Hrun & _ & Hrep & _).
  { vm_compute. congruence. }
  change (length _) with 3%nat in Hrun.
  unfold receiver_takes. fold w. rewrite Hrun. exact Hrep.
Qed.

Lemma mq_close_unregisters_caller_witness :
  ∃ p',
    mq_close (P := cygwin64) 3 42 WAIT_OBJECT_0
      (process_with 3 registered_queue) = POk 0 p' ∧
    mqh_pid (seg_hdr (p_seg p')) = 0 ∧
    cygheap_fdget 3 p' = None ∧
    mq_close (P := cygwin64) 3 42 WAIT_OBJECT_0 p' = PLeave EBADF p' ∧
    through 3 (mq_send (P := cygwin64) ["A"%byte] 1 WAIT_OBJECT_0 []) p'
      = PLeave EBADF p'.
Proof.
  destruct (proj1 (mq_close_unregisters_caller (P := cygwin64)
                     (process_with 3 registered_queue) 3 42
                     (w_info registered_queue) WAIT_OBJECT_0
                     eq_refl eq_refl)
              (or_introl eq_refl))
    as (p' & Hrun & Hfds & Hpid & _ & _ & _ & Hclose & Hcall).
  exists p'. split_and!.
  - exact Hrun.
  - exact Hpid.
  - unfold cygheap_fdget. rewrite Hfds. apply lookup_delete_eq.
  - apply Hclose.
  - apply Hcall.
Defined.

Lemma mq_notify_one_registration_witness :
  mq_notify (P := cygwin64) (Some signal_10) 43 false WAIT_OBJECT_0
    registered_queue =
  Leave EBUSY {| w_seg := w_seg registered_queue;
                 w_info := w_info registered_queue;
                 w_trace := w_trace registered_queue
                            ++ [EvLock; EvReleaseMutex] |} ∧
  ∃ w',
    mq_notify (P := cygwin64) (Some signal_10) 43 true WAIT_OBJECT_0
      registered_queue = Ok 0 w' ∧
    mqh_pid (seg_hdr (w_seg w')) = 43.
Proof.
  destruct (mq_notify_one_registration (P := cygwin64) registered_queue
              signal_10 43 WAIT_OBJECT_0 eq_refl (or_introl eq_refl))
    as (Hbusy & Hgone & _).
  { vm_compute. congruence. }
  split; [exact Hbusy|]. eexists. split; [exact Hgone|reflexivity].
Defined.

Lemma mq_notify_unregisters_owner_only_witness :
  ∃ w1 w2,
    mq_notify (P := cygwin64) None 43 false WAIT_OBJECT_0 registered_queue
      = Ok 0 w1 ∧
    (mqh_pid (seg_hdr (w_seg registered_queue)) = 43 →
       seg_hdr (w_seg w1) = set_pid 0 (seg_hdr (w_seg registered_queue))) ∧
    (mqh_pid (seg_hdr (w_seg registered_queue)) ≠ 43 →
       w_seg w1 = w_seg registered_queue) ∧
    seg_msgs (w_seg w1) = seg_msgs (w_seg registered_queue) ∧
    mq_notify (P := cygwin64) None 43 false WAIT_OBJECT_0 w1 = Ok 0 w2 ∧
    (43 ≠ 0 → w_seg w2 = w_seg w1).
Proof.
  exact (mq_notify_unregisters_owner_only (P := cygwin64) registered_queue 43
           WAIT_OBJECT_0 eq_refl (or_introl eq_refl)).
Defined.

Lemma mq_receive_needs_full_buffer_witness :
  _mq_receive (P := cygwin64) 3 None WAIT_OBJECT_0 [] abc_queue =
    Leave EMSGSIZE {| w_seg := w_seg abc_queue; w_info := w_info abc_queue;
                      w_trace := w_trace abc_queue
                                 ++ [EvLock; EvReleaseMutex] |}.
Proof.
  apply (mq_receive_needs_full_buffer (P := cygwin64) abc_queue 3 None
           WAIT_OBJECT_0 [] eq_refl (or_introl eq_refl)).
  vm_compute. split; congruence.
Defined.

Lemma empty_nonblocking_receive_would_block_witness :
  _mq_receive (P := cygwin64) 4 None WAIT_OBJECT_0 [] nonblocking_queue =
    Leave EAGAIN {| w_seg := w_seg nonblocking_queue;
                    w_info := w_info nonblocking_queue;
                    w_trace := w_trace nonblocking_queue
                               ++ [EvLock; EvReleaseMutex] |}.
Proof.
  apply (proj2 (empty_nonblocking_receive_would_block (P := cygwin64)
                  nonblocking_queue 4 None WAIT_OBJECT_0 [] eq_refl eq_refl));
    [reflexivity| |by left].
  vm_compute. split; congruence.
Defined.

Lemma interrupted_lock_sets_errno_1_witness :
  ipc_mutex_lock WAIT_SIGNALED blocking_queue
    = Ok (Some (ERAW 1)) blocking_queue ∧
  _mq_send (P := cygwin64) ["A"%byte] 1 None WAIT_SIGNALED [] blocking_queue
    = Leave (ERAW 1) blocking_queue ∧
  _mq_receive (P := cygwin64) 4 None WAIT_SIGNALED [] blocking_queue
    = Leave (ERAW 1) blocking_queue.
Proof.
  exact (interrupted_lock_sets_errno_1 (P := cygwin64) blocking_queue
           ["A"%byte] 1 4 None [] eq_refl eq_refl).
Defined.

Lemma receiving_drains_in_order_witness :
  ∃ outs w',
    receive_n (P := cygwin64) 3 4 abc_queue = Ok outs w' ∧
    message_of <$> outs =
      [(5, ["B"%byte]); (1, ["A"%byte]); (1, ["C"%byte])] ∧
    mq_rep (w_seg w') [] ∧
    curmsgs (w_seg w') = 0.
Proof.
  apply (receiving_drains_in_order (P := cygwin64) abc_queue _ 4
           abc_queue_rep eq_refl).
  vm_compute. split; congruence.
Defined.

Lemma queue_sorts_stably_witness :
  ∃ outs w',
    (send_all (P := cygwin64) abc ;;; receive_n (P := cygwin64) 3 4)
      blocking_queue
      = Ok outs w' ∧
    message_of <$> outs ≡ₚ abc ∧
    by_priority (message_of <$> outs) ∧
    (∀ p, of_priority p (message_of <$> outs) = of_priority p abc) ∧
    mq_rep (w_seg w') [].
Proof.
  apply (queue_sorts_stably (P := cygwin64) blocking_queue abc 4
           blocking_queue_rep eq_refl).
  - repeat constructor; vm_compute; congruence.
  - vm_compute. congruence.
  - vm_compute. split; congruence.
Defined.


Lemma notification_fires_and_rearms_witness :
  ∃ w1 w2 w3,
    mq_notify (P := cygwin64) (Some signal_10) 42 false WAIT_OBJECT_0
      blocking_queue = Ok 0 w1 ∧
    mq_send (P := cygwin64) ["A"%byte] 1 WAIT_OBJECT_0 [] w1 = Ok 0 w2 ∧
    notifications (w_trace w2) =
      notifications (w_trace blocking_queue) ++ [EvSigqueue 42 10 7] ∧
    mqh_pid (seg_hdr (w_seg w2)) = 0 ∧
    mq_notify (P := cygwin64) (Some signal_10) 43 false WAIT_OBJECT_0 w2
      = Ok 0 w3 ∧
    mqh_pid (seg_hdr (w_seg w3)) = 43 ∧
    mqh_event (seg_hdr (w_seg w3)) = signal_10.
Proof.
  apply (notification_fires_and_rearms (P := cygwin64) blocking_queue
           signal_10 signal_10 42 43 ["A"%byte] 1 blocking_queue_rep eq_refl);
    try reflexivity.
  - vm_compute. repeat split; congruence.
  - congruence.
Defined.

Lemma closed_process_gets_no_signal_witness :
  ∃ p1 w2,
    mq_close (P := cygwin64) 3 42 WAIT_OBJECT_0
      (process_with 3 registered_queue) = POk 0 p1 ∧
    cygheap_fdget 3 p1 = None ∧
    mq_send (P := cygwin64) ["A"%byte] 1 WAIT_OBJECT_0 []
      (world_of p1 (w_info blocking_queue)) = Ok 0 w2 ∧
    curmsgs (w_seg w2) = 1 ∧
    notifications (w_trace w2) = notifications (w_trace registered_queue).
Proof.
  apply (closed_process_gets_no_signal (P := cygwin64)
           (process_with 3 registered_queue) 3 42 (w_info registered_queue)
           (w_info blocking_queue) ["A"%byte] 1 registered_queue_rep eq_refl
           eq_refl eq_refl); [|reflexivity].
  vm_compute. repeat split; congruence.
Defined.

Lemma wakeups_on_transitions_witness :
  ∃ w' tr,
    _mq_send (P := cygwin64) ["A"%byte] 1 None WAIT_OBJECT_0 []
      blocking_queue = Ok 0 w' ∧
    w_trace w' = w_trace blocking_queue ++ [EvLock] ++ tr
                 ++ [EvReleaseMutex] ∧
    wakeups tr = (if curmsgs (w_seg blocking_queue) =? 0
                  then [EvSetEvent mqi_waitrecv] else []) ∧
    (EvLock ∉ tr) ∧ (EvReleaseMutex ∉ tr).
Proof.
  apply (proj1 (wakeups_on_transitions (P := cygwin64) blocking_queue []
                  blocking_queue_rep eq_refl)).
  - vm_compute. repeat split; congruence.
  - vm_compute. reflexivity.
Defined.

Lemma mq_open_makes_empty_queue_witness :
  ∃ w,
    mq_open_create (P := cygwin64) defattr (@O_CREAT cygwin64) (Some attr3)
      all_ok = Opened w ∧
    mq_rep (w_seg w) [] ∧
    maxmsg (w_seg w) = 3 ∧
    msgsize (w_seg w) = 4 ∧
    mqh_nwait (seg_hdr (w_seg w)) = 0 ∧
    mqh_pid (seg_hdr (w_seg w)) = 0 ∧
    mqi_magic (w_info w) = @MQI_MAGIC cygwin64 ∧
    mqi_flags (w_info w) = Z.land (@O_CREAT cygwin64) (@O_NONBLOCK cygwin64).
Proof.
  apply (mq_open_makes_empty_queue (P := cygwin64) defattr
           (@O_CREAT cygwin64) (Some attr3) all_ok).
  - unfold calls_ok. simpl. repeat split.
  - vm_compute. repeat split; congruence.
  - reflexivity.
  - reflexivity.
  - vm_compute. congruence.
Defined.

Lemma blocked_send_resumes_witness :
  ∃ w',
    _mq_send (P := cygwin64) ["D"%byte] 2 some_deadline WAIT_OBJECT_0
      [woken (receiver_takes 3)] abc_queue = Ok 0 w' ∧
    mq_rep (w_seg w') (put (2, ["D"%byte]) []) ∧
    curmsgs (w_seg w') = curmsgs (receiver_takes 3 (w_seg abc_queue)) + 1.
Proof.
  destruct abc_queue_drained_rep as (Hrep & Hmax & Hsz).
  apply (blocked_send_resumes (P := cygwin64) abc_queue _ [] ["D"%byte] 2
           some_deadline (receiver_takes 3) [] abc_queue_rep eq_refl);
    try reflexivity; try exact Hrep.
  vm_compute. repeat split; congruence.
Defined.

Lemma waited_send_does_not_notify_witness :
  mqh_pid (seg_hdr (w_seg registered_full_queue)) = 42 ∧
  mqh_nwait (seg_hdr (w_seg registered_full_queue)) = 0 ∧
  sigev_notify (mqh_event (seg_hdr (w_seg registered_full_queue)))
    = SIGEV_SIGNAL ∧
  curmsgs (receiver_takes 3 (w_seg registered_full_queue)) = 0 ∧
  ∃ w',
    _mq_send (P := cygwin64) ["D"%byte] 2 None WAIT_OBJECT_0
      [woken (receiver_takes 3)] registered_full_queue = Ok 0 w' ∧
    curmsgs (w_seg w') = 1 ∧
    notifications (w_trace w') = notifications (w_trace registered_full_queue) ∧
    mqh_pid (seg_hdr (w_seg w')) = 42.
Proof.
  split_and!; try reflexivity.
  destruct (waited_send_does_not_notify (P := cygwin64) registered_full_queue
              _ ["D"%byte] 2 None (receiver_takes 3) []
              registered_full_queue_rep eq_refl)
    as (w' & Hrun & Hcur & Hnote & Hpid); try reflexivity.
  - vm_compute. repeat split; congruence.
  - exact registered_full_queue_drained_rep.
  - exists w'.
    split_and!; [exact Hrun|exact Hcur|exact Hnote|rewrite Hpid; reflexivity].
Defined.

Lemma blocked_receive_resumes_witness :
  ∃ out w',
    _mq_receive (P := cygwin64) 4 None WAIT_OBJECT_0 [woken sender_env]
      blocking_queue = Ok out w' ∧
    message_of out = (1, ["A"%byte]) ∧
    mq_rep (w_seg w') [] ∧
    mqh_nwait (seg_hdr (w_seg w')) =
      mqh_nwait (seg_hdr (sender_env (waiting (w_seg blocking_queue)))) - 1.
Proof.
  apply (blocked_receive_resumes (P := cygwin64) blocking_queue 4 None
           sender_env [] (1, ["A"%byte]) [] blocking_queue_rep eq_refl
           eq_refl); [|exact I|exact waiting_sender_rep].
  vm_compute. split; congruence.
Defined.

Lemma mutex_released_on_return_witness :
  ∃ w',
    _mq_receive (P := cygwin64) 4 some_deadline WAIT_OBJECT_0 [timed_out]
      blocking_queue = Leave ETIMEDOUT w' ∧
    lock_depth (w_trace blocking_queue) - 1 ≤ lock_depth (w_trace w')
      ≤ lock_depth (w_trace blocking_queue).
Proof.
  eexists. split; [vm_compute; reflexivity|].
  apply (proj2 (proj2 (proj2
           (mutex_released_on_return (P := cygwin64) blocking_queue [] 0 4
              some_deadline WAIT_OBJECT_0 [timed_out]
              (Forall_cons_2 _ timed_out [] eq_refl (Forall_nil_2 _)))))
           ETIMEDOUT).
  vm_compute. reflexivity.
Defined.

Lemma timer_closed_on_return_witness :
  ∃ w',
    ipc_cond_timedwait (P := cygwin64) mqi_waitrecv some_deadline timed_out
      blocking_queue = Ok (Some ETIMEDOUT) w' ∧
    timers_open (w_trace w') = timers_open (w_trace blocking_queue) + 0.
Proof.
  eexists. split; [vm_compute; reflexivity|].
  apply (timer_closed_on_return (P := cygwin64) mqi_waitrecv some_deadline
           timed_out blocking_queue _ (Some ETIMEDOUT)).
  vm_compute. reflexivity.
Defined.

Lemma no_timer_left_on_return_witness :
  ∃ w',
    _mq_receive (P := cygwin64) 4 some_deadline WAIT_OBJECT_0 [timed_out]
      blocking_queue = Leave ETIMEDOUT w' ∧
    timers_open (w_trace w') = timers_open (w_trace blocking_queue).
Proof.
  eexists. split; [vm_compute; reflexivity|].
  apply (proj2 (no_timer_left_on_return (P := cygwin64) blocking_queue [] 0 4
                  some_deadline WAIT_OBJECT_0 [timed_out]
                  (Forall_cons_2 _ timed_out [] eq_refl (Forall_nil_2 _)))).
  right. exists ETIMEDOUT. vm_compute. reflexivity.
Defined.

